(** * On-chain Reports component: a shallow embedding and its properties

    The development follows the JavaScript/TypeScript sources of the
    Reports component:

    - [src/onchain/constants.ts]                       (ONCHAIN_CONSTANTS)
    - [src/onchain/state.js]                           (OnchainState)
    - [src/onchain/extrinsics/guaranteeProcessor.js]   (validateWorkReport,
      processGuaranteeExtrinsic) and its TypeScript twin
    - the dispute processor                            (processDisputeExtrinsic)
    - [src/onchain/extrinsics/assuranceProcessor.js]   (processAssuranceExtrinsic)
    - [src/onchain/accumulation/pvmSimulator.ts]       (simulatePsiAPVM)
    - [src/onchain/accumulation/queueHandler.ts]       (topologicalSort,
      processAccumulationQueue) and its JavaScript twin
    - [src/offchain/guarantor.js]                      (historicalLookup)
    - [src/offchain/encoder.js]                        (encodeForAvailability)
      with the constructor of AvailabilitySpec

    Modelling conventions.

    - JavaScript numbers that hold slots, epochs, gas, core indices and
      balances are integers; they are modelled as [Z].
    - A JavaScript [Map] whose iteration order is observed by the code (the
      accumulation queue omega and the work maps of [topologicalSort]) is an
      insertion-ordered association list ([OMap]).  The other maps are
      [gmap]s and the [Set<string>]s are [gset]s.
    - Objects that the code mutates in place (a pending entry, an offender
      record, a bad-report record) live in exactly one map, so in-place
      mutation is modelled by re-inserting the updated record.
    - [throw] / [try .. catch] is modelled by the error monad [Result],
      whose [Throw] carries [error.message].
    - Functions whose code is not part of the sources at hand (the
      cryptographic primitives, [JSON.parse], [WorkReport.toSignableObject]
      behind [generateWorkDigest], and [applyDelta] of stateIntegrator) are
      fields of the class [Externals]. *)

From stdpp Require Import gmap strings list fin_maps pretty.

Local Open Scope Z_scope.

(** ** Errors *)

Inductive Result (A : Type) : Type :=
| Ok (a : A)
| Throw (message : string).
Arguments Ok {A} a.
Arguments Throw {A} message.

#[global] Instance Result_ret : MRet Result := fun _ a => Ok a.
#[global] Instance Result_bind : MBind Result := fun _ _ f m =>
  match m with
  | Ok a => f a
  | Throw message => Throw message
  end.

(** [if (c) throw new Error(message)] *)
Definition throwIf (c : bool) (message : string) : Result unit :=
  if c then Throw message else Ok tt.

(** ** Insertion-ordered maps and sets (JavaScript [Map] and [Set]) *)

Module OMap.
Section defs.
Context {V : Type}.

Fixpoint get (k : string) (m : list (string * V)) : option V :=
  match m with
  | [] => None
  | (k', v) :: m' => if decide (k = k') then Some v else get k m'
  end.

Definition has (k : string) (m : list (string * V)) : bool :=
  bool_decide (is_Some (get k m)).

(** [Map.prototype.set]: an existing key keeps its position, a new key
    is appended. *)
Fixpoint set (k : string) (v : V) (m : list (string * V))
  : list (string * V) :=
  match m with
  | [] => [(k, v)]
  | (k', v') :: m' =>
      if decide (k = k') then (k, v) :: m' else (k', v') :: set k v m'
  end.

Definition delete (k : string) (m : list (string * V))
  : list (string * V) :=
  filter (fun p => p.1 ≠ k) m.

Definition keys (m : list (string * V)) : list string := m.*1.

Definition size (m : list (string * V)) : nat := length m.
End defs.
End OMap.

Module OSet.
(** [Set.prototype.add]: a new element is appended, an existing one is
    left where it is. *)
Definition add (x : string) (s : list string) : list string :=
  if bool_decide (x ∈ s) then s else s ++ [x].
End OSet.

(** ** Data model *)

Record WorkItem := {
  itemId : string;
  programHash : string;
  inputData : string;
  gasLimit : Z;
}.

Module AuthorizationServiceDetails.
Record t := { h : string; u : string; f : string }.
End AuthorizationServiceDetails.

Record WorkPackage := {
  authorizationToken : string;
  authorizationServiceDetails : AuthorizationServiceDetails.t;
  context : string;
  workItems : list WorkItem;
}.

Record RefinementContext := {
  anchorBlockRoot : string;
  anchorBlockNumber : Z;
  beefyMmrRoot : string;
  currentSlot : Z;
  currentEpoch : Z;
  currentGuarantors : list string;
  previousGuarantors : list string;
}.

Record AvailabilitySpec := {
  totalFragments : Z;
  dataFragments : Z;
  fragmentHashes : list string;
}.

Record WorkReport := {
  workPackage : WorkPackage;
  refinementContext : RefinementContext;
  pvmOutput : string;
  gasUsed : Z;
  availabilitySpec : option AvailabilitySpec;
  guarantorSignature : string;
  guarantorPublicKey : string;
  coreIndex : Z;
  slot : Z;
  dependencies : list string;
}.

Record WorkDigest := { hash : string }.

(** ** ONCHAIN_CONSTANTS *)

Definition SUPER_MAJORITY_THRESHOLD_NUMERATOR : Z := 2.
Definition SUPER_MAJORITY_THRESHOLD_DENOMINATOR : Z := 3.
Definition REPORT_TIMEOUT_SLOTS : Z := 100.
Definition MAX_DEPENDENCIES : Z := 10.
Definition MAX_WORK_REPORT_GAS : Z := 200000.
Definition MIN_SERVICE_ITEM_GAS : Z := 10.
Definition MAX_CORE_INDEX : Z := 1023.
Definition MAX_VALIDATOR_INDEX : Z := 1023.
Definition ANCHOR_MAX_AGE_SLOTS : Z := 50.
Definition RECENT_HISTORY_LOOKUP_SLOTS : Z := 200.

(** ** OnchainState *)

Record PendingReportEntry := {
  report : WorkReport;
  receivedSignatures : gset string;
  submissionSlot : Z;
}.

Inductive Status := pending | ready | processing.

#[global] Instance Status_eq_dec : EqDecision Status.
Proof. solve_decision. Defined.

Record AccumulationEntry := {
  queuedReport : WorkReport;
  status : Status;
}.

Record BadReportEntry := {
  reason : string;
  disputedBy : gset string;
}.

Record OffenderRecord := {
  disputeCount : Z;
  lastDisputeSlot : Z;
}.

Record Account := {
  balance : Z;
  otherFields : list (string * string);
}.

Record ServiceRecord := {
  codeHash : option string;
  owner : string;
}.

Record GlobalState := {
  accounts : gmap string Account;
  coreStatus : gmap Z string;
  serviceRegistry : gmap string ServiceRecord;
  data : option (gmap string string);
  log : option string;
}.

Record OnchainState := {
  rho : gmap string PendingReportEntry;
  omega : list (string * AccumulationEntry);
  xi : gmap string WorkReport;
  psi_B : gmap string BadReportEntry;
  psi_O : gmap string OffenderRecord;
  globalState : GlobalState;
}.

(** [new OnchainState()] *)
Definition emptyGlobalState : GlobalState :=
  {| accounts := ∅; coreStatus := ∅; serviceRegistry := ∅;
     data := None; log := None |}.

Definition emptyState : OnchainState :=
  {| rho := ∅; omega := []; xi := ∅; psi_B := ∅; psi_O := ∅;
     globalState := emptyGlobalState |}.

(** Field assignments [onchainState.x = ...] / in-place map updates. *)
Definition with_rho (S : OnchainState) (v : gmap string PendingReportEntry) :=
  {| rho := v; omega := omega S; xi := xi S; psi_B := psi_B S;
     psi_O := psi_O S; globalState := globalState S |}.
Definition with_omega (S : OnchainState) (v : list (string * AccumulationEntry)) :=
  {| rho := rho S; omega := v; xi := xi S; psi_B := psi_B S;
     psi_O := psi_O S; globalState := globalState S |}.
Definition with_xi (S : OnchainState) (v : gmap string WorkReport) :=
  {| rho := rho S; omega := omega S; xi := v; psi_B := psi_B S;
     psi_O := psi_O S; globalState := globalState S |}.
Definition with_psi_B (S : OnchainState) (v : gmap string BadReportEntry) :=
  {| rho := rho S; omega := omega S; xi := xi S; psi_B := v;
     psi_O := psi_O S; globalState := globalState S |}.
Definition with_psi_O (S : OnchainState) (v : gmap string OffenderRecord) :=
  {| rho := rho S; omega := omega S; xi := xi S; psi_B := psi_B S;
     psi_O := v; globalState := globalState S |}.
Definition with_globalState (S : OnchainState) (v : GlobalState) :=
  {| rho := rho S; omega := omega S; xi := xi S; psi_B := psi_B S;
     psi_O := psi_O S; globalState := v |}.

(** [OnchainState.getReportByDigest] *)
Definition getReportByDigest (S : OnchainState) (digestHash : string)
  : option WorkReport :=
  match xi S !! digestHash with
  | Some r => Some r
  | None =>
      match rho S !! digestHash with
      | Some e => Some (report e)
      | None => queuedReport <$> OMap.get digestHash (omega S)
      end
  end.

(** The offender bookkeeping that the three processors repeat verbatim:
    [if (offenderRecord) { disputeCount++; lastDisputeSlot = currentSlot }
     else psi_O.set(key, { disputeCount: 1, lastDisputeSlot: currentSlot })]. *)
Definition chargeOffender (psi : gmap string OffenderRecord)
    (guarantor : string) (slotNow : Z) : gmap string OffenderRecord :=
  match psi !! guarantor with
  | Some offenderRecord =>
      <[guarantor := {| disputeCount := disputeCount offenderRecord + 1;
                        lastDisputeSlot := slotNow |}]> psi
  | None =>
      <[guarantor := {| disputeCount := 1; lastDisputeSlot := slotNow |}]> psi
  end.

(** ** State deltas (pvmSimulator) *)

Record StateDelta := {
  delta_accounts : option (gmap string Account);
  delta_data : option (gmap string string);
  delta_log : option string;
}.

(** ** External collaborators *)

Class Externals := {
  (** [base64ToPublicKey]: [atob] throws on a malformed string. *)
  base64ToPublicKey : string -> Result string;
  (** [verifySignature(report.toSignableObject(), signature, publicKey)];
      the first argument is the report whose signable object is checked. *)
  verifySignature : WorkReport -> string -> string -> bool;
  (** [generateWorkDigest(report)] = sha256 of the JSON text of
      [report.toSignableObject()]. *)
  generateWorkDigest : WorkReport -> WorkDigest;
  (** [const { from, to, amount } = JSON.parse(inputData)], with the types
      that the TypeScript implementation gives to the three fields; [Throw]
      carries the message of the error that [JSON.parse] raises. *)
  JSON_parse_transfer : string -> Result (string * string * Z);
  (** [const { key, value } = JSON.parse(inputData)] *)
  JSON_parse_updateData : string -> Result (string * string);
  (** [applyDelta] of accumulation/stateIntegrator. *)
  applyDelta : GlobalState -> StateDelta -> GlobalState;
}.

(** The repository holds a JavaScript and a TypeScript implementation of
    each processor; they differ in a few places, selected by [Impl]. *)
Inductive Impl := JS | TS.

(** [Math.ceil(n / d)] for a positive [d].  The operands are sums of array
    lengths, far below 2^52, where the floating-point quotient has the same
    ceiling as the exact one. *)
Definition Math_ceil_div (n d : Z) : Z := - ((- n) / d).

(** [Math.floor(n / d)] for a positive [d]. *)
Definition Math_floor_div (n d : Z) : Z := n / d.

(** JavaScript truthiness of an optional string: [undefined] and the empty
    string are falsy. *)
Definition truthy (s : option string) : bool :=
  match s with
  | Some s' => negb (bool_decide (s' = EmptyString))
  | None => false
  end.

(** ** Extrinsic payloads *)

Record DisputeExtrinsic := {
  disputedDigestHash : string;
  disputerPublicKey : string;
  disputeReason : string;
}.

Record AssuranceData := {
  reportHash : string;
  affirmingParty : string;
  targetDisputeHash : option string;
  assuranceReason : option string;
}.

Section Processors.
Context `{Externals}.

(** ** Guarantee processor (guaranteeProcessor.js / .ts) *)

(** The message of the [TypeError] raised by reading [.programHash] of
    [workItems[0]] when [workItems] is empty (JavaScript implementation,
    where the operand of the disabled bad_code_hash test is still
    evaluated). *)
Definition TypeError_programHash : string :=
  "Cannot read properties of undefined (reading 'programHash')".

(** The loop over [report.dependencies]. *)
Fixpoint checkDependencies (S : OnchainState)
    (currentBlockDigests : list WorkDigest) (deps : list string)
  : Result unit :=
  match deps with
  | [] => Ok tt
  | depHash :: rest =>
      let isDependencyMet :=
        bool_decide (is_Some (xi S !! depHash))
        || bool_decide (is_Some (rho S !! depHash))
        || existsb (fun d => bool_decide (hash d = depHash))
             currentBlockDigests in
      if isDependencyMet
      then checkDependencies S currentBlockDigests rest
      else Throw ("dependency_missing / segment_root_lookup_invalid: Dependency "
                  +:+ depHash +:+ " not found.")
  end.

Definition validateWorkReport (impl : Impl) (R : WorkReport)
    (S : OnchainState) (slotNow : Z) (currentBlockDigests : list WorkDigest)
  : Result unit :=
  (* 1. Signature *)
  publicKeyBytes ← base64ToPublicKey (guarantorPublicKey R);
  _ ← throwIf (negb (verifySignature R (guarantorSignature R) publicKeyBytes))
        "bad_signature: Work-Report signature is invalid.";
  (* 2. Context validity *)
  let ctx := refinementContext R in
  _ ← throwIf (bool_decide (slotNow - anchorBlockNumber ctx > ANCHOR_MAX_AGE_SLOTS))
        "anchor_not_recent: Context anchor block is too old.";
  (* 3. Core index (JavaScript only); the bad_service_id throw is
        commented out in both implementations *)
  _ ← match impl with
      | JS => throwIf (bool_decide (coreIndex R < 0)
                       || bool_decide (coreIndex R > MAX_CORE_INDEX))
                "bad_core_index: Core index is out of bounds."
      | TS => Ok tt
      end;
  let serviceId :=
    AuthorizationServiceDetails.u (authorizationServiceDetails (workPackage R)) in
  (* 4. Code hash: the throw is commented out in JavaScript, active in
        TypeScript *)
  let expectedCodeHash :=
    serviceRegistry (globalState S) !! serviceId ≫= codeHash in
  _ ← match impl with
      | JS =>
          if truthy expectedCodeHash
          then match workItems (workPackage R) with
               | [] => Throw TypeError_programHash
               | _ :: _ => Ok tt
               end
          else Ok tt
      | TS =>
          throwIf (truthy expectedCodeHash
                   && negb (bool_decide
                              (programHash <$> head (workItems (workPackage R))
                               = expectedCodeHash)))
            "bad_code_hash: Work result code hash doesn't match expected for service."
      end;
  (* 5. Guarantor assignment *)
  let reportEpoch := Math_floor_div (slot R) REPORT_TIMEOUT_SLOTS in
  let isGuarantorAssigned :=
    (bool_decide (reportEpoch = currentEpoch ctx)
     && bool_decide (guarantorPublicKey R ∈ currentGuarantors ctx))
    || (bool_decide (reportEpoch = currentEpoch ctx - 1)
        && bool_decide (guarantorPublicKey R ∈ previousGuarantors ctx)) in
  _ ← throwIf (negb isGuarantorAssigned)
        "wrong_assignment / not_authorized: Unexpected guarantor for work report core or not authorized.";
  (* 6. Core availability *)
  _ ← throwIf (bool_decide (coreStatus (globalState S) !! coreIndex R
                            = Some "engaged"%string))
        ("core_engaged: Core " +:+ pretty (coreIndex R) +:+ " is not available.");
  (* 7. Slot validity *)
  _ ← throwIf (bool_decide (slot R > slotNow))
        "future_report_slot: Report refers to a slot in the future.";
  _ ← throwIf (bool_decide (slotNow - slot R > REPORT_TIMEOUT_SLOTS))
        "report_before_last_rotation: Report guarantee slot is too old.";
  (* 8. Dependencies *)
  _ ← throwIf (bool_decide (Z.of_nat (length (dependencies R)) > MAX_DEPENDENCIES))
        "too_many_dependencies: Work report has too many dependencies.";
  _ ← checkDependencies S currentBlockDigests (dependencies R);
  (* 9. Gas limits *)
  _ ← throwIf (bool_decide (gasUsed R > MAX_WORK_REPORT_GAS))
        "too_high_work_report_gas: Work report per core gas is too high.";
  _ ← throwIf (existsb (fun item => bool_decide (gasLimit item < MIN_SERVICE_ITEM_GAS))
                 (workItems (workPackage R)))
        "service_item_gas_too_low: Accumulate gas is below the service minimum.";
  (* 10. Duplicate package *)
  let reportDigest := generateWorkDigest R in
  throwIf (bool_decide (is_Some (xi S !! hash reportDigest)))
    "duplicate_package_in_recent_history: Package was already finalized.".

(** [Math.ceil(totalGuarantors * NUMERATOR / DENOMINATOR)] *)
Definition requiredSignatures (R : WorkReport) : Z :=
  let totalGuarantors :=
    Z.of_nat (length (currentGuarantors (refinementContext R)))
    + Z.of_nat (length (previousGuarantors (refinementContext R))) in
  Math_ceil_div (totalGuarantors * SUPER_MAJORITY_THRESHOLD_NUMERATOR)
    SUPER_MAJORITY_THRESHOLD_DENOMINATOR.

Definition processGuaranteeExtrinsic (impl : Impl) (R : WorkReport)
    (S : OnchainState) (slotNow : Z) (currentBlockDigests : list WorkDigest)
  : bool * OnchainState :=
  match validateWorkReport impl R S slotNow currentBlockDigests with
  | Throw message =>
      let reportDigest := generateWorkDigest R in
      let S1 := with_psi_B S
        (<[hash reportDigest :=
             {| reason := message;
                disputedBy := {["system_validation"%string]} |}]> (psi_B S)) in
      (false, with_psi_O S1 (chargeOffender (psi_O S1) (guarantorPublicKey R) slotNow))
  | Ok _ =>
      let digestHash := hash (generateWorkDigest R) in
      (* the pending entry after the merge, or [None] for the early
         [return false] on a duplicate signature *)
      let merged : option PendingReportEntry :=
        match rho S !! digestHash with
        | None =>
            Some {| report := R;
                    receivedSignatures := {[guarantorPublicKey R]};
                    submissionSlot := slotNow |}
        | Some reportEntry =>
            if bool_decide (guarantorPublicKey R ∈ receivedSignatures reportEntry)
            then None
            else Some {| report := report reportEntry;
                         receivedSignatures :=
                           receivedSignatures reportEntry ∪ {[guarantorPublicKey R]};
                         submissionSlot := submissionSlot reportEntry |}
        end in
      match merged with
      | None => (false, S)
      | Some reportEntry =>
          let S1 := with_rho S (<[digestHash := reportEntry]> (rho S)) in
          if bool_decide (Z.of_nat (size (receivedSignatures reportEntry))
                          >= requiredSignatures R)
          then
            let S2 := with_rho S1 (delete digestHash (rho S1)) in
            (true, with_omega S2
                     (OMap.set digestHash
                        {| queuedReport := R; status := ready |} (omega S2)))
          else if bool_decide (slotNow - submissionSlot reportEntry
                               > REPORT_TIMEOUT_SLOTS)
          then
            let S2 := with_rho S1 (delete digestHash (rho S1)) in
            (false, with_psi_B S2
                      (<[digestHash :=
                           {| reason := "timed_out";
                              disputedBy := {["system_timeout"%string]} |}]>
                         (psi_B S2)))
          else (true, S1)
      end
  end.

(** ** Dispute processor *)

(** The [throw] is only reached when nothing was removed from rho or
    omega, so the state at the throw is the input state. *)
Definition processDisputeExtrinsic (dispute : DisputeExtrinsic)
    (S : OnchainState) (slotNow : Z) : Result OnchainState :=
  let d := disputedDigestHash dispute in
  match getReportByDigest S d with
  | None => Ok S
  | Some _ =>
      (* Remove from pending reports (rho) *)
      let '(disputedReport, S1) :=
        match rho S !! d with
        | Some e => (Some (report e), with_rho S (delete d (rho S)))
        | None => (None, S)
        end in
      (* Remove from accumulation queue (omega) *)
      let '(disputedReport, S2) :=
        match OMap.get d (omega S1) with
        | Some e => (Some (queuedReport e),
                     with_omega S1 (OMap.delete d (omega S1)))
        | None => (disputedReport, S1)
        end in
      (* Late dispute from history (xi) *)
      let disputedReport :=
        match xi S2 !! d, disputedReport with
        | Some r, None => Some r
        | _, _ => disputedReport
        end in
      match disputedReport with
      | None =>
          Throw ("Attempted to dispute a report (" +:+ d
                 +:+ ") that was not found in active state or history.")
      | Some r =>
          (* Record in psi_B *)
          let S3 :=
            match psi_B S2 !! d with
            | Some existingBadReport =>
                with_psi_B S2
                  (<[d := {| reason := reason existingBadReport;
                             disputedBy := disputedBy existingBadReport
                                           ∪ {[disputerPublicKey dispute]} |}]>
                     (psi_B S2))
            | None =>
                with_psi_B S2
                  (<[d := {| reason := disputeReason dispute;
                             disputedBy := {[disputerPublicKey dispute]} |}]>
                     (psi_B S2))
            end in
          (* Update psi_O *)
          Ok (with_psi_O S3
                (chargeOffender (psi_O S3) (guarantorPublicKey r) slotNow))
      end
  end.

(** ** Assurance processor: logs only *)

Definition processAssuranceExtrinsic (assuranceData : AssuranceData)
    (S : OnchainState) (slotNow : Z) : OnchainState := S.

(** ** Psi_A simulator (pvmSimulator) *)

Definition emptyDelta : StateDelta :=
  {| delta_accounts := None; delta_data := None; delta_log := None |}.

Definition simulatePsiAPVM (workItem : WorkItem) (gs : GlobalState)
  : Result StateDelta :=
  let body : Result StateDelta :=
    '(stateDelta, gasConsumed) ←
      (if bool_decide (programHash workItem = "0xtransfer"%string) then
         '(from, to, amount) ← JSON_parse_transfer (inputData workItem);
         match accounts gs !! from with
         | Some fromAccount =>
             if bool_decide (balance fromAccount >= amount) then
               let toAccount := accounts gs !! to in
               Ok ({| delta_accounts := Some
                        (<[to := {| balance := default 0 (balance <$> toAccount) + amount;
                                    otherFields := default [] (otherFields <$> toAccount) |}]>
                           (<[from := {| balance := balance fromAccount - amount;
                                         otherFields := otherFields fromAccount |}]>
                              (accounts gs)));
                      delta_data := None; delta_log := None |}, 50)
             else Throw "Insufficient balance or invalid accounts for transfer."
         | None => Throw "Insufficient balance or invalid accounts for transfer."
         end
       else if bool_decide (programHash workItem = "0xupdateData"%string) then
         '(key, value) ← JSON_parse_updateData (inputData workItem);
         Ok ({| delta_accounts := None;
                delta_data := Some (<[key := value]> (default ∅ (data gs)));
                delta_log := None |}, 20)
       else
         Ok ({| delta_accounts := None; delta_data := None;
                delta_log := Some (default EmptyString (log gs) +:+ "Executed "
                                   +:+ programHash workItem +:+ " with input "
                                   +:+ inputData workItem +:+ ".") |}, 10));
    _ ← throwIf (bool_decide (gasConsumed > gasLimit workItem))
          ("Gas limit exceeded for Work-Item " +:+ itemId workItem
           +:+ ". Consumed: " +:+ pretty gasConsumed
           +:+ ", Limit: " +:+ pretty (gasLimit workItem));
    Ok stateDelta in
  match body with
  | Ok stateDelta => Ok stateDelta
  | Throw message =>
      Throw ("Ψ_A PVM execution failed for Work-Item " +:+ itemId workItem
             +:+ ": " +:+ message)
  end.

(** ** Accumulation queue (queueHandler) *)

(** Body of the first loop of [topologicalSort]:
    [graph.set(d, new Set())], [inDegree.set(d, 0)]. *)
Definition initGraphStep
    (acc : list (string * list string) * list (string * Z))
    (kv : string * AccumulationEntry)
  : list (string * list string) * list (string * Z) :=
  (OMap.set kv.1 [] acc.1, OMap.set kv.1 0 acc.2).

Definition initGraph (accumulationQueue : list (string * AccumulationEntry))
  : list (string * list string) * list (string * Z) :=
  fold_left initGraphStep accumulationQueue ([], []).

(** Body of the loop over [entry.report.dependencies].  [graph.get(depHash)]
    is defined whenever [accumulationQueue.has(depHash)]; the [None] branch
    is the [?.] of the TypeScript implementation. *)
Definition addEdge (accumulationQueue : list (string * AccumulationEntry))
    (digestHash : string)
    (acc : list (string * list string) * list (string * Z))
    (depHash : string)
  : list (string * list string) * list (string * Z) :=
  if OMap.has depHash accumulationQueue then
    (match OMap.get depHash acc.1 with
     | Some dependents =>
         OMap.set depHash (OSet.add digestHash dependents) acc.1
     | None => acc.1
     end,
     OMap.set digestHash (default 0 (OMap.get digestHash acc.2) + 1) acc.2)
  else acc.

Definition addEdges (accumulationQueue : list (string * AccumulationEntry))
    (digestHash : string) (deps : list string)
    (acc : list (string * list string) * list (string * Z))
  : list (string * list string) * list (string * Z) :=
  fold_left (addEdge accumulationQueue digestHash) deps acc.

(** Second loop of [topologicalSort]. *)
Definition buildGraphStep
    (accumulationQueue : list (string * AccumulationEntry))
    (acc : list (string * list string) * list (string * Z))
    (kv : string * AccumulationEntry)
  : list (string * list string) * list (string * Z) :=
  addEdges accumulationQueue kv.1 (dependencies (queuedReport kv.2)) acc.

Definition buildGraph (accumulationQueue : list (string * AccumulationEntry))
  : list (string * list string) * list (string * Z) :=
  fold_left (buildGraphStep accumulationQueue) accumulationQueue
    (initGraph accumulationQueue).

(** Third loop: the digests of in-degree 0, in the iteration order of
    [inDegree]. *)
Definition initialQueue (inDegree : list (string * Z)) : list string :=
  (filter (fun p => p.2 = 0) inDegree).*1.

(** The [for (const neighborDigest of graph.get(currentDigest))] loop.
    Every neighbour is a key of [inDegree]; the default 0 is the [?? 0] of
    the TypeScript implementation. *)
Definition relaxNeighbors (neighbors : list string)
    (acc : list (string * Z) * list string)
  : list (string * Z) * list string :=
  fold_left
    (fun '(inDegree, queue) neighborDigest =>
       let updatedDegree := default 0 (OMap.get neighborDigest inDegree) - 1 in
       let inDegree' := OMap.set neighborDigest updatedDegree inDegree in
       if bool_decide (updatedDegree = 0)
       then (inDegree', queue ++ [neighborDigest])
       else (inDegree', queue))
    neighbors acc.

(** [while (head < queue.length) { ... }], with a bound on the number of
    iterations; [None] means that the bound was hit. *)
Fixpoint kahnLoop (fuel : nat) (graph : list (string * list string))
    (inDegree : list (string * Z)) (queue : list string) (head : nat)
    (sortedOrder : list string) : option (list string) :=
  match queue !! head with
  | None => Some sortedOrder
  | Some currentDigest =>
      match fuel with
      | O => None
      | S fuel' =>
          let '(inDegree', queue') :=
            relaxNeighbors (default [] (OMap.get currentDigest graph))
              (inDegree, queue) in
          kahnLoop fuel' graph inDegree' queue' (S head)
            (sortedOrder ++ [currentDigest])
      end
  end.

(** Sum of the positive in-degrees: each iteration of the [while] loop
    consumes one queued digest, and a digest is queued only when a positive
    in-degree drops to 0. *)
Definition degreeWeight (inDegree : list (string * Z)) : nat :=
  sum_list_with (fun p => Z.to_nat p.2) inDegree.

Definition kahnFuel (inDegree : list (string * Z)) (queue : list string) : nat :=
  (length queue + degreeWeight inDegree)%nat.

Definition topologicalSort_opt
    (accumulationQueue : list (string * AccumulationEntry))
  : option (list string) :=
  let '(graph, inDegree) := buildGraph accumulationQueue in
  let queue := initialQueue inDegree in
  kahnLoop (kahnFuel inDegree queue) graph inDegree queue 0%nat [].

Definition topologicalSort
    (accumulationQueue : list (string * AccumulationEntry)) : list string :=
  default [] (topologicalSort_opt accumulationQueue).

(** [onchainState.globalState = applyDelta(...)]; the TypeScript
    implementation rebuilds the object from [accounts], [coreStatus] and
    [serviceRegistry] only. *)
Definition commitDelta (impl : Impl) (updatedState : GlobalState) : GlobalState :=
  match impl with
  | JS => updatedState
  | TS => {| accounts := accounts updatedState;
             coreStatus := coreStatus updatedState;
             serviceRegistry := serviceRegistry updatedState;
             data := None; log := None |}
  end.

(** The [for (const workItem of report.workPackage.workItems)] loop inside
    the [try]: the global state reached, and the message of the error that
    interrupted the loop, if any. *)
Fixpoint runWorkItems (impl : Impl) (items : list WorkItem) (gs : GlobalState)
  : GlobalState * option string :=
  match items with
  | [] => (gs, None)
  | workItem :: rest =>
      match simulatePsiAPVM workItem gs with
      | Throw message => (gs, Some message)
      | Ok stateDelta =>
          runWorkItems impl rest (commitDelta impl (applyDelta gs stateDelta))
      end
  end.

(** Body of the [for (const digestHash of reportsToAccumulateDigests)]
    loop. *)
Definition accumulateReport (impl : Impl) (slotNow : Z) (S : OnchainState)
    (digestHash : string) : OnchainState :=
  match OMap.get digestHash (omega S) with
  | None => S
  | Some entry =>
      if decide (status entry = ready) then
        let R := queuedReport entry in
        let S1 := with_omega S
          (OMap.set digestHash {| queuedReport := R; status := processing |}
             (omega S)) in
        match runWorkItems impl (workItems (workPackage R)) (globalState S1) with
        | (gs, None) =>
            let S2 := with_globalState S1 gs in
            let S3 := with_omega S2 (OMap.delete digestHash (omega S2)) in
            with_xi S3 (<[digestHash := R]> (xi S3))
        | (gs, Some message) =>
            let S2 := with_globalState S1 gs in
            let S3 := with_omega S2 (OMap.delete digestHash (omega S2)) in
            let S4 := with_psi_B S3
              (<[digestHash :=
                   {| reason := "accumulation_failed: " +:+ message;
                      disputedBy := {["system_accumulation"%string]} |}]>
                 (psi_B S3)) in
            with_psi_O S4
              (chargeOffender (psi_O S4) (guarantorPublicKey R) slotNow)
        end
      else S
  end.

Definition processAccumulationQueue (impl : Impl) (S : OnchainState)
    (slotNow : Z) : OnchainState :=
  fold_left (accumulateReport impl slotNow) (topologicalSort (omega S)) S.

End Processors.

(** * Vocabulary of the statements *)

Section Vocabulary.
Context `{Externals}.

(** The pending entry after the merge step of a guarantee that adds a new
    signature. *)
Definition mergedEntry (R : WorkReport) (S : OnchainState) (s : Z)
    (d : string) : PendingReportEntry :=
  match rho S !! d with
  | None => {| report := R;
               receivedSignatures := {[guarantorPublicKey R]};
               submissionSlot := s |}
  | Some e => {| report := report e;
                 receivedSignatures :=
                   receivedSignatures e ∪ {[guarantorPublicKey R]};
                 submissionSlot := submissionSlot e |}
  end.

(** The guarantee adds a new signature: the digest is not pending, or it is
    pending without the signature of this guarantor. *)
Definition addsNewSignature (R : WorkReport) (S : OnchainState) (d : string)
  : Prop :=
  match rho S !! d with
  | None => True
  | Some e => guarantorPublicKey R ∉ receivedSignatures e
  end.

(** The message with which a report that fails the core-index check is
    rejected: that of the first failing check among the three that run
    before the guarantor-assignment check. *)
Definition earlyRejection (R : WorkReport) (s : Z) : string :=
  match base64ToPublicKey (guarantorPublicKey R) with
  | Throw message => message
  | Ok pk =>
      if negb (verifySignature R (guarantorSignature R) pk)
      then "bad_signature: Work-Report signature is invalid."
      else if bool_decide (s - anchorBlockNumber (refinementContext R)
                           > ANCHOR_MAX_AGE_SLOTS)
      then "anchor_not_recent: Context anchor block is too old."
      else "bad_core_index: Core index is out of bounds."
  end%string.

End Vocabulary.

(** The state in which service [serviceId] is registered with record [rec]. *)
Definition registerService (S : OnchainState) (serviceId : string)
    (rec : ServiceRecord) : OnchainState :=
  with_globalState S
    {| accounts := accounts (globalState S);
       coreStatus := coreStatus (globalState S);
       serviceRegistry := <[serviceId := rec]> (serviceRegistry (globalState S));
       data := data (globalState S);
       log := log (globalState S) |}.

(** The failure tags of the guarantee processor. *)
Definition validationTags : list string :=
  [ "bad_signature"; "anchor_not_recent"; "bad_core_index"; "bad_code_hash";
    "wrong_assignment"; "core_engaged"; "future_report_slot";
    "report_before_last_rotation"; "too_many_dependencies";
    "dependency_missing"; "too_high_work_report_gas";
    "service_item_gas_too_low"; "duplicate_package_in_recent_history" ]%string.

Definition carriesTag (message : string) : bool :=
  existsb (fun tag => String.prefix tag message) validationTags.

(** The dependencies of a queued report that are themselves queued. *)
Definition queuedDependencies (q : list (string * AccumulationEntry))
    (e : AccumulationEntry) : list string :=
  filter (fun dep => is_Some (OMap.get dep q)) (dependencies (queuedReport e)).

(** No dependency of the report is in the queue. *)
Definition noQueuedDependency (q : list (string * AccumulationEntry))
    (e : AccumulationEntry) : Prop :=
  Forall (fun dep => ~ is_Some (OMap.get dep q)) (dependencies (queuedReport e)).

#[global] Instance noQueuedDependency_dec q e : Decision (noQueuedDependency q e).
Proof. unfold noQueuedDependency. apply _. Defined.

(** The in-degree bookkeeping of [addEdge], on its own. *)
Definition inDegreeStep (q : list (string * AccumulationEntry))
    (digestHash : string) (inDegree : list (string * Z)) (depHash : string)
  : list (string * Z) :=
  if OMap.has depHash q
  then OMap.set digestHash (default 0 (OMap.get digestHash inDegree) + 1) inDegree
  else inDegree.

(** The in-degree map that [buildGraph] computes on a queue without
    repeated keys: every digest, in insertion order, with the number of its
    queued dependencies. *)
Definition inDegreeOf (q : list (string * AccumulationEntry))
    (l : list (string * AccumulationEntry)) : list (string * Z) :=
  (fun kv => (kv.1, Z.of_nat (length (queuedDependencies q kv.2)))) <$> l.

(** The digests without a queued dependency, in insertion order. *)
Definition roots (q : list (string * AccumulationEntry)) : list string :=
  (filter (fun kv => noQueuedDependency q kv.2) q).*1.

(** The message of a thrown error. *)
Definition thrownMessage {A : Type} (r : Result A) : string :=
  match r with
  | Throw message => message
  | Ok _ => EmptyString
  end.

(** ** A concrete instance of the external collaborators

    Used to run the processors on concrete inputs. *)

(** Modelled from the spec: [applyDelta] of accumulation/stateIntegrator is
    not among the sources.  Section 4.5.3: [accounts] is merged by key
    (replacing account records), [data] is shallow-merged, [log] is appended,
    and the fields that the delta does not mention are unchanged. *)
Definition applyDelta_spec (gs : GlobalState) (delta : StateDelta) : GlobalState :=
  {| accounts := match delta_accounts delta with
                 | Some a => a ∪ accounts gs
                 | None => accounts gs
                 end;
     coreStatus := coreStatus gs;
     serviceRegistry := serviceRegistry gs;
     data := match delta_data delta with
             | Some d => Some (d ∪ default ∅ (data gs))
             | None => data gs
             end;
     log := match delta_log delta with
            | Some l => Some (default EmptyString (log gs) +:+ l)
            | None => log gs
            end |}.

(** The double-quote character. *)
Definition dquote : string := String (Ascii.ascii_of_nat 34) EmptyString.

(** [JSON.stringify({ from, to, amount })] *)
Definition transferJSON (from to : string) (amount : Z) : string :=
  "{" +:+ dquote +:+ "from" +:+ dquote +:+ ":" +:+ dquote +:+ from +:+ dquote
  +:+ "," +:+ dquote +:+ "to" +:+ dquote +:+ ":" +:+ dquote +:+ to +:+ dquote
  +:+ "," +:+ dquote +:+ "amount" +:+ dquote +:+ ":" +:+ pretty amount +:+ "}".

(** The two transfer inputs of the scenarios below, with the values that
    [JSON.parse] yields on them. *)
Definition demoTransfers : list (string * (string * string * Z)) :=
  [ (transferJSON "0xAlice" "0xBob" 100, ("0xAlice"%string, "0xBob"%string, 100));
    (transferJSON "0xAlice" "0xBob" 5000, ("0xAlice"%string, "0xBob"%string, 5000)) ].

(** - a key decodes to itself;
    - the signature of guarantor [k] is the text [sig:k];
    - the digest reads the refinement output of the report, and neither its
      signature nor its signer: the reports that two guarantors submit for
      the same work share their digest, as in the two-guarantor scenario of
      the repository;
    - [JSON.parse] is tabulated on the inputs used here. *)
Definition demoExternals : Externals :=
  {| base64ToPublicKey := fun k => Ok k;
     verifySignature := fun R signature publicKey =>
       bool_decide (signature = "sig:" +:+ publicKey);
     generateWorkDigest := fun R => {| hash := pvmOutput R |};
     JSON_parse_transfer := fun s =>
       match OMap.get s demoTransfers with
       | Some v => Ok v
       | None => Throw "Unexpected token in JSON"
       end;
     JSON_parse_updateData := fun s => Throw "Unexpected token in JSON";
     applyDelta := applyDelta_spec |}.

Definition demoContext (guarantors : list string) : RefinementContext :=
  {| anchorBlockRoot := "0xanchorblockroot_valid_99";
     anchorBlockNumber := 99;
     beefyMmrRoot := "0xbeefymmrroot_valid_99";
     currentSlot := 100;
     currentEpoch := 1;
     currentGuarantors := guarantors;
     previousGuarantors := [] |}.

Definition demoItem (itemName input : string) (program : string) : WorkItem :=
  {| itemId := itemName; programHash := program; inputData := input;
     gasLimit := 50000 |}.

Definition demoPackage (items : list WorkItem) : WorkPackage :=
  {| authorizationToken := "auth-token-wp1";
     authorizationServiceDetails :=
       {| AuthorizationServiceDetails.h := "auth.service.com";
          AuthorizationServiceDetails.u := "service.jam";
          AuthorizationServiceDetails.f := "checkAuth" |};
     context := "context_wp1";
     workItems := items |}.

(** The report that guarantor [key] submits, signed with [signature], under
    a roster of [guarantors]. *)
Definition demoReportWith (guarantors : list string) (items : list WorkItem)
    (output key signature : string) (core : Z) (deps : list string)
  : WorkReport :=
  {| workPackage := demoPackage items;
     refinementContext := demoContext guarantors;
     pvmOutput := output;
     gasUsed := 500;
     availabilitySpec := None;
     guarantorSignature := signature;
     guarantorPublicKey := key;
     coreIndex := core;
     slot := 100;
     dependencies := deps |}.

(** A roster of three guarantors: the threshold is 2. *)
Definition demoReport (key : string) : WorkReport :=
  demoReportWith ["g1"; "g2"; "g3"]%string
    [demoItem "wi-001" "{}" "0xprogramhash123"] "PVM_OUTPUT_1"
    key ("sig:" +:+ key) 0 [].

(** A roster of six guarantors: the threshold is 4. *)
Definition wideReport (key : string) : WorkReport :=
  demoReportWith ["g1"; "g2"; "g3"; "g4"; "g5"; "g6"]%string
    [demoItem "wi-001" "{}" "0xprogramhash123"] "PVM_OUTPUT_1"
    key ("sig:" +:+ key) 0 [].

(** A state whose only content is one pending entry. *)
Definition pendingState (d : string) (e : PendingReportEntry) : OnchainState :=
  with_rho emptyState {[ d := e ]}.

(** Three guarantees for the same work, by g1, g2 and g3, from the empty
    state, at slot 100. *)
Definition afterThreeGuarantees (impl : Impl) : OnchainState :=
  let S1 := (processGuaranteeExtrinsic (H := demoExternals) impl
               (demoReport "g1") emptyState 100 []).2 in
  let S2 := (processGuaranteeExtrinsic (H := demoExternals) impl
               (demoReport "g2") S1 100 []).2 in
  (processGuaranteeExtrinsic (H := demoExternals) impl
     (demoReport "g3") S2 100 []).2.

(** Reports with an out-of-range core index. *)

(** A report with an out-of-range core index and a forged signature. *)
Definition forgedReport : WorkReport :=
  demoReportWith ["g1"; "g2"; "g3"]%string
    [demoItem "wi-001" "{}" "0xprogramhash123"] "PVM_OUTPUT_1"
    "g1" "forged" (-1) [].

(** A properly signed report with an out-of-range core index. *)
Definition badCoreReport : WorkReport :=
  demoReportWith ["g1"; "g2"; "g3"]%string
    [demoItem "wi-001" "{}" "0xprogramhash123"] "PVM_OUTPUT_1"
    "g1" "sig:g1" 1024 [].

(** A guarantor key that is not base64. *)

(** The characters that a base64 text may hold: the alphabet, the padding
    sign and ASCII whitespace.  [atob] throws on any other character. *)
Definition base64Char (c : Ascii.ascii) : bool :=
  let n := Ascii.nat_of_ascii c in
  (Nat.leb 65 n && Nat.leb n 90) || (Nat.leb 97 n && Nat.leb n 122)
  || (Nat.leb 48 n && Nat.leb n 57)
  || bool_decide (n ∈ [43; 47; 61; 9; 10; 12; 13; 32]%nat).

(** As [demoExternals], with a key decoder that throws, with the message of
    the [atob] of Node.js, on a key that holds a character outside base64. *)
Definition atobExternals : Externals :=
  {| base64ToPublicKey := fun k =>
       if forallb base64Char (String.list_ascii_of_string k) then Ok k
       else Throw "Invalid character";
     verifySignature := verifySignature (Externals := demoExternals);
     generateWorkDigest := generateWorkDigest (Externals := demoExternals);
     JSON_parse_transfer := JSON_parse_transfer (Externals := demoExternals);
     JSON_parse_updateData := JSON_parse_updateData (Externals := demoExternals);
     applyDelta := applyDelta_spec |}.

(** The demo report, submitted under the key [g1!]. *)
Definition malformedKeyReport : WorkReport :=
  demoReportWith ["g1"; "g2"; "g3"]%string
    [demoItem "wi-001" "{}" "0xprogramhash123"] "PVM_OUTPUT_1"
    "g1!" "sig:g1!" 0 [].

(** ** Concrete scenarios for the accumulation processor *)

(** A report for a roster of one guarantor (threshold 1): its first
    guarantee promotes it to omega. *)
Definition soloReport (output : string) (items : list WorkItem) : WorkReport :=
  demoReportWith ["g1"]%string items output "g1" "sig:g1" 0 [].

Definition plainItems : list WorkItem :=
  [demoItem "wi-001" "{}" "0xprogramhash123"].

(** omega after the guarantees for the reports with digests [first] and
    [second], in that order, from the empty state. *)
Definition omegaAfter (impl : Impl) (first second : string)
  : list (string * AccumulationEntry) :=
  let S1 := (processGuaranteeExtrinsic (H := demoExternals) impl
               (soloReport first plainItems) emptyState 100 []).2 in
  omega (processGuaranteeExtrinsic (H := demoExternals) impl
           (soloReport second plainItems) S1 100 []).2.

(** Two transfers from Alice to Bob: the first is covered by the balance of
    Alice, the second is not. *)
Definition transferItems : list WorkItem :=
  [ demoItem "wi-1" (transferJSON "0xAlice" "0xBob" 100) "0xtransfer";
    demoItem "wi-2" (transferJSON "0xAlice" "0xBob" 5000) "0xtransfer" ].

(** Alice holds 1000 and Bob 500. *)
Definition bankState : OnchainState :=
  with_globalState emptyState
    {| accounts :=
         <["0xAlice"%string := {| balance := 1000; otherFields := [] |}]>
           (<["0xBob"%string := {| balance := 500; otherFields := [] |}]> ∅);
       coreStatus := ∅; serviceRegistry := ∅; data := None; log := None |}.

(** The state after the guarantee that promotes the transfer report. *)
Definition bankQueued (impl : Impl) : OnchainState :=
  (processGuaranteeExtrinsic (H := demoExternals) impl
     (soloReport "PVM_OUTPUT_T" transferItems) bankState 100 []).2.

(** A state whose history holds the demo report of g1. *)
Definition finalizedState : OnchainState :=
  with_xi emptyState {[ "PVM_OUTPUT_1"%string := demoReport "g1" ]}.

(** * Further definitions *)

(** ** Vocabulary of the further properties *)

(** The offender ledger only grows: every record of [p] is still in [p'],
    with a dispute count that is not smaller. *)
Definition offendersGrow (p p' : gmap string OffenderRecord) : Prop :=
  forall g o, p !! g = Some o ->
    exists o', p' !! g = Some o' /\ disputeCount o <= disputeCount o'.

(** No digest is both queued and finalized. *)
Definition queueHistoryDisjoint (S : OnchainState) : Prop :=
  forall d, is_Some (OMap.get d (omega S)) -> xi S !! d = None.

(** Every queued entry has status [ready]. *)
Definition queueAllReady (S : OnchainState) : Prop :=
  Forall (fun kv => status kv.2 = ready) (omega S).

(** A state without reports: what [new OnchainState()] gives, whatever the
    global state is set to afterwards. *)
Definition noReports (S : OnchainState) : Prop :=
  rho S = ∅ /\ omega S = [] /\ xi S = ∅.

(** The report that a dispute holds against digest [d]: the queued one, else
    the pending one, else the finalized one. *)
Definition disputedReportOf (S : OnchainState) (d : string) : option WorkReport :=
  match OMap.get d (omega S) with
  | Some e => Some (queuedReport e)
  | None =>
      match rho S !! d with
      | Some e => Some (report e)
      | None => xi S !! d
      end
  end.

Section MoreVocabulary.
Context `{Externals}.

(** The states that the four processors reach from a state without
    reports. *)
Inductive reachable (impl : Impl) : OnchainState -> Prop :=
| reachable_start S : noReports S -> reachable impl S
| reachable_guarantee S R s cbd :
    reachable impl S ->
    reachable impl (processGuaranteeExtrinsic impl R S s cbd).2
| reachable_dispute S dispute s S' :
    reachable impl S ->
    processDisputeExtrinsic dispute S s = Ok S' ->
    reachable impl S'
| reachable_assurance S assuranceData s :
    reachable impl S ->
    reachable impl (processAssuranceExtrinsic assuranceData S s)
| reachable_accumulation S s :
    reachable impl S ->
    reachable impl (processAccumulationQueue impl S s).

End MoreVocabulary.

(** ** Off-chain dependency lookup (offchain/guarantor) *)

(** [historicalLookup]: every dependency is finalized or pending. *)
Fixpoint historicalLookup (dependencyHashes : list string) (S : OnchainState)
  : bool :=
  match dependencyHashes with
  | [] => true
  | depHash :: rest =>
      if negb (bool_decide (is_Some (xi S !! depHash)))
         && negb (bool_decide (is_Some (rho S !! depHash)))
      then false
      else historicalLookup rest S
  end.

#[global] Instance addsNewSignature_dec R S d : Decision (addsNewSignature R S d).
Proof. unfold addsNewSignature. destruct (rho S !! d); apply _. Defined.

(** The queue is a well-formed [Map] of ready entries, none of them
    finalized. *)
Definition queueInvariant (S : OnchainState) : Prop :=
  NoDup (OMap.keys (omega S)) /\ queueAllReady S /\ queueHistoryDisjoint S.

(** A digest is accounted for when it is queued, finalized or recorded as
    bad. *)
Definition accountedFor (S : OnchainState) (d : string) : Prop :=
  is_Some (OMap.get d (omega S)) \/ is_Some (xi S !! d)
  \/ is_Some (psi_B S !! d).


(** ** Invariants of [topologicalSort] *)

(** What the first two loops of [topologicalSort] keep of [graph], where
    [E d p] says that the edge from dependency [p] to dependent [d] has been
    considered: every queued digest has its set of dependents, a set holds no
    digest twice, and it holds the dependents considered so far. *)
Definition graphInvariant (q : list (string * AccumulationEntry))
    (E : string -> string -> Prop) (graph : list (string * list string))
  : Prop :=
  (forall p, is_Some (OMap.get p q) -> is_Some (OMap.get p graph))
  /\ (forall p L, OMap.get p graph = Some L -> NoDup L)
  /\ (forall p d, d ∈ default [] (OMap.get p graph)
                  <-> is_Some (OMap.get p q) /\ E d p).

(** The dependency edges of the entries [l]. *)
Definition dependsOn (l : list (string * AccumulationEntry)) (d p : string)
  : Prop :=
  exists e, (d, e) ∈ l /\ p ∈ dependencies (queuedReport e).

(** What the [while] loop of [topologicalSort] keeps: the queue holds queued
    digests, none twice; the counter of a digest is the number of its queued
    dependencies, repetitions included, minus the number of those already
    taken from the queue; a digest is in the queue exactly when its counter
    is 0; and a digest stands in the queue behind its queued dependencies. *)
Definition kahnInvariant (q : list (string * AccumulationEntry))
    (inDegree : list (string * Z)) (queue : list string) (head : nat)
  : Prop :=
  NoDup queue
  /\ (head <= length queue)%nat
  /\ (forall d, d ∈ queue -> is_Some (OMap.get d q))
  /\ (forall d e, OMap.get d q = Some e ->
        default 0 (OMap.get d inDegree)
        = Z.of_nat (length (queuedDependencies q e))
          - Z.of_nat (length (filter (fun p => p ∈ take head queue)
                                (remove_dups (queuedDependencies q e)))))
  /\ (forall d, is_Some (OMap.get d q) ->
        default 0 (OMap.get d inDegree) = 0 <-> d ∈ queue)
  /\ (forall j d e p, queue !! j = Some d -> OMap.get d q = Some e ->
        p ∈ queuedDependencies q e ->
        exists i, (i < j)%nat /\ queue !! i = Some p).

(** Digest [p] stands before digest [d] in [order]. *)
Definition before (order : list string) (p d : string) : Prop :=
  exists i j, (i < j)%nat /\ order !! i = Some p /\ order !! j = Some d.

(** A digest is settled when it is finalized or recorded as bad. *)
Definition settled (S : OnchainState) (d : string) : Prop :=
  is_Some (xi S !! d) \/ is_Some (psi_B S !! d).

(** ** Concrete queues *)

(** A ready entry for the report with digest [output] and the given
    dependencies. *)
Definition queuedEntry (output : string) (deps : list string)
  : string * AccumulationEntry :=
  (output,
   {| queuedReport :=
        demoReportWith ["g1"]%string plainItems output "g1" "sig:g1" 0 deps;
      status := ready |}).

(** B, inserted first, depends on A. *)
Definition chainQueue : list (string * AccumulationEntry) :=
  [queuedEntry "B" ["A"]%string; queuedEntry "A" []].

(** A and B depend on each other; C stands alone. *)
Definition cycleQueue : list (string * AccumulationEntry) :=
  [queuedEntry "A" ["B"]%string; queuedEntry "B" ["A"]%string].

(** B lists its dependency A twice. *)
Definition repeatQueue : list (string * AccumulationEntry) :=
  [queuedEntry "A" []; queuedEntry "B" ["A"; "A"]%string].

(** The position of a digest in [chainQueue] after sorting. *)
Definition chainRank (d : string) : nat :=
  if decide (d = "A"%string) then 0%nat else 1%nat.

(** The queue is acyclic and free of repeated dependencies: no report lists
    a queued dependency twice, and every report has a higher [rank] than its
    queued dependencies. *)
Definition acyclicQueue (q : list (string * AccumulationEntry))
    (rank : string -> nat) : Prop :=
  Forall (fun kv =>
            NoDup (queuedDependencies q kv.2)
            /\ Forall (fun p => (rank p < rank kv.1)%nat)
                 (queuedDependencies q kv.2)) q.

#[global] Instance acyclicQueue_dec q rank : Decision (acyclicQueue q rank).
Proof. unfold acyclicQueue. apply _. Defined.

(** The queues above as the omega of a state. *)
Definition queueState (q : list (string * AccumulationEntry)) : OnchainState :=
  with_omega emptyState q.

(** A work item whose gas limit is below the cost of every program. *)
Definition cheapItem : WorkItem :=
  {| itemId := "wi-low"; programHash := "0xprogramhash123";
     inputData := "{}"; gasLimit := 9 |}.

Section DigestVocabulary.
Context `{Externals}.

(** Every report is stored under its own digest, and a pending entry holds
    the signature of the guarantor of the report that it keeps. *)
Definition keysAreDigests (S : OnchainState) : Prop :=
  (forall d e, rho S !! d = Some e ->
     hash (generateWorkDigest (report e)) = d
     /\ guarantorPublicKey (report e) ∈ receivedSignatures e)
  /\ (forall d e, OMap.get d (omega S) = Some e ->
        hash (generateWorkDigest (queuedReport e)) = d)
  /\ (forall d r, xi S !! d = Some r -> hash (generateWorkDigest r) = d).

End DigestVocabulary.

(** ** Availability encoding (offchain/encoder, models/AvailabilitySpec) *)

(** [new AvailabilitySpec(totalFragments, dataFragments, fragmentHashes)],
    for whole numbers of fragments. *)
Definition newAvailabilitySpec (total data : Z) (hashes : list string)
  : Result AvailabilitySpec :=
  _ ← throwIf (bool_decide (total <= 0)) "Total fragments must be positive.";
  _ ← throwIf (bool_decide (data <= 0) || bool_decide (data > total))
        "Data fragments must be positive and less than or equal to total fragments.";
  _ ← throwIf (negb (bool_decide (Z.of_nat (length hashes) = total)))
        "Fragment Hashes must be an array of strings matching totalFragments length.";
  Ok {| totalFragments := total; dataFragments := data;
        fragmentHashes := hashes |}.

Section Encoder.
(** [sha256] of js-sha256, and [JSON.stringify(report.toSignableObject())]. *)
Context (sha256 : string -> string) (signableJSON : WorkReport -> string).

(** [reportString.substring(i * 10, (i + 1) * 10) + `_fragment_${i}`],
    hashed. *)
Definition fragmentHash (reportString : string) (i : nat) : string :=
  sha256 (String.substring (i * 10) 10 reportString
          +:+ "_fragment_" +:+ pretty (Z.of_nat i)).

(** [encodeForAvailability], for whole numbers of fragments: the loop
    [for (let i = 0; i < totalFragments; i++)] runs [totalFragments] times,
    and not at all when [totalFragments] is not positive. *)
Definition encodeForAvailability (R : WorkReport)
    (dataFragments parityFragments : Z) : Result AvailabilitySpec :=
  let total := dataFragments + parityFragments in
  let reportString := signableJSON R in
  let hashes := fragmentHash reportString <$> seq 0 (Z.to_nat total) in
  newAvailabilitySpec total dataFragments hashes.

End Encoder.


(** * Properties *)

(** ** Insertion-ordered maps *)

Module OMapFacts.
Section facts.
Context {V : Type}.
Implicit Types (m : list (string * V)) (k : string) (v : V).

Lemma get_set_eq k v m : OMap.get k (OMap.set k v m) = Some v.
Proof.
  induction m as [|[k' v'] m IH]; simpl.
  - by rewrite decide_True.
  - destruct (decide (k = k')) as [->|Hne]; simpl.
    + by rewrite decide_True.
    + by rewrite decide_False.
Qed.

Lemma get_set_ne k k' v m :
  k <> k' -> OMap.get k' (OMap.set k v m) = OMap.get k' m.
Proof.
  intros Hne. induction m as [|[k0 v0] m IH]; simpl.
  - by rewrite decide_False.
  - destruct (decide (k = k0)) as [->|Hne0]; simpl.
    + by rewrite !decide_False.
    + destruct (decide (k' = k0)); done.
Qed.

Lemma get_delete_eq k m : OMap.get k (OMap.delete k m) = None.
Proof.
  unfold OMap.delete. induction m as [|[k' v'] m IH]; [done |].
  rewrite filter_cons. simpl. destruct (decide (k' <> k)) as [Hne|Heq]; simpl.
  - by rewrite decide_False.
  - done.
Qed.

Lemma get_delete_ne k k' m :
  k <> k' -> OMap.get k' (OMap.delete k m) = OMap.get k' m.
Proof.
  intros Hne. unfold OMap.delete.
  induction m as [|[k0 v0] m IH]; [done |].
  rewrite filter_cons. simpl. destruct (decide (k0 <> k)) as [Hne0|Heq]; simpl.
  - by rewrite IH.
  - apply dec_stable in Heq. subst k0. by rewrite decide_False.
Qed.

Lemma delete_absent k m : OMap.get k m = None -> OMap.delete k m = m.
Proof.
  unfold OMap.delete. induction m as [|[k' v'] m IH]; [done |].
  simpl. destruct (decide (k = k')) as [->|Hne]; [done |].
  intros Hm. rewrite filter_cons. simpl.
  rewrite decide_True by done. by rewrite IH.
Qed.

Lemma set_same k v m : OMap.get k m = Some v -> OMap.set k v m = m.
Proof.
  induction m as [|[k' v'] m IH]; simpl; [done |].
  destruct (decide (k = k')) as [->|Hne].
  - by intros [= ->].
  - intros Hm. by rewrite IH.
Qed.

Lemma set_set k v v' m : OMap.set k v (OMap.set k v' m) = OMap.set k v m.
Proof.
  induction m as [|[k0 v0] m IH]; simpl.
  - by rewrite decide_True.
  - destruct (decide (k = k0)) as [->|Hne]; simpl.
    + by rewrite decide_True.
    + rewrite decide_False by done. by rewrite IH.
Qed.

Lemma get_None_fresh k m : k ∉ m.*1 -> OMap.get k m = None.
Proof.
  induction m as [|[k' v'] m IH]; simpl; [done |].
  rewrite not_elem_of_cons. intros [Hne Hm].
  rewrite decide_False by done. by apply IH.
Qed.

Lemma set_fresh k v m : k ∉ m.*1 -> OMap.set k v m = m ++ [(k, v)].
Proof.
  induction m as [|[k' v'] m IH]; simpl; [done |].
  rewrite not_elem_of_cons. intros [Hne Hm].
  rewrite decide_False by done. by rewrite IH.
Qed.

Lemma get_app_fresh k m1 m2 :
  k ∉ m1.*1 -> OMap.get k (m1 ++ m2) = OMap.get k m2.
Proof.
  induction m1 as [|[k' v'] m1 IH]; simpl; [done |].
  rewrite not_elem_of_cons. intros [Hne Hm].
  rewrite decide_False by done. by apply IH.
Qed.

Lemma set_app_fresh k v v0 m1 m2 :
  k ∉ m1.*1 ->
  OMap.set k v (m1 ++ (k, v0) :: m2) = m1 ++ (k, v) :: m2.
Proof.
  induction m1 as [|[k' v'] m1 IH]; simpl.
  - intros _. by rewrite decide_True.
  - rewrite not_elem_of_cons. intros [Hne Hm].
    rewrite decide_False by done. by rewrite IH.
Qed.

Lemma delete_set_eq k v m : OMap.delete k (OMap.set k v m) = OMap.delete k m.
Proof.
  unfold OMap.delete. induction m as [|[k' v'] m IH]; simpl.
  - rewrite filter_cons. simpl. by rewrite decide_False by (intros Hk; by apply Hk).
  - destruct (decide (k = k')) as [->|Hne]; simpl.
    + rewrite !filter_cons. simpl.
      by rewrite !decide_False by (intros Hk; by apply Hk).
    + rewrite !filter_cons. simpl. rewrite IH. done.
Qed.

End facts.
End OMapFacts.

(** ** Arithmetic of the threshold *)

(** [Math_ceil_div n d] is the ceiling of [n / d]: the least integer [k]
    with [n <= k * d]. *)
Lemma Math_ceil_div_le (n d k : Z) :
  0 < d -> Math_ceil_div n d <= k <-> n <= k * d.
Proof.
  intros Hd. unfold Math_ceil_div.
  pose proof (Z.div_mod (- n) d ltac:(lia)) as Hdm.
  pose proof (Z.mod_pos_bound (- n) d Hd) as Hb.
  split; intros Hk; nia.
Qed.

Lemma Math_ceil_div_gt (n d k : Z) :
  0 < d -> k < Math_ceil_div n d <-> k * d < n.
Proof.
  intros Hd. pose proof (Math_ceil_div_le n d k Hd). lia.
Qed.

Section GuaranteeProperties.
Context `{Externals}.

Lemma requiredSignatures_eq (R : WorkReport) :
  requiredSignatures R =
    Math_ceil_div
      ((Z.of_nat (length (currentGuarantors (refinementContext R)))
        + Z.of_nat (length (previousGuarantors (refinementContext R)))) * 2) 3.
Proof. reflexivity. Qed.

Lemma chargeOffender_eq (psi : gmap string OffenderRecord) (g : string) (s : Z) :
  chargeOffender psi g s =
    <[g := {| disputeCount := match psi !! g with
                              | Some o => disputeCount o + 1
                              | None => 1
                              end;
              lastDisputeSlot := s |}]> psi.
Proof. unfold chargeOffender. by destruct (psi !! g). Qed.

(** What [processGuaranteeExtrinsic] does with a report that fails
    validation. *)
Lemma processGuarantee_rejected (impl : Impl) (R : WorkReport)
    (S : OnchainState) (s : Z) (cbd : list WorkDigest) (message : string) :
  validateWorkReport impl R S s cbd = Throw message ->
  processGuaranteeExtrinsic impl R S s cbd =
    (false,
     {| rho := rho S; omega := omega S; xi := xi S;
        psi_B := <[hash (generateWorkDigest R) :=
                     {| reason := message;
                        disputedBy := {["system_validation"%string]} |}]> (psi_B S);
        psi_O := <[guarantorPublicKey R :=
                     {| disputeCount :=
                          match psi_O S !! guarantorPublicKey R with
                          | Some o => disputeCount o + 1
                          | None => 1
                          end;
                        lastDisputeSlot := s |}]> (psi_O S);
        globalState := globalState S |}).
Proof.
  intros Hv. unfold processGuaranteeExtrinsic. rewrite Hv.
  rewrite chargeOffender_eq. reflexivity.
Qed.

(** C8. When the digest is pending and its signature set already holds the
    guarantor of a valid report, the guarantee returns [false] and the whole
    state, hence the size of the signature set, is unchanged. *)
Theorem idempotent_endorsement (impl : Impl) (R : WorkReport)
    (S : OnchainState) (s : Z) (cbd : list WorkDigest) (e : PendingReportEntry) :
  validateWorkReport impl R S s cbd = Ok tt ->
  rho S !! hash (generateWorkDigest R) = Some e ->
  guarantorPublicKey R ∈ receivedSignatures e ->
  processGuaranteeExtrinsic impl R S s cbd = (false, S)
  /\ (receivedSignatures <$>
        rho (processGuaranteeExtrinsic impl R S s cbd).2
          !! hash (generateWorkDigest R)) = Some (receivedSignatures e).
Proof.
  intros Hv He Hin.
  assert (processGuaranteeExtrinsic impl R S s cbd = (false, S)) as Heq.
  { unfold processGuaranteeExtrinsic. rewrite Hv, He.
    by rewrite bool_decide_eq_true_2. }
  split; [done |]. by rewrite Heq; simpl; rewrite He.
Qed.

Lemma processGuarantee_new_signature (impl : Impl) (R : WorkReport)
    (S : OnchainState) (s : Z) (cbd : list WorkDigest) :
  let d := hash (generateWorkDigest R) in
  let m := mergedEntry R S s d in
  validateWorkReport impl R S s cbd = Ok tt ->
  addsNewSignature R S d ->
  processGuaranteeExtrinsic impl R S s cbd =
    if bool_decide (Z.of_nat (size (receivedSignatures m)) >= requiredSignatures R)
    then (true, with_omega (with_rho S (delete d (rho S)))
                  (OMap.set d {| queuedReport := R; status := ready |} (omega S)))
    else if bool_decide (s - submissionSlot m > REPORT_TIMEOUT_SLOTS)
    then (false, with_psi_B (with_rho S (delete d (rho S)))
                   (<[d := {| reason := "timed_out";
                              disputedBy := {["system_timeout"%string]} |}]>
                      (psi_B S)))
    else (true, with_rho S (<[d := m]> (rho S))).
Proof.
  intros d m Hv Hnew. unfold processGuaranteeExtrinsic. rewrite Hv.
  fold d. subst m. unfold mergedEntry, addsNewSignature in *.
  destruct (rho S !! d) as [e|] eqn:He.
  - rewrite bool_decide_eq_false_2 by done. simpl.
    rewrite delete_insert_eq. reflexivity.
  - simpl. rewrite delete_insert_eq. reflexivity.
Qed.

(** C5. For a valid guarantee that adds a new signature, with
    [N = |currentGuarantors| + |previousGuarantors|] and
    [threshold = ceil (N * 2 / 3)]: when the merged signature set has at
    least [threshold] elements the digest leaves rho and enters omega with
    status [ready] and the call returns [true]; when it has fewer, omega is
    untouched, and absent a timeout the digest stays in rho with the merged
    entry. *)
Theorem promotion_threshold (impl : Impl) (R : WorkReport)
    (S : OnchainState) (s : Z) (cbd : list WorkDigest) :
  let d := hash (generateWorkDigest R) in
  let m := mergedEntry R S s d in
  let N := Z.of_nat (length (currentGuarantors (refinementContext R)))
           + Z.of_nat (length (previousGuarantors (refinementContext R))) in
  let threshold := Math_ceil_div (N * 2) 3 in
  let result := processGuaranteeExtrinsic impl R S s cbd in
  validateWorkReport impl R S s cbd = Ok tt ->
  addsNewSignature R S d ->
  (threshold <= Z.of_nat (size (receivedSignatures m)) ->
     result.1 = true
     /\ rho result.2 = delete d (rho S)
     /\ omega result.2
        = OMap.set d {| queuedReport := R; status := ready |} (omega S))
  /\ (Z.of_nat (size (receivedSignatures m)) < threshold ->
      omega result.2 = omega S
      /\ (s - submissionSlot m <= REPORT_TIMEOUT_SLOTS ->
          result.1 = true /\ rho result.2 = <[d := m]> (rho S))).
Proof.
  intros d m N threshold result Hv Hnew. subst result.
  rewrite (processGuarantee_new_signature impl R S s cbd Hv Hnew).
  fold d. fold m. rewrite requiredSignatures_eq. fold N. fold threshold.
  split.
  - intros Hge. rewrite bool_decide_eq_true_2 by lia. done.
  - intros Hlt. rewrite bool_decide_eq_false_2 by lia.
    split.
    + by case_bool_decide.
    + intros Hto. rewrite bool_decide_eq_false_2 by lia. done.
Qed.

(** The defect behind C1, in general: a valid guarantee whose digest is in
    omega but not in rho, under a threshold above 1, creates a pending entry
    for the digest and leaves the omega entry in place. *)
Lemma guarantee_recreates_pending_entry (impl : Impl) (R : WorkReport)
    (S : OnchainState) (s : Z) (cbd : list WorkDigest) (q : AccumulationEntry) :
  let d := hash (generateWorkDigest R) in
  let result := processGuaranteeExtrinsic impl R S s cbd in
  validateWorkReport impl R S s cbd = Ok tt ->
  rho S !! d = None ->
  OMap.get d (omega S) = Some q ->
  1 < requiredSignatures R ->
  result.1 = true
  /\ rho result.2 !! d
     = Some {| report := R;
               receivedSignatures := {[guarantorPublicKey R]};
               submissionSlot := s |}
  /\ OMap.get d (omega result.2) = Some q.
Proof.
  intros d result Hv Hrho Hq Hthr. subst result.
  rewrite (processGuarantee_new_signature impl R S s cbd Hv).
  2: { unfold addsNewSignature. fold d. by rewrite Hrho. }
  fold d. unfold mergedEntry. rewrite Hrho.
  cbn [receivedSignatures submissionSlot]. rewrite size_singleton.
  rewrite bool_decide_eq_false_2 by lia.
  rewrite bool_decide_eq_false_2 by (unfold REPORT_TIMEOUT_SLOTS; lia).
  simpl. split; [done |]. split; [by rewrite lookup_insert_eq | done].
Qed.

(** C10. A valid guarantee that adds a signature to a pending report which
    stays below the threshold and whose submission slot is more than
    REPORT_TIMEOUT_SLOTS behind the current slot: the digest is removed from
    rho, recorded in psi_B with reason [timed_out] and disputer
    [system_timeout], the call returns [false], and psi_O (as well as omega,
    xi and the global state) is unchanged. *)
Theorem timeout_eviction_keeps_offenders (impl : Impl) (R : WorkReport)
    (S : OnchainState) (s : Z) (cbd : list WorkDigest) (e : PendingReportEntry) :
  let d := hash (generateWorkDigest R) in
  validateWorkReport impl R S s cbd = Ok tt ->
  rho S !! d = Some e ->
  guarantorPublicKey R ∉ receivedSignatures e ->
  Z.of_nat (size (receivedSignatures e ∪ {[guarantorPublicKey R]}))
    < requiredSignatures R ->
  s - submissionSlot e > REPORT_TIMEOUT_SLOTS ->
  processGuaranteeExtrinsic impl R S s cbd =
    (false,
     {| rho := delete d (rho S); omega := omega S; xi := xi S;
        psi_B := <[d := {| reason := "timed_out";
                           disputedBy := {["system_timeout"%string]} |}]> (psi_B S);
        psi_O := psi_O S;
        globalState := globalState S |}).
Proof.
  intros d Hv He Hnotin Hlt Hto.
  rewrite (processGuarantee_new_signature impl R S s cbd Hv).
  2: { unfold addsNewSignature. fold d. by rewrite He. }
  fold d. unfold mergedEntry. rewrite He. simpl.
  rewrite bool_decide_eq_false_2 by lia.
  rewrite bool_decide_eq_true_2 by lia. reflexivity.
Qed.

End GuaranteeProperties.

(** ** Witnesses of the guarantee theorems *)

Lemma idempotent_endorsement_witness :
  let e := {| report := demoReport "g1";
              receivedSignatures := {["g1"%string]};
              submissionSlot := 100 |} in
  processGuaranteeExtrinsic (H := demoExternals) JS (demoReport "g1")
    (pendingState "PVM_OUTPUT_1" e) 100 []
  = (false, pendingState "PVM_OUTPUT_1" e).
Proof.
  intros e.
  apply (idempotent_endorsement (H := demoExternals) JS (demoReport "g1")
           (pendingState "PVM_OUTPUT_1" e) 100 [] e).
  - vm_compute. reflexivity.
  - vm_compute. reflexivity.
  - vm_compute. reflexivity.
Defined.

Lemma promotion_threshold_witness :
  let e := {| report := demoReport "g1";
              receivedSignatures := {["g1"%string]};
              submissionSlot := 100 |} in
  let result := processGuaranteeExtrinsic (H := demoExternals) JS
                  (demoReport "g2") (pendingState "PVM_OUTPUT_1" e) 100 [] in
  result.1 = true
  /\ rho result.2 = delete "PVM_OUTPUT_1"%string {[ "PVM_OUTPUT_1"%string := e ]}
  /\ omega result.2
     = OMap.set "PVM_OUTPUT_1"
         {| queuedReport := demoReport "g2"; status := ready |} [].
Proof.
  intros e result.
  apply (promotion_threshold (H := demoExternals) JS (demoReport "g2")
           (pendingState "PVM_OUTPUT_1" e) 100 []).
  - vm_compute. reflexivity.
  - vm_compute. discriminate.
  - vm_compute. discriminate.
Defined.

Lemma timeout_eviction_keeps_offenders_witness :
  let e := {| report := wideReport "g1";
              receivedSignatures := {["g1"%string]};
              submissionSlot := 40 |} in
  processGuaranteeExtrinsic (H := demoExternals) JS (wideReport "g2")
    (pendingState "PVM_OUTPUT_1" e) 149 []
  = (false,
     {| rho := delete "PVM_OUTPUT_1"%string {[ "PVM_OUTPUT_1"%string := e ]};
        omega := []; xi := ∅;
        psi_B := <[ "PVM_OUTPUT_1"%string :=
                     {| reason := "timed_out";
                        disputedBy := {["system_timeout"%string]} |} ]> ∅;
        psi_O := ∅;
        globalState := emptyGlobalState |}).
Proof.
  intros e.
  apply (timeout_eviction_keeps_offenders (H := demoExternals) JS
           (wideReport "g2") (pendingState "PVM_OUTPUT_1" e) 149 [] e).
  - vm_compute. reflexivity.
  - vm_compute. reflexivity.
  - vm_compute. discriminate.
  - vm_compute. reflexivity.
  - vm_compute. reflexivity.
Defined.

(** ** The checks of [validateWorkReport] *)

Lemma bind_Throw {A B : Type} (m : Result A) (k : A -> Result B)
    (message : string) :
  m ≫= k = Throw message ->
  m = Throw message \/ exists a, m = Ok a /\ k a = Throw message.
Proof.
  destruct m as [a|msg]; simpl; intros Hm; [right; eauto |].
  left. by injection Hm as ->.
Qed.

Lemma bind_Ok {A B : Type} (m : Result A) (k : A -> Result B) (b : B) :
  m ≫= k = Ok b -> exists a, m = Ok a /\ k a = Ok b.
Proof. destruct m as [a|msg]; simpl; intros Hm; [eauto | done]. Qed.

Lemma throwIf_Throw (c : bool) (m message : string) :
  throwIf c m = Throw message -> c = true /\ message = m.
Proof. destruct c; simpl; intros Hm; [by injection Hm as <- | done]. Qed.

Lemma throwIf_Ok (c : bool) (m : string) (x : unit) :
  throwIf c m = Ok x -> c = false.
Proof. destruct c; simpl; intros Hm; done. Qed.

(** Membership of a literal in a literal list. *)
Ltac in_list :=
  apply list_elem_of_In; simpl;
  repeat (first [left; reflexivity | right]); fail.

(** Peel the first check off a failed validation [Hv]: either that check
    threw (first goal), or the later ones did. *)
Ltac peel_check Hv :=
  let Hhead := fresh "Hhead" in
  apply bind_Throw in Hv as [Hhead | [? [_ Hv]]]; cbv beta zeta in *.

Section ValidationProperties.
Context `{Externals}.

Lemma checkDependencies_ext (S S' : OnchainState) (cbd : list WorkDigest)
    (deps : list string) :
  xi S' = xi S -> rho S' = rho S ->
  checkDependencies S' cbd deps = checkDependencies S cbd deps.
Proof.
  intros Hxi Hrho. induction deps as [|dep deps IH]; [done |].
  simpl. rewrite Hxi, Hrho, IH. reflexivity.
Qed.

Lemma checkDependencies_message (S : OnchainState) (cbd : list WorkDigest)
    (deps : list string) (message : string) :
  checkDependencies S cbd deps = Throw message ->
  exists dep,
    message = ("dependency_missing / segment_root_lookup_invalid: Dependency "
               +:+ dep +:+ " not found.")%string.
Proof.
  induction deps as [|dep deps IH]; [done |].
  simpl. destruct (_ || _ || _).
  - exact IH.
  - intros [= <-]. by exists dep.
Qed.

(** The shape of every message that [validateWorkReport] throws once the
    public key decodes. *)
Lemma validateWorkReport_messages (impl : Impl) (R : WorkReport)
    (S : OnchainState) (s : Z) (cbd : list WorkDigest) (pk message : string) :
  base64ToPublicKey (guarantorPublicKey R) = Ok pk ->
  validateWorkReport impl R S s cbd = Throw message ->
  (message = TypeError_programHash /\ impl = JS
   /\ workItems (workPackage R) = [])
  \/ (exists dep,
        message = ("dependency_missing / segment_root_lookup_invalid: Dependency "
                   +:+ dep +:+ " not found.")%string)
  \/ message = ("core_engaged: Core " +:+ pretty (coreIndex R)
                +:+ " is not available.")%string
  \/ message ∈
       [ "bad_signature: Work-Report signature is invalid.";
         "anchor_not_recent: Context anchor block is too old.";
         "bad_core_index: Core index is out of bounds.";
         "bad_code_hash: Work result code hash doesn't match expected for service.";
         "wrong_assignment / not_authorized: Unexpected guarantor for work report core or not authorized.";
         "future_report_slot: Report refers to a slot in the future.";
         "report_before_last_rotation: Report guarantee slot is too old.";
         "too_many_dependencies: Work report has too many dependencies.";
         "too_high_work_report_gas: Work report per core gas is too high.";
         "service_item_gas_too_low: Accumulate gas is below the service minimum.";
         "duplicate_package_in_recent_history: Package was already finalized."
       ]%string.
Proof.
  intros Hpk Hv. unfold validateWorkReport in Hv. rewrite Hpk in Hv.
  peel_check Hv; [done |].
  destruct impl; repeat (peel_check Hv; [ | ]).
  all: try (apply throwIf_Throw in Hv as [_ ->]; do 3 right; in_list).
  all: try (apply throwIf_Throw in Hhead as [_ ->]).
  all: try (do 3 right; in_list).
  all: try (do 2 right; left; reflexivity).
  all: try (right; left; eapply checkDependencies_message; eassumption).
  all: try discriminate.
  - destruct (truthy _); [| done].
    destruct (workItems (workPackage R)); [| done].
    injection Hhead as <-. left. done.
Qed.

(** Every message of a failed validation begins with one of the failure
    tags, once the public key decodes and the package has a work item. *)
Lemma validation_message_tagged (impl : Impl) (R : WorkReport)
    (S : OnchainState) (s : Z) (cbd : list WorkDigest) (pk message : string) :
  base64ToPublicKey (guarantorPublicKey R) = Ok pk ->
  workItems (workPackage R) <> [] ->
  validateWorkReport impl R S s cbd = Throw message ->
  carriesTag message = true.
Proof.
  intros Hpk Hitems Hv.
  destruct (validateWorkReport_messages impl R S s cbd pk message Hpk Hv)
    as [(_ & _ & Hnil) | [[dep ->] | [-> | Hin]]]; try done.
  apply list_elem_of_In in Hin. simpl in Hin.
  repeat (destruct Hin as [<- | Hin]; [reflexivity |]). done.
Qed.

(** Routing of a failed validation.  A report that fails validation at
    slot [s] with message [message] is routed to psi_B under its digest,
    with that message as reason and [system_validation] as only disputer;
    its guarantor is charged in psi_O (count incremented, or created at 1;
    last dispute slot [s]); the call returns [false]; rho, omega, xi and the
    global state are unchanged.  The reason begins with the tag of the failed
    check when the key of the guarantor decodes and the package has a work
    item. *)
Theorem validation_failure_routing (impl : Impl) (R : WorkReport)
    (S : OnchainState) (s : Z) (cbd : list WorkDigest) (message : string) :
  validateWorkReport impl R S s cbd = Throw message ->
  processGuaranteeExtrinsic impl R S s cbd =
    (false,
     {| rho := rho S; omega := omega S; xi := xi S;
        psi_B := <[hash (generateWorkDigest R) :=
                     {| reason := message;
                        disputedBy := {["system_validation"%string]} |}]> (psi_B S);
        psi_O := <[guarantorPublicKey R :=
                     {| disputeCount :=
                          match psi_O S !! guarantorPublicKey R with
                          | Some o => disputeCount o + 1
                          | None => 1
                          end;
                        lastDisputeSlot := s |}]> (psi_O S);
        globalState := globalState S |})
  /\ (forall pk,
        base64ToPublicKey (guarantorPublicKey R) = Ok pk ->
        workItems (workPackage R) <> [] ->
        carriesTag message = true).
Proof.
  intros Hv. split; [by apply processGuarantee_rejected |].
  intros pk Hpk Hitems. by eapply validation_message_tagged.
Qed.

(** C9, amended. In the JavaScript implementation a report whose core index
    is negative or above MAX_CORE_INDEX is rejected before the
    guarantor-assignment check: the call returns [false] and records the
    digest in psi_B.  The reason is the bad_core_index message when the
    signature verifies and the anchor is recent; otherwise it is the message
    of the first of these two earlier checks that fails. *)
Theorem bad_core_index_rejected (R : WorkReport) (S : OnchainState) (s : Z)
    (cbd : list WorkDigest) :
  coreIndex R < 0 \/ coreIndex R > MAX_CORE_INDEX ->
  validateWorkReport JS R S s cbd = Throw (earlyRejection R s)
  /\ (processGuaranteeExtrinsic JS R S s cbd).1 = false
  /\ psi_B (processGuaranteeExtrinsic JS R S s cbd).2
       !! hash (generateWorkDigest R)
     = Some {| reason := earlyRejection R s;
               disputedBy := {["system_validation"%string]} |}
  /\ (forall pk,
        base64ToPublicKey (guarantorPublicKey R) = Ok pk ->
        verifySignature R (guarantorSignature R) pk = true ->
        s - anchorBlockNumber (refinementContext R) <= ANCHOR_MAX_AGE_SLOTS ->
        earlyRejection R s = "bad_core_index: Core index is out of bounds."%string).
Proof.
  intros Hcore.
  assert (validateWorkReport JS R S s cbd = Throw (earlyRejection R s)) as Hv.
  { unfold validateWorkReport, earlyRejection.
    destruct (base64ToPublicKey (guarantorPublicKey R)) as [pk|msg]; [| done].
    simpl. destruct (verifySignature R (guarantorSignature R) pk); [| done].
    simpl.
    destruct (bool_decide (s - anchorBlockNumber (refinementContext R)
                           > ANCHOR_MAX_AGE_SLOTS)); simpl; [done |].
    assert (bool_decide (coreIndex R < 0)
            || bool_decide (coreIndex R > MAX_CORE_INDEX) = true) as ->; [| done].
    apply orb_true_iff. rewrite !bool_decide_eq_true. done. }
  split; [exact Hv |].
  rewrite (processGuarantee_rejected JS R S s cbd _ Hv). simpl.
  split; [done |]. split; [by rewrite lookup_insert_eq |].
  intros pk Hpk Hsig Hanchor. unfold earlyRejection.
  rewrite Hpk, Hsig. simpl. by rewrite bool_decide_eq_false_2 by lia.
Qed.

(** C2, amended. A report whose service identifier is not registered is not
    rejected on that ground (the bad_service_id throw is commented out in
    both implementations): it is validated exactly as if the service were
    registered without a declared code hash, no rejection message begins
    with bad_service_id, and when it passes the enabled checks and its
    digest is not pending, the call returns [true] and the digest is
    inserted into rho, or promoted to omega. *)
Theorem unknown_service_not_rejected (impl : Impl) (R : WorkReport)
    (S : OnchainState) (s : Z) (cbd : list WorkDigest) (o : string) :
  let serviceId :=
    AuthorizationServiceDetails.u (authorizationServiceDetails (workPackage R)) in
  let d := hash (generateWorkDigest R) in
  let result := processGuaranteeExtrinsic impl R S s cbd in
  serviceRegistry (globalState S) !! serviceId = None ->
  validateWorkReport impl R S s cbd
  = validateWorkReport impl R
      (registerService S serviceId {| codeHash := None; owner := o |}) s cbd
  /\ (forall pk message,
        base64ToPublicKey (guarantorPublicKey R) = Ok pk ->
        validateWorkReport impl R S s cbd = Throw message ->
        String.prefix "bad_service_id" message = false)
  /\ (validateWorkReport impl R S s cbd = Ok tt ->
      rho S !! d = None ->
      result.1 = true
      /\ psi_B result.2 = psi_B S
      /\ (is_Some (rho result.2 !! d) \/ is_Some (OMap.get d (omega result.2)))).
Proof.
  intros serviceId d result Hnone. split; [| split].
  - unfold validateWorkReport, registerService. simpl. fold serviceId.
    rewrite lookup_insert_eq, Hnone. simpl.
    rewrite (checkDependencies_ext S (with_globalState S _)) by done.
    destruct impl; reflexivity.
  - intros pk message Hpk Hv.
    destruct (validateWorkReport_messages impl R S s cbd pk message Hpk Hv)
      as [[-> _] | [[dep ->] | [-> | Hin]]]; try reflexivity.
    apply list_elem_of_In in Hin. simpl in Hin.
    repeat (destruct Hin as [<- | Hin]; [reflexivity |]). done.
  - intros Hv Hrho. subst result.
    rewrite (processGuarantee_new_signature impl R S s cbd Hv).
    2: { unfold addsNewSignature. fold d. by rewrite Hrho. }
    fold d. unfold mergedEntry. rewrite Hrho. simpl.
    case_bool_decide; simpl.
    + split; [done |]. split; [done |]. right. rewrite OMapFacts.get_set_eq. eauto.
    + rewrite bool_decide_eq_false_2 by (unfold REPORT_TIMEOUT_SLOTS; lia).
      simpl. split; [done |]. split; [done |]. left.
      rewrite lookup_insert_eq. eauto.
Qed.

End ValidationProperties.

Lemma validation_failure_routing_witness :
  processGuaranteeExtrinsic (H := demoExternals) JS (demoReport "g1")
    emptyState 200 []
  = (false,
     {| rho := ∅; omega := []; xi := ∅;
        psi_B := {[ "PVM_OUTPUT_1"%string :=
                     {| reason := "anchor_not_recent: Context anchor block is too old.";
                        disputedBy := {["system_validation"%string]} |} ]};
        psi_O := {[ "g1"%string :=
                     {| disputeCount := 1; lastDisputeSlot := 200 |} ]};
        globalState := emptyGlobalState |}).
Proof.
  destruct (validation_failure_routing (H := demoExternals) JS (demoReport "g1")
              emptyState 200 []
              "anchor_not_recent: Context anchor block is too old."
              ltac:(vm_compute; reflexivity)) as [Hroute _].
  exact Hroute.
Defined.

(** C6, the code at the failing input.  A report whose guarantor key is not
    base64 fails validation inside [base64ToPublicKey], before the signature
    check: [atob] throws, and nothing between the call and the [catch] of
    [processGuaranteeExtrinsic] handles the error.  Both implementations
    route the report as the claim says (psi_B under the digest with
    [system_validation] as only disputer, the guarantor charged, [false]
    returned, rho, omega and xi untouched), but the reason recorded is the
    message of [atob], which carries none of the failure tags.
    [verifySignature], which decodes the signature with the same [atob],
    catches the error and returns [false], so that a signature that is not
    base64 is recorded as bad_signature. *)
Theorem validation_failure_untagged :
  let rejected :=
    (false,
     {| rho := ∅; omega := []; xi := ∅;
        psi_B := {[ "PVM_OUTPUT_1"%string :=
                     {| reason := "Invalid character";
                        disputedBy := {["system_validation"%string]} |} ]};
        psi_O := {[ "g1!"%string :=
                     {| disputeCount := 1; lastDisputeSlot := 100 |} ]};
        globalState := emptyGlobalState |}) in
  validateWorkReport (H := atobExternals) JS malformedKeyReport emptyState 100 []
  = Throw "Invalid character"
  /\ validateWorkReport (H := atobExternals) TS malformedKeyReport emptyState
       100 []
     = Throw "Invalid character"
  /\ processGuaranteeExtrinsic (H := atobExternals) JS malformedKeyReport
       emptyState 100 [] = rejected
  /\ processGuaranteeExtrinsic (H := atobExternals) TS malformedKeyReport
       emptyState 100 [] = rejected
  /\ carriesTag "Invalid character" = false
  /\ Forall (fun tag => String.prefix tag "Invalid character" = false)
       validationTags.
Proof.
  intros rejected. subst rejected.
  assert (forall impl,
            validateWorkReport (H := atobExternals) impl malformedKeyReport
              emptyState 100 [] = Throw "Invalid character") as Hv.
  { intros impl. unfold validateWorkReport. reflexivity. }
  split; [apply Hv |]. split; [apply Hv |].
  split; [| split].
  - rewrite (processGuarantee_rejected (H := atobExternals) JS _ _ _ _ _
               (Hv JS)).
    vm_compute. reflexivity.
  - rewrite (processGuarantee_rejected (H := atobExternals) TS _ _ _ _ _
               (Hv TS)).
    vm_compute. reflexivity.
  - split; [reflexivity |]. repeat constructor.
Qed.

(** C9, counterexample to the claim as stated: a report with a negative
    core index and an invalid signature is rejected, but the reason recorded
    in psi_B is the bad_signature one, not one tagged bad_core_index. *)
Lemma bad_core_index_counterexample :
  coreIndex forgedReport < 0
  /\ (reason <$> psi_B (processGuaranteeExtrinsic (H := demoExternals) JS
                          forgedReport emptyState 100 []).2
                   !! "PVM_OUTPUT_1"%string)
     = Some "bad_signature: Work-Report signature is invalid."%string
  /\ ~ (exists e,
          psi_B (processGuaranteeExtrinsic (H := demoExternals) JS
                   forgedReport emptyState 100 []).2
            !! hash (generateWorkDigest (Externals := demoExternals) forgedReport)
          = Some e
          /\ String.prefix "bad_core_index" (reason e) = true).
Proof.
  split; [reflexivity |]. split; [vm_compute; reflexivity |].
  intros [e [He Hp]]. vm_compute in He. injection He as <-.
  vm_compute in Hp. discriminate Hp.
Qed.

Lemma bad_core_index_rejected_witness :
  coreIndex badCoreReport > MAX_CORE_INDEX
  /\ validateWorkReport (H := demoExternals) JS badCoreReport emptyState 100 []
     = Throw "bad_core_index: Core index is out of bounds.".
Proof.
  assert (coreIndex badCoreReport > MAX_CORE_INDEX) as Hcore by reflexivity.
  split; [exact Hcore |].
  destruct (bad_core_index_rejected (H := demoExternals) badCoreReport
              emptyState 100 [] (or_intror Hcore)) as (Hv & _ & _ & Htag).
  rewrite Hv. rewrite (Htag "g1"%string); [reflexivity | reflexivity | reflexivity |].
  vm_compute. discriminate.
Defined.

(** C2, counterexample to the claim as stated: the service of the report is
    not registered, yet the guarantee returns [true], nothing is recorded in
    psi_B, and the digest is inserted into rho (in both implementations). *)
Lemma unknown_service_counterexample :
  serviceRegistry (globalState emptyState) !! "service.jam"%string = None
  /\ AuthorizationServiceDetails.u
       (authorizationServiceDetails (workPackage (demoReport "g1")))
     = "service.jam"%string
  /\ (forall impl,
        let result := processGuaranteeExtrinsic (H := demoExternals) impl
                        (demoReport "g1") emptyState 100 [] in
        result.1 = true
        /\ psi_B result.2 !! "PVM_OUTPUT_1"%string = None
        /\ is_Some (rho result.2 !! "PVM_OUTPUT_1"%string)).
Proof.
  split; [reflexivity |]. split; [reflexivity |].
  intros impl. destruct impl; vm_compute; (split; [reflexivity |]);
    (split; [reflexivity |]); eexists; reflexivity.
Qed.

Lemma unknown_service_not_rejected_witness :
  let result := processGuaranteeExtrinsic (H := demoExternals) TS
                  (demoReport "g1") emptyState 100 [] in
  result.1 = true
  /\ psi_B result.2 = psi_B emptyState
  /\ (is_Some (rho result.2 !! "PVM_OUTPUT_1"%string)
      \/ is_Some (OMap.get "PVM_OUTPUT_1" (omega result.2))).
Proof.
  destruct (unknown_service_not_rejected (H := demoExternals) TS
              (demoReport "g1") emptyState 100 [] "owner" eq_refl)
    as (_ & _ & Hadmit).
  apply Hadmit; vm_compute; reflexivity.
Defined.

(** C1, the code at the failing input.  From the empty state, three
    guarantees for the same work by g1, g2 and g3 (roster of three, threshold
    two): the second promotes the digest to omega, and the third, which finds
    the digest neither in xi nor in rho, creates a fresh pending entry.  The
    digest is then in rho and in omega; after the accumulation sweep it is in
    rho and in xi. *)
Theorem bucket_disjointness_violated (impl : Impl) :
  let d := "PVM_OUTPUT_1"%string in
  let S3 := afterThreeGuarantees impl in
  let S4 := processAccumulationQueue (H := demoExternals) impl S3 101 in
  (is_Some (rho S3 !! d) /\ is_Some (OMap.get d (omega S3)))
  /\ (is_Some (rho S4 !! d) /\ is_Some (xi S4 !! d)).
Proof.
  destruct impl; vm_compute; repeat split; eexists; reflexivity.
Qed.

(** ** Dispute, assurance and accumulation *)

Section HistoryProperties.
Context `{Externals}.

Lemma processGuarantee_xi (impl : Impl) (R : WorkReport) (S : OnchainState)
    (s : Z) (cbd : list WorkDigest) :
  xi (processGuaranteeExtrinsic impl R S s cbd).2 = xi S.
Proof.
  unfold processGuaranteeExtrinsic.
  destruct (validateWorkReport impl R S s cbd); [| done].
  destruct (rho S !! hash (generateWorkDigest R)) as [e|]; simpl.
  - destruct (bool_decide (guarantorPublicKey R ∈ receivedSignatures e));
      [done |].
    repeat (case_bool_decide; simpl); done.
  - repeat (case_bool_decide; simpl); done.
Qed.

(** A dispute never throws and never touches xi. *)
Lemma processDispute_xi (dispute : DisputeExtrinsic) (S : OnchainState) (s : Z) :
  exists S', processDisputeExtrinsic dispute S s = Ok S' /\ xi S' = xi S.
Proof.
  unfold processDisputeExtrinsic, getReportByDigest.
  set (d := disputedDigestHash dispute).
  destruct (xi S !! d) as [r|] eqn:Hxi;
    destruct (rho S !! d) as [e|] eqn:Hrho;
    destruct (OMap.get d (omega S)) as [q|] eqn:Hom;
    simpl; rewrite ?Hom, ?Hxi; simpl; rewrite ?Hxi; simpl;
    destruct (psi_B S !! d); simpl; eexists; split; reflexivity.
Qed.

Lemma accumulateReport_xi_mono (impl : Impl) (s : Z) (S : OnchainState)
    (k d : string) :
  is_Some (xi S !! d) -> is_Some (xi (accumulateReport impl s S k) !! d).
Proof.
  intros Hd. unfold accumulateReport.
  destruct (OMap.get k (omega S)) as [entry|]; [| done].
  destruct (decide (status entry = ready)); [| done].
  destruct (runWorkItems _ _ _) as [gs [message|]]; simpl; [done |].
  rewrite lookup_insert_is_Some. destruct (decide (k = d)); auto.
Qed.

Lemma accumulate_fold_xi_mono (impl : Impl) (s : Z) (order : list string)
    (S : OnchainState) (d : string) :
  is_Some (xi S !! d) ->
  is_Some (xi (fold_left (accumulateReport impl s) order S) !! d).
Proof.
  revert S. induction order as [|k order IH]; intros S Hd; [done |].
  simpl. apply IH. by apply accumulateReport_xi_mono.
Qed.

(** C7. Once [d] is in xi, none of the four processors removes it: a
    dispute and a guarantee leave xi as it is, an assurance leaves the whole
    state as it is, and after an accumulation sweep [d] is still in xi.  A
    dispute that names such a [d], absent from rho and omega, returns
    normally, leaves rho, omega and xi as they are, adds the disputer to the
    [disputedBy] set of psi_B[d] (creating the record, with the reason of the
    dispute, when there is none), and charges the guarantor of xi[d] in
    psi_O. *)
Theorem history_immutability (impl : Impl) (S : OnchainState) (s : Z)
    (d : string) (r : WorkReport) :
  xi S !! d = Some r ->
  (forall dispute,
     exists S', processDisputeExtrinsic dispute S s = Ok S' /\ xi S' = xi S)
  /\ (forall R cbd, xi (processGuaranteeExtrinsic impl R S s cbd).2 = xi S)
  /\ (forall assuranceData, processAssuranceExtrinsic assuranceData S s = S)
  /\ is_Some (xi (processAccumulationQueue impl S s) !! d)
  /\ (forall dispute,
        disputedDigestHash dispute = d ->
        rho S !! d = None ->
        OMap.get d (omega S) = None ->
        processDisputeExtrinsic dispute S s =
          Ok {| rho := rho S; omega := omega S; xi := xi S;
                psi_B :=
                  <[d := match psi_B S !! d with
                         | Some b =>
                             {| reason := reason b;
                                disputedBy := disputedBy b
                                              ∪ {[disputerPublicKey dispute]} |}
                         | None =>
                             {| reason := disputeReason dispute;
                                disputedBy := {[disputerPublicKey dispute]} |}
                         end]> (psi_B S);
                psi_O :=
                  <[guarantorPublicKey r :=
                      {| disputeCount :=
                           match psi_O S !! guarantorPublicKey r with
                           | Some o => disputeCount o + 1
                           | None => 1
                           end;
                         lastDisputeSlot := s |}]> (psi_O S);
                globalState := globalState S |}).
Proof.
  intros Hxi. repeat split.
  - intros dispute. apply processDispute_xi.
  - intros R cbd. apply processGuarantee_xi.
  - unfold processAccumulationQueue. apply accumulate_fold_xi_mono.
    by rewrite Hxi.
  - intros dispute <- Hrho Hom.
    unfold processDisputeExtrinsic, getReportByDigest.
    rewrite Hxi, Hrho, Hom. simpl. rewrite Hxi.
    destruct (psi_B S !! disputedDigestHash dispute); simpl;
      rewrite chargeOffender_eq; reflexivity.
Qed.

Lemma runWorkItems_app (impl : Impl) (pre rest : list WorkItem)
    (gs : GlobalState) :
  runWorkItems impl (pre ++ rest) gs =
    match runWorkItems impl pre gs with
    | (gs1, None) => runWorkItems impl rest gs1
    | (gs1, Some message) => (gs1, Some message)
    end.
Proof.
  revert gs. induction pre as [|w pre IH]; intros gs; [done |].
  simpl. destruct (simulatePsiAPVM w gs); [apply IH | done].
Qed.

(** C3, amended. When the work items of a ready report fail part-way (the
    items [pre] succeed and lead from the global state of the start to [gs1],
    then Psi_A throws on the next item), the accumulation of that report
    leaves the global state at [gs1]: the deltas of the earlier items are
    kept, there is no roll-back.  The report leaves omega, is recorded in
    psi_B with reason [accumulation_failed: ...], and its guarantor is
    charged in psi_O. *)
Theorem accumulation_failure_keeps_partial_deltas (impl : Impl) (s : Z)
    (S : OnchainState) (d : string) (entry : AccumulationEntry)
    (pre post : list WorkItem) (w : WorkItem) (gs1 : GlobalState)
    (message : string) :
  OMap.get d (omega S) = Some entry ->
  status entry = ready ->
  workItems (workPackage (queuedReport entry)) = pre ++ w :: post ->
  runWorkItems impl pre (globalState S) = (gs1, None) ->
  simulatePsiAPVM w gs1 = Throw message ->
  accumulateReport impl s S d =
    {| rho := rho S;
       omega := OMap.delete d (omega S);
       xi := xi S;
       psi_B := <[d := {| reason := "accumulation_failed: " +:+ message;
                          disputedBy := {["system_accumulation"%string]} |}]>
                  (psi_B S);
       psi_O :=
         <[guarantorPublicKey (queuedReport entry) :=
             {| disputeCount :=
                  match psi_O S !! guarantorPublicKey (queuedReport entry) with
                  | Some o => disputeCount o + 1
                  | None => 1
                  end;
                lastDisputeSlot := s |}]> (psi_O S);
       globalState := gs1 |}.
Proof.
  intros Hget Hready Hitems Hpre Hfail. unfold accumulateReport.
  rewrite Hget. rewrite decide_True by done. simpl.
  rewrite Hitems, runWorkItems_app, Hpre. simpl. rewrite Hfail. simpl.
  rewrite chargeOffender_eq, OMapFacts.delete_set_eq. reflexivity.
Qed.

End HistoryProperties.

(** ** The topological sort *)

Section SortProperties.

Lemma degreeWeight_set_Some (k : string) (u v : Z) (m : list (string * Z)) :
  OMap.get k m = Some v ->
  (degreeWeight (OMap.set k u m) + Z.to_nat v
   = degreeWeight m + Z.to_nat u)%nat.
Proof.
  unfold degreeWeight. induction m as [|[k' v'] m IH]; simpl; [done |].
  destruct (decide (k = k')) as [->|Hne]; simpl.
  - intros [= ->]. lia.
  - intros Hm. specialize (IH Hm). lia.
Qed.

Lemma degreeWeight_set_None (k : string) (u : Z) (m : list (string * Z)) :
  OMap.get k m = None ->
  degreeWeight (OMap.set k u m) = (degreeWeight m + Z.to_nat u)%nat.
Proof.
  unfold degreeWeight. induction m as [|[k' v'] m IH]; simpl; [intros _; lia |].
  destruct (decide (k = k')) as [->|Hne]; simpl; [done |].
  intros Hm. rewrite (IH Hm). lia.
Qed.

(** One decrement: the weight drops by one when the digest is queued. *)
Lemma relax_weight (n : string) (inDegree : list (string * Z)) :
  let u := default 0 (OMap.get n inDegree) - 1 in
  (degreeWeight (OMap.set n u inDegree)
   + (if bool_decide (u = 0)%Z then 1 else 0) <= degreeWeight inDegree)%nat.
Proof.
  intros u. subst u. destruct (OMap.get n inDegree) as [v|] eqn:Hget; simpl.
  - pose proof (degreeWeight_set_Some n (v - 1) v inDegree Hget).
    case_bool_decide; lia.
  - rewrite (degreeWeight_set_None n _ inDegree Hget).
    try case_bool_decide; simpl; lia.
Qed.

Lemma relaxNeighbors_spec (neighbors : list string)
    (inDegree : list (string * Z)) (queue : list string) :
  exists added,
    (relaxNeighbors neighbors (inDegree, queue)).2 = queue ++ added
    /\ (length added
        + degreeWeight (relaxNeighbors neighbors (inDegree, queue)).1
        <= degreeWeight inDegree)%nat.
Proof.
  revert inDegree queue.
  induction neighbors as [|n ns IH]; intros inDegree queue.
  - exists []. simpl. rewrite app_nil_r. split; [done | lia].
  - unfold relaxNeighbors. simpl.
    pose proof (relax_weight n inDegree) as Hw. simpl in Hw.
    destruct (bool_decide (default 0 (OMap.get n inDegree) - 1 = 0)).
    + destruct (IH (OMap.set n (default 0 (OMap.get n inDegree) - 1) inDegree)
                  (queue ++ [n])) as [added [Hq Hle]].
      exists (n :: added). unfold relaxNeighbors in Hq, Hle.
      rewrite Hq, <- app_assoc. split; [done |]. simpl. lia.
    + destruct (IH (OMap.set n (default 0 (OMap.get n inDegree) - 1) inDegree)
                  queue) as [added [Hq Hle]].
      exists added. unfold relaxNeighbors in Hq, Hle.
      rewrite Hq. split; [done |]. lia.
Qed.

(** The bound of [kahnFuel] is never hit. *)
Lemma kahnLoop_is_Some (fuel : nat) (graph : list (string * list string))
    (inDegree : list (string * Z)) (queue : list string) (head : nat)
    (sortedOrder : list string) :
  (length queue - head + degreeWeight inDegree <= fuel)%nat ->
  is_Some (kahnLoop fuel graph inDegree queue head sortedOrder).
Proof.
  revert inDegree queue head sortedOrder.
  induction fuel as [|fuel IH]; intros inDegree queue head sortedOrder Hle;
    simpl; destruct (queue !! head) as [cur|] eqn:Hcur; eauto.
  - apply lookup_lt_Some in Hcur. lia.
  - apply lookup_lt_Some in Hcur.
    destruct (relaxNeighbors_spec (default [] (OMap.get cur graph))
                inDegree queue) as [added [Hq Hw]].
    destruct (relaxNeighbors _ _) as [inDegree' queue']. simpl in Hq, Hw.
    subst queue'. apply IH. rewrite length_app. lia.
Qed.

(** The loop only appends to the queue, and returns the whole queue. *)
Lemma kahnLoop_extends (fuel : nat) (graph : list (string * list string))
    (inDegree : list (string * Z)) (queue : list string) (head : nat)
    (sortedOrder order : list string) :
  kahnLoop fuel graph inDegree queue head sortedOrder = Some order ->
  sortedOrder = take head queue ->
  exists later, order = queue ++ later.
Proof.
  revert inDegree queue head sortedOrder.
  induction fuel as [|fuel IH]; intros inDegree queue head sortedOrder;
    simpl; destruct (queue !! head) as [cur|] eqn:Hcur; try done.
  - intros [= <-] ->. exists []. rewrite app_nil_r.
    apply take_ge. by apply lookup_ge_None.
  - destruct (relaxNeighbors_spec (default [] (OMap.get cur graph))
                inDegree queue) as [added [Hq _]].
    destruct (relaxNeighbors _ _) as [inDegree' queue']. simpl in Hq.
    subst queue'. intros Hloop ->.
    destruct (IH _ _ _ _ Hloop) as [later ->].
    + rewrite take_app_le by (apply lookup_lt_Some in Hcur; lia).
      by rewrite (take_S_r _ _ _ Hcur).
    + exists (added ++ later). by rewrite app_assoc.
  - intros [= <-] ->. exists []. rewrite app_nil_r.
    apply take_ge. by apply lookup_ge_None.
Qed.

(** [topologicalSort] terminates on every queue. *)
Lemma topologicalSort_terminates (q : list (string * AccumulationEntry)) :
  topologicalSort_opt q = Some (topologicalSort q).
Proof.
  unfold topologicalSort.
  assert (is_Some (topologicalSort_opt q)) as [order ->]; [| done].
  unfold topologicalSort_opt. destruct (buildGraph q) as [graph inDegree].
  apply kahnLoop_is_Some. unfold kahnFuel. lia.
Qed.

Lemma addEdges_snd (q : list (string * AccumulationEntry)) (k : string)
    (deps : list string)
    (acc : list (string * list string) * list (string * Z)) :
  (addEdges q k deps acc).2 = fold_left (inDegreeStep q k) deps acc.2.
Proof.
  unfold addEdges. revert acc. induction deps as [|dep deps IH]; intros acc;
    [done |].
  simpl. rewrite IH. f_equal. unfold addEdge, inDegreeStep.
  by destruct (OMap.has dep q).
Qed.

Lemma inDegreeStep_count (q : list (string * AccumulationEntry)) (k : string)
    (deps : list string) (i : list (string * Z)) (v : Z) :
  OMap.get k i = Some v ->
  fold_left (inDegreeStep q k) deps i
  = OMap.set k
      (v + Z.of_nat (length (filter (fun dep => is_Some (OMap.get dep q)) deps)))
      i.
Proof.
  revert i v. induction deps as [|dep deps IH]; intros i v Hget; simpl.
  - rewrite Z.add_0_r. symmetry. by apply OMapFacts.set_same.
  - unfold inDegreeStep at 2. unfold OMap.has. rewrite Hget. simpl.
    case_bool_decide as Hdep.
    + rewrite (IH _ (v + 1)) by apply OMapFacts.get_set_eq.
      rewrite OMapFacts.set_set. rewrite filter_cons_True by done.
      simpl length. f_equal. lia.
    + rewrite (IH _ v Hget). by rewrite filter_cons_False by done.
Qed.

Lemma initGraph_snd_gen (l : list (string * AccumulationEntry))
    (acc : list (string * list string) * list (string * Z)) :
  NoDup (acc.2.*1 ++ l.*1) ->
  (fold_left initGraphStep l acc).2 = acc.2 ++ ((fun kv => (kv.1, 0)) <$> l).
Proof.
  revert acc. induction l as [|[k e] l IH]; intros acc Hnd; simpl.
  - by rewrite app_nil_r.
  - assert (k ∉ acc.2.*1) as Hfresh.
    { apply NoDup_app in Hnd as (_ & Hdisj & _). intros Hin.
      apply (Hdisj k Hin). simpl. left. }
    rewrite IH; simpl; rewrite OMapFacts.set_fresh by done.
    + by rewrite <- app_assoc.
    + rewrite fmap_app, <- app_assoc. done.
Qed.

Lemma buildGraph_fold_snd (q l : list (string * AccumulationEntry))
    (acc : list (string * list string) * list (string * Z)) :
  (fold_left (buildGraphStep q) l acc).2
  = fold_left
      (fun i kv =>
         fold_left (inDegreeStep q kv.1) (dependencies (queuedReport kv.2)) i)
      l acc.2.
Proof.
  revert acc. induction l as [|kv l IH]; intros acc; [done |].
  simpl. rewrite IH. f_equal. unfold buildGraphStep. apply addEdges_snd.
Qed.

Lemma inDegree_fold (q l1 l2 : list (string * AccumulationEntry)) :
  NoDup ((l1 ++ l2).*1) ->
  fold_left
    (fun i kv =>
       fold_left (inDegreeStep q kv.1) (dependencies (queuedReport kv.2)) i)
    l2 (inDegreeOf q l1 ++ ((fun kv => (kv.1, 0)) <$> l2))
  = inDegreeOf q (l1 ++ l2).
Proof.
  revert l1. induction l2 as [|[k e] l2 IH]; intros l1 Hnd; simpl.
  - by rewrite !app_nil_r.
  - assert (k ∉ (inDegreeOf q l1).*1) as Hfresh.
    { unfold inDegreeOf. rewrite <- list_fmap_compose.
      rewrite fmap_app in Hnd. apply NoDup_app in Hnd as (_ & Hdisj & _).
      intros Hin. apply (Hdisj k Hin). simpl. left. }
    rewrite (inDegreeStep_count q k _ _ 0).
    2: { rewrite OMapFacts.get_app_fresh by done. simpl.
         by rewrite decide_True. }
    rewrite OMapFacts.set_app_fresh by done.
    replace (l1 ++ (k, e) :: l2) with ((l1 ++ [(k, e)]) ++ l2)
      by (by rewrite <- app_assoc).
    rewrite <- IH by (by rewrite <- app_assoc).
    f_equal. unfold inDegreeOf. rewrite fmap_app, <- app_assoc. simpl.
    unfold queuedDependencies. done.
Qed.

(** On a queue without repeated keys, [buildGraph] leaves in [inDegree]
    every digest, in insertion order, with the number of its queued
    dependencies. *)
Lemma buildGraph_inDegree (q : list (string * AccumulationEntry)) :
  NoDup (OMap.keys q) -> (buildGraph q).2 = inDegreeOf q q.
Proof.
  intros Hnd. unfold buildGraph. rewrite buildGraph_fold_snd.
  unfold initGraph. rewrite initGraph_snd_gen by done. simpl.
  apply (inDegree_fold q [] q). done.
Qed.

Lemma initialQueue_inDegreeOf (q l : list (string * AccumulationEntry)) :
  initialQueue (inDegreeOf q l)
  = (filter (fun kv => noQueuedDependency q kv.2) l).*1.
Proof.
  unfold initialQueue, inDegreeOf.
  induction l as [|[k e] l IH]; [done |].
  rewrite fmap_cons, !filter_cons. simpl.
  assert (Z.of_nat (length (queuedDependencies q e)) = 0
          <-> noQueuedDependency q e) as Hiff.
  { unfold queuedDependencies, noQueuedDependency.
    induction (dependencies (queuedReport e)) as [|dep deps IHd].
    - split; [constructor | done].
    - rewrite filter_cons, Forall_cons.
      destruct (decide (is_Some (OMap.get dep q))) as [Hd|Hd]; simpl.
      + split; [lia | intros [Hn _]; done].
      + rewrite IHd. split; [by intros Hf; split | by intros [_ Hf]]. }
  destruct (decide (Z.of_nat (length (queuedDependencies q e)) = 0)) as [Hz|Hz];
    destruct (decide (noQueuedDependency q e)) as [Hn|Hn];
    rewrite ?fmap_cons, ?IH; try done; tauto.
Qed.

End SortProperties.

(** C4, amended. [topologicalSort] breaks ties by the insertion order of
    omega, not by the lexicographic order of the digests: on a queue (without
    repeated keys, as in a [Map]) the sort terminates and its result starts
    with all the digests that have no queued dependency, in the order in which
    the queue holds them. *)
Theorem topologicalSort_insertion_order (q : list (string * AccumulationEntry)) :
  NoDup (OMap.keys q) ->
  exists later,
    topologicalSort_opt q = Some (roots q ++ later)
    /\ topologicalSort q = roots q ++ later.
Proof.
  intros Hnd. pose proof (topologicalSort_terminates q) as Hterm.
  assert (exists later, topologicalSort q = roots q ++ later) as [later Hl].
  { unfold topologicalSort_opt in Hterm.
    pose proof (buildGraph_inDegree q Hnd) as Hdeg.
    destruct (buildGraph q) as [graph inDegree]. simpl in Hdeg. subst inDegree.
    apply kahnLoop_extends in Hterm as [later Hl]; [| done].
    exists later. rewrite Hl. by rewrite initialQueue_inDegreeOf. }
  exists later. split; [by rewrite Hterm, Hl | done].
Qed.

(** C4, counterexample to the claim as stated: the same two independent
    reports, promoted in the two possible orders, give two queues with the
    same entries on which [topologicalSort] returns different sequences; on
    the first it returns the digest bb before the digest aa. *)
Lemma topologicalSort_counterexample :
  omegaAfter JS "bb" "aa" ≡ₚ omegaAfter JS "aa" "bb"
  /\ topologicalSort (omegaAfter JS "bb" "aa") = ["bb"; "aa"]%string
  /\ topologicalSort (omegaAfter JS "aa" "bb") = ["aa"; "bb"]%string
  /\ topologicalSort (omegaAfter JS "bb" "aa")
     <> topologicalSort (omegaAfter JS "aa" "bb").
Proof.
  split; [| split; [| split]].
  - vm_compute. apply Permutation_swap.
  - vm_compute. reflexivity.
  - vm_compute. reflexivity.
  - vm_compute. discriminate.
Qed.

Lemma topologicalSort_insertion_order_witness :
  NoDup (OMap.keys (omegaAfter JS "bb" "aa"))
  /\ exists later,
       topologicalSort (omegaAfter JS "bb" "aa") = ["bb"; "aa"]%string ++ later.
Proof.
  assert (NoDup (OMap.keys (omegaAfter JS "bb" "aa"))) as Hnd.
  { apply (bool_decide_unpack _). vm_compute. exact I. }
  split; [exact Hnd |].
  destruct (topologicalSort_insertion_order (omegaAfter JS "bb" "aa") Hnd)
    as [later [_ Hl]].
  exists later. exact Hl.
Defined.

(** C3, counterexample to the claim as stated: the report is ready in omega,
    its first transfer succeeds and its second fails; after the sweep the
    report is in psi_B with an accumulation_failed reason, and the global
    state is not the one of the start: Alice holds 900 instead of 1000. *)
Lemma accumulation_rollback_counterexample :
  let d := "PVM_OUTPUT_T"%string in
  let S0 := bankQueued JS in
  let S1 := processAccumulationQueue (H := demoExternals) JS S0 101 in
  (status <$> OMap.get d (omega S0)) = Some ready
  /\ (balance <$> accounts (globalState S0) !! "0xAlice"%string) = Some 1000
  /\ (balance <$> accounts (globalState S1) !! "0xAlice"%string) = Some 900
  /\ String.prefix "accumulation_failed: "
       (default EmptyString (reason <$> psi_B S1 !! d)) = true
  /\ globalState S1 <> globalState S0.
Proof.
  intros d S0 S1.
  assert ((balance <$> accounts (globalState S0) !! "0xAlice"%string) = Some 1000)
    as H0 by (vm_compute; reflexivity).
  assert ((balance <$> accounts (globalState S1) !! "0xAlice"%string) = Some 900)
    as H1 by (vm_compute; reflexivity).
  split; [vm_compute; reflexivity |].
  split; [exact H0 |]. split; [exact H1 |].
  split; [vm_compute; reflexivity |].
  intros Heq. rewrite Heq, H0 in H1. discriminate H1.
Qed.

(** The same run in the TypeScript implementation. *)
Lemma accumulation_rollback_counterexample_ts :
  let S0 := bankQueued TS in
  let S1 := processAccumulationQueue (H := demoExternals) TS S0 101 in
  (balance <$> accounts (globalState S0) !! "0xAlice"%string) = Some 1000
  /\ (balance <$> accounts (globalState S1) !! "0xAlice"%string) = Some 900.
Proof. split; vm_compute; reflexivity. Qed.

Lemma accumulation_failure_keeps_partial_deltas_witness :
  let S0 := bankQueued JS in
  let gs1 := (runWorkItems (H := demoExternals) JS
                [demoItem "wi-1" (transferJSON "0xAlice" "0xBob" 100) "0xtransfer"]
                (globalState S0)).1 in
  globalState (accumulateReport (H := demoExternals) JS 101 S0 "PVM_OUTPUT_T")
  = gs1
  /\ (balance <$> accounts gs1 !! "0xAlice"%string) = Some 900.
Proof.
  intros S0 gs1. split; [| vm_compute; reflexivity].
  rewrite (accumulation_failure_keeps_partial_deltas (H := demoExternals)
             JS 101 S0 "PVM_OUTPUT_T"
             {| queuedReport := soloReport "PVM_OUTPUT_T" transferItems;
                status := ready |}
             [demoItem "wi-1" (transferJSON "0xAlice" "0xBob" 100) "0xtransfer"]
             []
             (demoItem "wi-2" (transferJSON "0xAlice" "0xBob" 5000) "0xtransfer")
             gs1
             (thrownMessage
                (simulatePsiAPVM (H := demoExternals)
                   (demoItem "wi-2" (transferJSON "0xAlice" "0xBob" 5000)
                      "0xtransfer") gs1))).
  - reflexivity.
  - vm_compute. reflexivity.
  - reflexivity.
  - reflexivity.
  - vm_compute. reflexivity.
  - vm_compute. reflexivity.
Defined.

Lemma history_immutability_witness :
  processDisputeExtrinsic
    {| disputedDigestHash := "PVM_OUTPUT_1"; disputerPublicKey := "g2";
       disputeReason := "bad_output" |} finalizedState 101
  = Ok {| rho := ∅; omega := [];
          xi := {[ "PVM_OUTPUT_1"%string := demoReport "g1" ]};
          psi_B := {[ "PVM_OUTPUT_1"%string :=
                       {| reason := "bad_output";
                          disputedBy := {["g2"%string]} |} ]};
          psi_O := {[ "g1"%string :=
                       {| disputeCount := 1; lastDisputeSlot := 101 |} ]};
          globalState := emptyGlobalState |}.
Proof.
  destruct (history_immutability (H := demoExternals) JS finalizedState 101
              "PVM_OUTPUT_1" (demoReport "g1") ltac:(vm_compute; reflexivity))
    as (_ & _ & _ & _ & Hlate).
  apply (Hlate {| disputedDigestHash := "PVM_OUTPUT_1";
                  disputerPublicKey := "g2";
                  disputeReason := "bad_output" |});
    vm_compute; reflexivity.
Defined.

(** * Further properties *)

(** ** What an accepted report satisfies *)

Section AcceptedReports.
Context `{Externals}.

Lemma checkDependencies_Ok (S : OnchainState) (cbd : list WorkDigest)
    (deps : list string) :
  checkDependencies S cbd deps = Ok tt <->
  Forall (fun dep => is_Some (xi S !! dep) \/ is_Some (rho S !! dep)
                     \/ dep ∈ hash <$> cbd) deps.
Proof.
  induction deps as [|dep deps IH]; simpl.
  - split; [constructor | done].
  - rewrite Forall_cons, <- IH.
    assert (existsb (fun d => bool_decide (hash d = dep)) cbd = true
            <-> dep ∈ hash <$> cbd) as Hcbd.
    { rewrite existsb_exists, list_elem_of_fmap.
      split.
      - intros [x [Hin Hx]]. apply bool_decide_eq_true in Hx.
        exists x. split; [done |]. by apply list_elem_of_In.
      - intros [x [-> Hin]]. exists x. split; [by apply list_elem_of_In |].
        by apply bool_decide_eq_true. }
    destruct (bool_decide (is_Some (xi S !! dep))) eqn:Hx; simpl.
    { apply bool_decide_eq_true in Hx. tauto. }
    apply bool_decide_eq_false in Hx.
    destruct (bool_decide (is_Some (rho S !! dep))) eqn:Hr; simpl.
    { apply bool_decide_eq_true in Hr. tauto. }
    apply bool_decide_eq_false in Hr.
    destruct (existsb _ cbd) eqn:Hc.
    { tauto. }
    split; [done |]. intros [[?|[?|Hin]] _]; try done.
    apply Hcbd in Hin. done.
Qed.

Lemma validateWorkReport_Ok_inv (impl : Impl) (R : WorkReport)
    (S : OnchainState) (s : Z) (cbd : list WorkDigest) :
  validateWorkReport impl R S s cbd = Ok tt ->
  let ctx := refinementContext R in
  let epoch := slot R / REPORT_TIMEOUT_SLOTS in
  (exists pk, base64ToPublicKey (guarantorPublicKey R) = Ok pk
              /\ verifySignature R (guarantorSignature R) pk = true)
  /\ s - anchorBlockNumber ctx <= ANCHOR_MAX_AGE_SLOTS
  /\ (impl = JS -> 0 <= coreIndex R <= MAX_CORE_INDEX)
  /\ (impl = TS ->
      forall expected,
        serviceRegistry (globalState S)
          !! AuthorizationServiceDetails.u
               (authorizationServiceDetails (workPackage R)) ≫= codeHash
        = Some expected ->
        expected <> EmptyString ->
        programHash <$> head (workItems (workPackage R)) = Some expected)
  /\ ((epoch = currentEpoch ctx /\ guarantorPublicKey R ∈ currentGuarantors ctx)
      \/ (epoch = currentEpoch ctx - 1
          /\ guarantorPublicKey R ∈ previousGuarantors ctx))
  /\ coreStatus (globalState S) !! coreIndex R <> Some "engaged"%string
  /\ slot R <= s <= slot R + REPORT_TIMEOUT_SLOTS
  /\ Z.of_nat (length (dependencies R)) <= MAX_DEPENDENCIES
  /\ Forall (fun dep => is_Some (xi S !! dep) \/ is_Some (rho S !! dep)
                        \/ dep ∈ hash <$> cbd) (dependencies R)
  /\ gasUsed R <= MAX_WORK_REPORT_GAS
  /\ Forall (fun item => MIN_SERVICE_ITEM_GAS <= gasLimit item)
       (workItems (workPackage R))
  /\ xi S !! hash (generateWorkDigest R) = None.
Proof.
  intros Hv ctx epoch. subst ctx epoch. unfold validateWorkReport in Hv.
  apply bind_Ok in Hv as [pk [Hpk Hv]].
  apply bind_Ok in Hv as [[] [Hsig Hv]]. apply throwIf_Ok in Hsig.
  cbv zeta in Hv.
  apply bind_Ok in Hv as [[] [Hanchor Hv]]. apply throwIf_Ok in Hanchor.
  apply bind_Ok in Hv as [[] [Hcore Hv]].
  apply bind_Ok in Hv as [[] [Hcode Hv]].
  apply bind_Ok in Hv as [[] [Hassign Hv]]. apply throwIf_Ok in Hassign.
  apply bind_Ok in Hv as [[] [Hengaged Hv]]. apply throwIf_Ok in Hengaged.
  apply bind_Ok in Hv as [[] [Hfuture Hv]]. apply throwIf_Ok in Hfuture.
  apply bind_Ok in Hv as [[] [Hold Hv]]. apply throwIf_Ok in Hold.
  apply bind_Ok in Hv as [[] [Hmany Hv]]. apply throwIf_Ok in Hmany.
  apply bind_Ok in Hv as [[] [Hdeps Hv]]. apply checkDependencies_Ok in Hdeps.
  apply bind_Ok in Hv as [[] [Hgas Hv]]. apply throwIf_Ok in Hgas.
  apply bind_Ok in Hv as [[] [Hitems Hv]]. apply throwIf_Ok in Hitems.
  apply throwIf_Ok in Hv.
  apply negb_false_iff in Hsig, Hassign.
  apply bool_decide_eq_false in Hanchor, Hengaged, Hfuture, Hold, Hmany, Hgas, Hv.
  unfold ANCHOR_MAX_AGE_SLOTS, REPORT_TIMEOUT_SLOTS, MAX_DEPENDENCIES,
    MAX_WORK_REPORT_GAS, MIN_SERVICE_ITEM_GAS, MAX_CORE_INDEX,
    Math_floor_div in *.
  split; [eauto |]. split; [lia |]. split.
  { intros ->. apply throwIf_Ok in Hcore. apply orb_false_iff in Hcore as [H1 H2].
    apply bool_decide_eq_false in H1, H2. lia. }
  split.
  { intros -> expected Hexp Hne. rewrite Hexp in Hcode.
    apply throwIf_Ok in Hcode. simpl in Hcode.
    rewrite bool_decide_eq_false_2 in Hcode by done. simpl in Hcode.
    apply negb_false_iff, bool_decide_eq_true in Hcode. done. }
  split.
  { apply orb_true_iff in Hassign as [Ha|Ha];
      apply andb_true_iff in Ha as [Hep Hin];
      apply bool_decide_eq_true in Hep, Hin; [left | right]; done. }
  split; [done |]. split; [lia |]. split; [lia |]. split; [done |].
  split; [lia |]. split.
  { apply Forall_forall. intros item Hin.
    destruct (decide (10 <= gasLimit item)) as [|Hlt]; [done |].
    assert (existsb (fun item => bool_decide (gasLimit item < 10))
              (workItems (workPackage R)) = true) as Hex; [| congruence].
    apply existsb_exists. exists item. split; [by apply list_elem_of_In |].
    apply bool_decide_eq_true. lia. }
  by apply eq_None_not_Some.
Qed.

(** X1. A report that [validateWorkReport] accepts satisfies every enabled
    check: its signature verifies, its anchor is at most ANCHOR_MAX_AGE_SLOTS
    old, its core index is in range (JavaScript), its first program hash is
    the one the service declares (TypeScript), its guarantor is in the roster
    of its epoch, its core is not engaged, its slot is neither in the future
    nor more than REPORT_TIMEOUT_SLOTS old, it has at most MAX_DEPENDENCIES
    dependencies, all of them known, its gas is within the bounds, and its
    digest is not finalized. *)
Theorem validateWorkReport_accepts (impl : Impl) (R : WorkReport)
    (S : OnchainState) (s : Z) (cbd : list WorkDigest) :
  validateWorkReport impl R S s cbd = Ok tt ->
  let ctx := refinementContext R in
  let epoch := slot R / REPORT_TIMEOUT_SLOTS in
  (exists pk, base64ToPublicKey (guarantorPublicKey R) = Ok pk
              /\ verifySignature R (guarantorSignature R) pk = true)
  /\ s - anchorBlockNumber ctx <= ANCHOR_MAX_AGE_SLOTS
  /\ (impl = JS -> 0 <= coreIndex R <= MAX_CORE_INDEX)
  /\ (impl = TS ->
      forall expected,
        serviceRegistry (globalState S)
          !! AuthorizationServiceDetails.u
               (authorizationServiceDetails (workPackage R)) ≫= codeHash
        = Some expected ->
        expected <> EmptyString ->
        programHash <$> head (workItems (workPackage R)) = Some expected)
  /\ ((epoch = currentEpoch ctx /\ guarantorPublicKey R ∈ currentGuarantors ctx)
      \/ (epoch = currentEpoch ctx - 1
          /\ guarantorPublicKey R ∈ previousGuarantors ctx))
  /\ coreStatus (globalState S) !! coreIndex R <> Some "engaged"%string
  /\ slot R <= s <= slot R + REPORT_TIMEOUT_SLOTS
  /\ Z.of_nat (length (dependencies R)) <= MAX_DEPENDENCIES
  /\ Forall (fun dep => is_Some (xi S !! dep) \/ is_Some (rho S !! dep)
                        \/ dep ∈ hash <$> cbd) (dependencies R)
  /\ gasUsed R <= MAX_WORK_REPORT_GAS
  /\ Forall (fun item => MIN_SERVICE_ITEM_GAS <= gasLimit item)
       (workItems (workPackage R))
  /\ xi S !! hash (generateWorkDigest R) = None.
Proof. apply validateWorkReport_Ok_inv. Qed.

End AcceptedReports.

Lemma validateWorkReport_accepts_witness :
  validateWorkReport (H := demoExternals) JS (demoReport "g1") emptyState 100 []
  = Ok tt
  /\ slot (demoReport "g1") <= 100 <= slot (demoReport "g1") + REPORT_TIMEOUT_SLOTS.
Proof.
  assert (validateWorkReport (H := demoExternals) JS (demoReport "g1")
            emptyState 100 [] = Ok tt) as Hv by (vm_compute; reflexivity).
  split; [exact Hv |].
  apply (validateWorkReport_accepts (H := demoExternals) JS (demoReport "g1")
           emptyState 100 [] Hv).
Defined.

(** ** More facts on insertion-ordered maps *)

Module OMapKeys.
Section facts.
Context {V : Type}.
Implicit Types (m : list (string * V)) (k : string) (v : V).

Lemma get_is_Some k m : is_Some (OMap.get k m) <-> k ∈ OMap.keys m.
Proof.
  unfold OMap.keys. induction m as [|[k' v'] m IH]; simpl.
  - split; [by intros [? ?] | by intros ?%elem_of_nil].
  - rewrite elem_of_cons. destruct (decide (k = k')) as [->|Hne].
    + split; [by left | eauto].
    + rewrite IH. split; [by right | by intros [?|?]].
Qed.

Lemma get_Some_elem k v m : OMap.get k m = Some v -> (k, v) ∈ m.
Proof.
  induction m as [|[k' v'] m IH]; simpl; [done |].
  destruct (decide (k = k')) as [->|Hne].
  - intros [= ->]. left.
  - intros Hm. right. by apply IH.
Qed.

Lemma keys_set_in k v m :
  k ∈ OMap.keys m -> OMap.keys (OMap.set k v m) = OMap.keys m.
Proof.
  unfold OMap.keys. induction m as [|[k' v'] m IH]; simpl.
  - by intros ?%elem_of_nil.
  - destruct (decide (k = k')) as [->|Hne]; [done |].
    intros [?|Hin]%elem_of_cons; [done |]. cbn. f_equal. by apply IH.
Qed.

Lemma keys_set_notin k v m :
  k ∉ OMap.keys m -> OMap.keys (OMap.set k v m) = OMap.keys m ++ [k].
Proof.
  intros Hk. unfold OMap.keys. rewrite OMapFacts.set_fresh by done.
  by rewrite fmap_app.
Qed.

Lemma NoDup_keys_set k v m :
  NoDup (OMap.keys m) -> NoDup (OMap.keys (OMap.set k v m)).
Proof.
  intros Hnd. destruct (decide (k ∈ OMap.keys m)) as [Hin|Hnin].
  - by rewrite keys_set_in.
  - rewrite keys_set_notin by done.
    apply NoDup_app. split; [done |]. split.
    + intros x Hx Hk. apply list_elem_of_singleton in Hk. by subst.
    + apply NoDup_singleton.
Qed.

Lemma keys_delete_sublist k m :
  OMap.keys (OMap.delete k m) `sublist_of` OMap.keys m.
Proof.
  unfold OMap.keys, OMap.delete. induction m as [|[k' v'] m IH]; [done |].
  rewrite filter_cons. destruct (decide _); simpl.
  - by apply sublist_skip.
  - by apply sublist_cons.
Qed.

Lemma NoDup_keys_delete k m :
  NoDup (OMap.keys m) -> NoDup (OMap.keys (OMap.delete k m)).
Proof.
  intros Hnd. exact (sublist_NoDup _ _ Hnd (keys_delete_sublist k m)).
Qed.

Lemma Forall_set (P : string * V -> Prop) k v m :
  P (k, v) -> Forall P m -> Forall P (OMap.set k v m).
Proof.
  intros Hkv. induction m as [|[k' v'] m IH]; simpl.
  - by repeat constructor.
  - intros [Hhd Htl]%Forall_cons. destruct (decide (k = k')).
    + by constructor.
    + constructor; [done | by apply IH].
Qed.

Lemma Forall_delete (P : string * V -> Prop) k m :
  Forall P m -> Forall P (OMap.delete k m).
Proof.
  unfold OMap.delete. rewrite !Forall_forall. intros Hm x Hx.
  apply list_elem_of_filter in Hx as [_ Hx]. by apply Hm.
Qed.

Lemma get_delete_Some k k' m :
  is_Some (OMap.get k' (OMap.delete k m)) ->
  k' <> k /\ is_Some (OMap.get k' m).
Proof.
  destruct (decide (k = k')) as [->|Hne].
  - rewrite OMapFacts.get_delete_eq. by intros [? ?].
  - by rewrite OMapFacts.get_delete_ne.
Qed.

End facts.
End OMapKeys.

(** ** Frames and invariants of the processors *)

Lemma offendersGrow_refl (p : gmap string OffenderRecord) : offendersGrow p p.
Proof. intros g o Hg. exists o. split; [done | lia]. Qed.

Lemma offendersGrow_trans (p1 p2 p3 : gmap string OffenderRecord) :
  offendersGrow p1 p2 -> offendersGrow p2 p3 -> offendersGrow p1 p3.
Proof.
  intros H12 H23 g o Hg. destruct (H12 g o Hg) as [o2 [Hg2 Hle2]].
  destruct (H23 g o2 Hg2) as [o3 [Hg3 Hle3]]. exists o3. split; [done | lia].
Qed.

Lemma chargeOffender_grows (p : gmap string OffenderRecord) (k : string) (s : Z) :
  offendersGrow p (chargeOffender p k s).
Proof.
  intros g o Hg. rewrite chargeOffender_eq.
  destruct (decide (k = g)) as [->|Hne].
  - rewrite lookup_insert_eq, Hg. eexists. split; [done |]. simpl. lia.
  - rewrite lookup_insert_ne by done. exists o. split; [done | lia].
Qed.


Section ProcessorInvariants.
Context `{Externals}.

(** The three shapes of the state after a guarantee. *)
Lemma processGuarantee_cases (impl : Impl) (R : WorkReport)
    (S : OnchainState) (s : Z) (cbd : list WorkDigest) :
  let d := hash (generateWorkDigest R) in
  let S' := (processGuaranteeExtrinsic impl R S s cbd).2 in
  (exists message,
     validateWorkReport impl R S s cbd = Throw message
     /\ S' = with_psi_O
               (with_psi_B S
                  (<[d := {| reason := message;
                             disputedBy := {["system_validation"%string]} |}]>
                     (psi_B S)))
               (chargeOffender (psi_O S) (guarantorPublicKey R) s))
  \/ (validateWorkReport impl R S s cbd = Ok tt
      /\ exists rho',
           delete d rho' = delete d (rho S)
           /\ (S' = with_rho S rho'
               \/ S' = with_omega (with_rho S (delete d (rho S)))
                         (OMap.set d {| queuedReport := R; status := ready |}
                            (omega S))
               \/ S' = with_psi_B (with_rho S (delete d (rho S)))
                         (<[d := {| reason := "timed_out";
                                    disputedBy := {["system_timeout"%string]} |}]>
                            (psi_B S)))).
Proof.
  intros d S'. subst S'.
  destruct (validateWorkReport impl R S s cbd) as [[]|message] eqn:Hv.
  2: { left. exists message. split; [done |].
       unfold processGuaranteeExtrinsic. by rewrite Hv. }
  right. split; [done |].
  destruct (decide (addsNewSignature R S d)) as [Hnew|Hold].
  - rewrite (processGuarantee_new_signature impl R S s cbd Hv Hnew). fold d.
    exists (<[d := mergedEntry R S s d]> (rho S)).
    rewrite delete_insert_eq. split; [done |].
    destruct (bool_decide (_ >= _)); [right; left; reflexivity |].
    destruct (bool_decide (_ > _)); [right; right; reflexivity |].
    left. reflexivity.
  - exists (rho S). split; [done |]. left.
    unfold addsNewSignature in Hold. unfold processGuaranteeExtrinsic.
    rewrite Hv. fold d. destruct (rho S !! d) as [e|]; [| done].
    apply dec_stable in Hold. rewrite bool_decide_eq_true_2 by done.
    by destruct S.
Qed.

(** What a dispute does, in one equation.  A dispute against a digest
    that is in none of rho, omega and xi changes nothing.  Otherwise the
    digest leaves rho and omega (xi is never touched), the disputer joins
    [disputedBy] of psi_B[d] (a new record takes the reason of the dispute,
    an existing one keeps its own), and the guarantor of the disputed report
    (the queued one, else the pending one, else the finalized one) is
    charged.  [processDisputeExtrinsic] never throws. *)
Lemma processDispute_eq (dispute : DisputeExtrinsic) (S : OnchainState)
    (s : Z) :
  let d := disputedDigestHash dispute in
  processDisputeExtrinsic dispute S s =
    match disputedReportOf S d with
    | None => Ok S
    | Some r =>
        Ok {| rho := delete d (rho S);
              omega := OMap.delete d (omega S);
              xi := xi S;
              psi_B :=
                <[d := match psi_B S !! d with
                       | Some b =>
                           {| reason := reason b;
                              disputedBy := disputedBy b
                                            ∪ {[disputerPublicKey dispute]} |}
                       | None =>
                           {| reason := disputeReason dispute;
                              disputedBy := {[disputerPublicKey dispute]} |}
                       end]> (psi_B S);
              psi_O := chargeOffender (psi_O S) (guarantorPublicKey r) s;
              globalState := globalState S |}
    end.
Proof.
  intros d. unfold processDisputeExtrinsic, getReportByDigest, disputedReportOf.
  fold d.
  destruct (xi S !! d) as [r|] eqn:Hxi;
    destruct (rho S !! d) as [e|] eqn:Hrho;
    destruct (OMap.get d (omega S)) as [q|] eqn:Hom;
    simpl; rewrite ?Hom, ?Hxi; simpl; rewrite ?Hxi; simpl;
    try (destruct S; reflexivity);
    rewrite ?(delete_id _ _ Hrho), ?(OMapFacts.delete_absent _ _ Hom);
    destruct (psi_B S !! d); reflexivity.
Qed.

(** X2. A guarantee touches the buckets only at the digest of its report, and
    the offender ledger only at its guarantor; it never changes xi or the
    global state. *)
Theorem processGuarantee_frame (impl : Impl) (R : WorkReport)
    (S : OnchainState) (s : Z) (cbd : list WorkDigest) :
  let d := hash (generateWorkDigest R) in
  let S' := (processGuaranteeExtrinsic impl R S s cbd).2 in
  delete d (rho S') = delete d (rho S)
  /\ OMap.delete d (omega S') = OMap.delete d (omega S)
  /\ xi S' = xi S
  /\ delete d (psi_B S') = delete d (psi_B S)
  /\ delete (guarantorPublicKey R) (psi_O S')
     = delete (guarantorPublicKey R) (psi_O S)
  /\ globalState S' = globalState S.
Proof.
  intros d S'.
  destruct (processGuarantee_cases impl R S s cbd)
    as [[message [_ HS]] | [_ [rho' [Hrho [HS | [HS | HS]]]]]];
    fold d in HS; fold S' in HS; rewrite HS; simpl;
    rewrite ?chargeOffender_eq, ?delete_insert_eq, ?delete_delete_eq,
      ?OMapFacts.delete_set_eq; done.
Qed.

(** X3. The offender ledger only grows: no processor removes a record or
    lowers a dispute count. *)
Theorem offender_ledger_monotone (impl : Impl) (S : OnchainState) (s : Z) :
  (forall R cbd,
     offendersGrow (psi_O S)
       (psi_O (processGuaranteeExtrinsic impl R S s cbd).2))
  /\ (forall dispute,
        exists S', processDisputeExtrinsic dispute S s = Ok S'
                   /\ offendersGrow (psi_O S) (psi_O S'))
  /\ (forall assuranceData,
        offendersGrow (psi_O S)
          (psi_O (processAssuranceExtrinsic assuranceData S s)))
  /\ offendersGrow (psi_O S) (psi_O (processAccumulationQueue impl S s)).
Proof.
  split; [| split; [| split]].
  - intros R cbd.
    destruct (processGuarantee_cases impl R S s cbd)
      as [[message [_ HS]] | [_ [rho' [Hrho [HS | [HS | HS]]]]]];
      rewrite HS; simpl;
      first [apply chargeOffender_grows | apply offendersGrow_refl].
  - intros dispute. rewrite processDispute_eq.
    destruct (disputedReportOf S _); eexists; (split; [reflexivity |]); simpl;
      first [apply chargeOffender_grows | apply offendersGrow_refl].
  - intros assuranceData. apply offendersGrow_refl.
  - unfold processAccumulationQueue.
    generalize (topologicalSort (omega S)) as order. intros order.
    assert (forall S0, offendersGrow (psi_O S0)
              (psi_O (fold_left (accumulateReport impl s) order S0))) as Hfold;
      [| apply Hfold].
    induction order as [|k order IH]; intros S0; [apply offendersGrow_refl |].
    simpl. eapply offendersGrow_trans; [| apply IH].
    unfold accumulateReport.
    destruct (OMap.get k (omega S0)) as [entry|]; [| apply offendersGrow_refl].
    destruct (decide _); [| apply offendersGrow_refl].
    destruct (runWorkItems _ _ _) as [gs [message|]]; simpl;
      first [apply chargeOffender_grows | apply offendersGrow_refl].
Qed.

End ProcessorInvariants.


Section QueueInvariants.
Context `{Externals}.

Lemma queueInvariant_guarantee (impl : Impl) (R : WorkReport)
    (S : OnchainState) (s : Z) (cbd : list WorkDigest) :
  queueInvariant S ->
  queueInvariant (processGuaranteeExtrinsic impl R S s cbd).2.
Proof.
  intros (Hnd & Hready & Hdisj).
  destruct (processGuarantee_cases impl R S s cbd)
    as [[message [_ HS]] | [Hv [rho' [Hrho [HS | [HS | HS]]]]]];
    rewrite HS; try (split; [| split]; done).
  split; [| split]; simpl.
  - by apply OMapKeys.NoDup_keys_set.
  - by apply OMapKeys.Forall_set.
  - intros d Hd. simpl in *.
    destruct (decide (hash (generateWorkDigest R) = d)) as [<-|Hne].
    + by apply (validateWorkReport_Ok_inv impl R S s cbd Hv).
    + rewrite OMapFacts.get_set_ne in Hd by done. by apply Hdisj.
Qed.

Lemma queueInvariant_dispute (dispute : DisputeExtrinsic) (S S' : OnchainState)
    (s : Z) :
  queueInvariant S ->
  processDisputeExtrinsic dispute S s = Ok S' ->
  queueInvariant S'.
Proof.
  intros (Hnd & Hready & Hdisj). rewrite processDispute_eq.
  destruct (disputedReportOf S _); intros [= <-]; [| done].
  split; [| split]; simpl.
  - by apply OMapKeys.NoDup_keys_delete.
  - by apply OMapKeys.Forall_delete.
  - intros d Hd. simpl in *. apply OMapKeys.get_delete_Some in Hd as [_ Hd].
    by apply Hdisj.
Qed.

Lemma queueInvariant_accumulateReport (impl : Impl) (s : Z)
    (S : OnchainState) (k : string) :
  queueInvariant S -> queueInvariant (accumulateReport impl s S k).
Proof.
  intros (Hnd & Hready & Hdisj). unfold accumulateReport.
  destruct (OMap.get k (omega S)) as [entry|] eqn:Hk; [| done].
  destruct (decide _); [| done].
  destruct (runWorkItems _ _ _) as [gs [message|]]; simpl;
    rewrite OMapFacts.delete_set_eq;
    (split; [by apply OMapKeys.NoDup_keys_delete |]);
    (split; [by apply OMapKeys.Forall_delete |]);
    intros d Hd; simpl in *;
    apply OMapKeys.get_delete_Some in Hd as [Hne Hd].
  - by apply Hdisj.
  - rewrite lookup_insert_ne by done. by apply Hdisj.
Qed.

Lemma queueInvariant_accumulation (impl : Impl) (S : OnchainState) (s : Z) :
  queueInvariant S -> queueInvariant (processAccumulationQueue impl S s).
Proof.
  unfold processAccumulationQueue.
  generalize (topologicalSort (omega S)) as order. intros order. revert S.
  induction order as [|k order IH]; intros S HS; [done |].
  simpl. apply IH. by apply queueInvariant_accumulateReport.
Qed.

Lemma reachable_queueInvariant (impl : Impl) (S : OnchainState) :
  reachable impl S -> queueInvariant S.
Proof.
  induction 1 as [S (Hrho & Hom & Hxi) | | | |].
  - unfold queueInvariant, queueAllReady, queueHistoryDisjoint.
    rewrite Hom. split; [constructor |]. split; [constructor |].
    intros d [? Hd]. done.
  - by apply queueInvariant_guarantee.
  - by eapply queueInvariant_dispute.
  - done.
  - by apply queueInvariant_accumulation.
Qed.

(** X4. The part of bucket disjointness that the code keeps: in every state
    that the processors reach from a state without reports, no digest is in
    omega and in xi at once. *)
Theorem reachable_queue_history_disjoint (impl : Impl) (S : OnchainState) :
  reachable impl S ->
  forall d, is_Some (OMap.get d (omega S)) -> xi S !! d = None.
Proof. intros HS. by apply reachable_queueInvariant in HS as (_ & _ & Hd). Qed.

(** X5. In every reachable state the accumulation queue has no repeated key
    and all its entries have status [ready]: the statuses [pending] and
    [processing] never survive a processor call. *)
Theorem reachable_queue_ready (impl : Impl) (S : OnchainState) :
  reachable impl S ->
  NoDup (OMap.keys (omega S))
  /\ forall d e, OMap.get d (omega S) = Some e -> status e = ready.
Proof.
  intros HS. apply reachable_queueInvariant in HS as (Hnd & Hready & _).
  split; [done |]. intros d e Hd. apply OMapKeys.get_Some_elem in Hd.
  unfold queueAllReady in Hready. rewrite Forall_forall in Hready.
  by apply (Hready (d, e)).
Qed.

End QueueInvariants.

Section AccumulationProperties.
Context `{Externals}.



Lemma accumulateReport_conserves (impl : Impl) (s : Z) (S : OnchainState)
    (k : string) :
  rho (accumulateReport impl s S k) = rho S
  /\ OMap.keys (omega (accumulateReport impl s S k))
       `sublist_of` OMap.keys (omega S)
  /\ forall d, accountedFor S d -> accountedFor (accumulateReport impl s S k) d.
Proof.
  unfold accumulateReport.
  destruct (OMap.get k (omega S)) as [entry|] eqn:Hk; [| done].
  destruct (decide _); [| done].
  destruct (runWorkItems _ _ _) as [gs [message|]]; simpl;
    rewrite OMapFacts.delete_set_eq;
    (split; [done |]); (split; [apply OMapKeys.keys_delete_sublist |]);
    intros d; unfold accountedFor; simpl;
    (destruct (decide (k = d)) as [->|Hne];
     [ rewrite ?lookup_insert_eq; eauto
     | rewrite ?lookup_insert_ne, OMapFacts.get_delete_ne by done; done ]).
Qed.

(** X19. The accumulation sweep loses no report and never touches rho: the
    queue only shrinks (the entries that stay keep their order), and every
    digest that was queued, finalized or recorded as bad before the sweep is
    queued, finalized or recorded as bad after it. *)
Theorem accumulation_conserves_reports (impl : Impl) (S : OnchainState) (s : Z) :
  let S' := processAccumulationQueue impl S s in
  rho S' = rho S
  /\ OMap.keys (omega S') `sublist_of` OMap.keys (omega S)
  /\ forall d,
       is_Some (OMap.get d (omega S)) \/ is_Some (xi S !! d)
       \/ is_Some (psi_B S !! d) ->
       is_Some (OMap.get d (omega S')) \/ is_Some (xi S' !! d)
       \/ is_Some (psi_B S' !! d).
Proof.
  unfold processAccumulationQueue.
  generalize (topologicalSort (omega S)) as order. intros order. revert S.
  induction order as [|k order IH]; intros S; [done |].
  simpl. destruct (IH (accumulateReport impl s S k)) as (Hrho & Hkeys & Hacc).
  destruct (accumulateReport_conserves impl s S k) as (Hrho1 & Hkeys1 & Hacc1).
  split; [congruence |]. split; [by etrans |].
  intros d Hd. apply Hacc. by apply Hacc1.
Qed.

End AccumulationProperties.


Section SimulatorProperties.
Context `{Externals}.

(** X21. A work item whose gas limit is below 10 never executes: the cheapest
    program consumes 10 gas. *)
Theorem simulatePsiAPVM_low_gas (w : WorkItem) (gs : GlobalState) :
  gasLimit w < 10 ->
  exists message, simulatePsiAPVM w gs = Throw message.
Proof.
  intros Hgas. unfold simulatePsiAPVM.
  destruct (bool_decide (programHash w = "0xtransfer"%string)).
  - destruct (JSON_parse_transfer (inputData w)) as [[[from to] amount]|msg];
      simpl; [| eauto].
    destruct (accounts gs !! from) as [a|]; simpl; [| eauto].
    destruct (bool_decide (balance a >= amount)); simpl; [| eauto].
    rewrite bool_decide_eq_true_2 by lia. simpl. eauto.
  - destruct (bool_decide (programHash w = "0xupdateData"%string)).
    + destruct (JSON_parse_updateData (inputData w)) as [[key value]|msg];
        simpl; [| eauto].
      rewrite bool_decide_eq_true_2 by lia. simpl. eauto.
    + simpl. rewrite bool_decide_eq_true_2 by lia. simpl. eauto.
Qed.



(** X22. A transfer that the simulator accepts: the sender exists and holds at
    least the amount, and the gas limit is at least 50.  The delta then
    carries the whole account table, unchanged except at the two parties:
    between two different accounts the sender loses the amount and the
    receiver (created at 0 when absent) gains it; when the sender is the
    receiver, the balance grows by the amount. *)
Theorem simulatePsiAPVM_transfer (w : WorkItem) (gs : GlobalState)
    (from to : string) (amount : Z) (sender : Account) :
  programHash w = "0xtransfer"%string ->
  JSON_parse_transfer (inputData w) = Ok (from, to, amount) ->
  accounts gs !! from = Some sender ->
  amount <= balance sender ->
  50 <= gasLimit w ->
  exists table,
    simulatePsiAPVM w gs
    = Ok {| delta_accounts := Some table; delta_data := None;
            delta_log := None |}
    /\ (forall k, k <> from -> k <> to -> table !! k = accounts gs !! k)
    /\ (balance <$> table !! to)
       = Some (default 0 (balance <$> accounts gs !! to) + amount)
    /\ (from <> to ->
        (balance <$> table !! from) = Some (balance sender - amount)).
Proof.
  intros Hprog Hparse Hfrom Hbal Hgas. unfold simulatePsiAPVM.
  rewrite bool_decide_eq_true_2 by done. rewrite Hparse. simpl.
  rewrite Hfrom. rewrite bool_decide_eq_true_2 by lia. simpl.
  rewrite bool_decide_eq_false_2 by lia. simpl.
  eexists. split; [reflexivity |]. split; [| split].
  - intros k Hkf Hkt. by rewrite !lookup_insert_ne.
  - by rewrite lookup_insert_eq.
  - intros Hne. rewrite lookup_insert_ne by done. by rewrite lookup_insert_eq.
Qed.

(** X23. A transfer never overdraws and never invents a sender: when the
    sender is unknown or holds less than the amount, the simulator throws and
    yields no delta. *)
Theorem simulatePsiAPVM_transfer_refused (w : WorkItem) (gs : GlobalState)
    (from to : string) (amount : Z) :
  programHash w = "0xtransfer"%string ->
  JSON_parse_transfer (inputData w) = Ok (from, to, amount) ->
  (forall sender, accounts gs !! from = Some sender -> balance sender < amount) ->
  simulatePsiAPVM w gs =
    Throw ("Ψ_A PVM execution failed for Work-Item " +:+ itemId w +:+ ": "
           +:+ "Insufficient balance or invalid accounts for transfer.").
Proof.
  intros Hprog Hparse Hbal. unfold simulatePsiAPVM.
  rewrite bool_decide_eq_true_2 by done. rewrite Hparse. simpl.
  destruct (accounts gs !! from) as [a|]; simpl in *; [| done].
  specialize (Hbal a eq_refl).
  rewrite bool_decide_eq_false_2 by lia. done.
Qed.



End SimulatorProperties.

(** X9. The promotion threshold is the least number of signatures [k] with
    [3 k >= 2 N], where [N] is the size of the two rosters together; it never
    exceeds [N], so that a full roster can always promote a report. *)
Theorem requiredSignatures_bounds (R : WorkReport) :
  let N := Z.of_nat (length (currentGuarantors (refinementContext R)))
           + Z.of_nat (length (previousGuarantors (refinementContext R))) in
  2 * N <= 3 * requiredSignatures R < 2 * N + 3
  /\ 0 <= requiredSignatures R <= N.
Proof.
  intros N. rewrite requiredSignatures_eq. fold N.
  pose proof (Math_ceil_div_le (N * 2) 3 (Math_ceil_div (N * 2) 3)
                ltac:(lia)) as [Hle _].
  pose proof (Math_ceil_div_gt (N * 2) 3 (Math_ceil_div (N * 2) 3 - 1)
                ltac:(lia)) as [Hgt _].
  pose proof (Math_ceil_div_le (N * 2) 3 N ltac:(lia)) as [_ HN].
  assert (0 <= N) by lia. lia.
Qed.

(** X10. The off-chain lookup and the on-chain dependency check agree: a list
    of dependencies passes [historicalLookup] exactly when
    [validateWorkReport]'s dependency loop accepts it without the digests of
    the current block, and then the loop accepts it with any such digests. *)
Theorem historicalLookup_checkDependencies (deps : list string)
    (S : OnchainState) :
  (historicalLookup deps S = true <-> checkDependencies S [] deps = Ok tt)
  /\ (historicalLookup deps S = true ->
      forall cbd, checkDependencies S cbd deps = Ok tt).
Proof.
  assert (forall cbd, historicalLookup deps S = true ->
                      checkDependencies S cbd deps = Ok tt) as Hall.
  { intros cbd. induction deps as [|dep deps IH]; simpl; [done |].
    destruct (bool_decide (is_Some (xi S !! dep))); simpl; [exact IH |].
    destruct (bool_decide (is_Some (rho S !! dep))); simpl; [exact IH | done]. }
  split; [| intros Hl cbd; by apply Hall].
  split; [apply Hall |]. clear Hall.
  induction deps as [|dep deps IH]; simpl; [done |].
  destruct (bool_decide (is_Some (xi S !! dep))); simpl; [exact IH |].
  destruct (bool_decide (is_Some (rho S !! dep))); simpl; [exact IH | done].
Qed.

Section KahnProperties.

Lemma OSet_elem_of_add (x y : string) (s : list string) :
  y ∈ OSet.add x s <-> y = x \/ y ∈ s.
Proof.
  unfold OSet.add. case_bool_decide as Hx.
  - split; [by right | intros [-> | Hy]; done].
  - rewrite elem_of_app, list_elem_of_singleton. tauto.
Qed.

Lemma OSet_NoDup_add (x : string) (s : list string) :
  NoDup s -> NoDup (OSet.add x s).
Proof.
  intros Hs. unfold OSet.add. case_bool_decide as Hx; [done |].
  apply NoDup_app. split; [done |]. split; [| apply NoDup_singleton].
  intros y Hy Hyx. apply list_elem_of_singleton in Hyx. by subst.
Qed.

Lemma OMap_elem_get {V : Type} (k : string) (v : V) (m : list (string * V)) :
  NoDup (OMap.keys m) -> (k, v) ∈ m -> OMap.get k m = Some v.
Proof.
  unfold OMap.keys. induction m as [|[k' v'] m IH]; simpl.
  - intros _ Hin. by apply elem_of_nil in Hin.
  - rewrite NoDup_cons. intros [Hk' Hnd] Hin.
    apply elem_of_cons in Hin as [[= -> ->] | Hin].
    + by rewrite decide_True.
    + destruct (decide (k = k')) as [->|Hne]; [| by apply IH].
      exfalso. apply Hk'. apply list_elem_of_fmap. by exists (k', v).
Qed.

(** *** The graph *)

Lemma initGraph_fst (l : list (string * AccumulationEntry))
    (acc : list (string * list string) * list (string * Z)) (p : string) :
  OMap.get p (fold_left initGraphStep l acc).1
  = if decide (p ∈ l.*1) then Some [] else OMap.get p acc.1.
Proof.
  revert acc. induction l as [|[k e] l IH]; intros acc.
  - cbn [fold_left fmap list_fmap].
    destruct (decide (p ∈ [])) as [Hin|]; [by apply elem_of_nil in Hin | done].
  - cbn [fold_left fmap list_fmap]. rewrite IH. cbn [initGraphStep fst snd].
    destruct (decide (p ∈ l.*1)) as [Hin|Hin].
    + rewrite decide_True; [done | by right].
    + destruct (decide (k = p)) as [->|Hne].
      * rewrite OMapFacts.get_set_eq. rewrite decide_True; [done | left].
      * rewrite OMapFacts.get_set_ne by done. rewrite decide_False; [done |].
        rewrite not_elem_of_cons. split; [congruence | done].
Qed.

Lemma graphInvariant_ext (q : list (string * AccumulationEntry))
    (E E' : string -> string -> Prop) (graph : list (string * list string)) :
  (forall d p, E' d p <-> E d p) ->
  graphInvariant q E graph -> graphInvariant q E' graph.
Proof.
  intros Hext (G1 & G2 & G3). split; [done |]. split; [done |].
  intros p d. rewrite G3, Hext. done.
Qed.

Lemma graphInvariant_init (q : list (string * AccumulationEntry)) :
  graphInvariant q (fun _ _ => False) (initGraph q).1.
Proof.
  unfold initGraph. split; [| split].
  - intros p Hp. rewrite initGraph_fst.
    apply OMapKeys.get_is_Some in Hp. unfold OMap.keys in Hp.
    rewrite decide_True by done. eauto.
  - intros p L. rewrite initGraph_fst. simpl.
    destruct (decide (p ∈ q.*1)); [| done]. intros [= <-]. constructor.
  - intros p d. rewrite initGraph_fst. simpl.
    destruct (decide (p ∈ q.*1)); simpl; split;
      try (intros Hin; by apply elem_of_nil in Hin); tauto.
Qed.

Lemma graphInvariant_addEdge (q : list (string * AccumulationEntry))
    (E E' : string -> string -> Prop) (digestHash depHash : string)
    (acc : list (string * list string) * list (string * Z)) :
  graphInvariant q E acc.1 ->
  (forall d p, E' d p <-> E d p \/ (d = digestHash /\ p = depHash)) ->
  graphInvariant q E' (addEdge q digestHash acc depHash).1.
Proof.
  intros (G1 & G2 & G3) HE. unfold addEdge, OMap.has.
  case_bool_decide as Hdep; simpl.
  - destruct (G1 _ Hdep) as [L HL]. rewrite HL.
    split; [| split].
    + intros p Hp. destruct (decide (depHash = p)) as [->|Hne].
      * rewrite OMapFacts.get_set_eq. eauto.
      * rewrite OMapFacts.get_set_ne by done. by apply G1.
    + intros p L'. destruct (decide (depHash = p)) as [->|Hne].
      * rewrite OMapFacts.get_set_eq. intros [= <-].
        apply OSet_NoDup_add. by apply (G2 p).
      * rewrite OMapFacts.get_set_ne by done. apply G2.
    + intros p d. destruct (decide (depHash = p)) as [->|Hne].
      * rewrite OMapFacts.get_set_eq. simpl. rewrite OSet_elem_of_add.
        specialize (G3 p d). rewrite HL in G3. simpl in G3.
        rewrite G3, HE. tauto.
      * rewrite OMapFacts.get_set_ne by done. rewrite G3, HE.
        split; [tauto |]. intros [Hp [HEd | [_ ->]]]; [done | done].
  - split; [done |]. split; [done |].
    intros p d. rewrite G3, HE. split; [tauto |].
    intros [Hp [HEd | [_ ->]]]; [done | done].
Qed.

Lemma graphInvariant_addEdges (q : list (string * AccumulationEntry))
    (digestHash : string) (deps : list string)
    (E E' : string -> string -> Prop)
    (acc : list (string * list string) * list (string * Z)) :
  graphInvariant q E acc.1 ->
  (forall d p, E' d p <-> E d p \/ (d = digestHash /\ p ∈ deps)) ->
  graphInvariant q E' (addEdges q digestHash deps acc).1.
Proof.
  unfold addEdges. revert E acc.
  induction deps as [|dep deps IH]; intros E acc HG HE; simpl.
  - apply (graphInvariant_ext q E); [| done].
    intros d p. rewrite HE. split; [| tauto].
    intros [HEd | [_ Hin]]; [done | by apply elem_of_nil in Hin].
  - apply (IH (fun d p => E d p \/ (d = digestHash /\ p = dep))).
    + by apply (graphInvariant_addEdge q E).
    + intros d p. rewrite HE, elem_of_cons. tauto.
Qed.

Lemma graphInvariant_buildGraph (q l : list (string * AccumulationEntry))
    (E E' : string -> string -> Prop)
    (acc : list (string * list string) * list (string * Z)) :
  graphInvariant q E acc.1 ->
  (forall d p, E' d p <-> E d p \/ dependsOn l d p) ->
  graphInvariant q E' (fold_left (buildGraphStep q) l acc).1.
Proof.
  revert E acc. induction l as [|[k e] l IH]; intros E acc HG HE; simpl.
  - apply (graphInvariant_ext q E); [| done].
    intros d p. rewrite HE. split; [| tauto].
    intros [HEd | (e & Hin & _)]; [done | by apply elem_of_nil in Hin].
  - apply (IH (fun d p => E d p
                          \/ (d = k /\ p ∈ dependencies (queuedReport e)))).
    + unfold buildGraphStep. simpl. by apply (graphInvariant_addEdges q k _ E).
    + intros d p. rewrite HE. unfold dependsOn. split.
      * intros [HEd | (e' & Hin & Hp)]; [tauto |].
        apply elem_of_cons in Hin as [[= -> ->] | Hin]; [tauto |].
        right. by exists e'.
      * intros [[HEd | [-> Hp]] | (e' & Hin & Hp)]; [tauto | |].
        -- right. exists e. split; [left | done].
        -- right. exists e'. split; [by right | done].
Qed.

(** [graph] maps every queued digest to its dependents, none twice. *)
Lemma buildGraph_graph (q : list (string * AccumulationEntry)) :
  graphInvariant q (dependsOn q) (buildGraph q).1.
Proof.
  unfold buildGraph.
  apply (graphInvariant_buildGraph q q (fun _ _ => False)).
  - apply graphInvariant_init.
  - intros d p. tauto.
Qed.

Lemma neighbors_spec (q : list (string * AccumulationEntry))
    (cur d : string) :
  NoDup (OMap.keys q) ->
  d ∈ default [] (OMap.get cur (buildGraph q).1)
  <-> exists e, OMap.get d q = Some e /\ cur ∈ queuedDependencies q e.
Proof.
  intros Hnd. destruct (buildGraph_graph q) as (_ & _ & G3).
  rewrite G3. unfold dependsOn, queuedDependencies. split.
  - intros (Hcur & e & Hin & Hdep). exists e.
    split; [by apply OMap_elem_get |].
    apply list_elem_of_filter. done.
  - intros (e & Hget & Hdep). apply list_elem_of_filter in Hdep as [Hcur Hdep].
    split; [done |]. exists e. split; [| done].
    by apply OMapKeys.get_Some_elem.
Qed.

Lemma neighbors_NoDup (q : list (string * AccumulationEntry)) (cur : string) :
  NoDup (default [] (OMap.get cur (buildGraph q).1)).
Proof.
  destruct (buildGraph_graph q) as (_ & G2 & _).
  destruct (OMap.get cur (buildGraph q).1) as [L|] eqn:HL; simpl.
  - by apply (G2 cur).
  - constructor.
Qed.

(** *** One pass over the dependents *)

Lemma filter_ext_in (P1 P2 : string -> Prop)
    `{!forall x, Decision (P1 x), !forall x, Decision (P2 x)} (l : list string) :
  (forall x, x ∈ l -> P1 x <-> P2 x) -> filter P1 l = filter P2 l.
Proof.
  induction l as [|x l IH]; intros Hext; [done |].
  rewrite !filter_cons.
  rewrite IH by (intros y Hy; apply Hext; by right).
  destruct (decide (P1 x)) as [H1|H1], (decide (P2 x)) as [H2|H2];
    try done; exfalso; apply (Hext x) in H1 || apply (Hext x) in H2;
    done || left.
Qed.

Lemma relaxNeighbors_char (neighbors : list string)
    (inDegree : list (string * Z)) (queue : list string) :
  NoDup neighbors ->
  (relaxNeighbors neighbors (inDegree, queue)).2
  = queue ++ filter (fun d => default 0 (OMap.get d inDegree) = 1) neighbors
  /\ forall d,
       default 0 (OMap.get d (relaxNeighbors neighbors (inDegree, queue)).1)
       = default 0 (OMap.get d inDegree)
         - (if decide (d ∈ neighbors) then 1 else 0).
Proof.
  revert inDegree queue.
  induction neighbors as [|n ns IH]; intros inDegree queue Hnd.
  - simpl. rewrite app_nil_r. split; [done |]. intros d.
    destruct (decide (d ∈ [])) as [Hin|]; [by apply elem_of_nil in Hin | lia].
  - apply NoDup_cons in Hnd as [Hn Hnd].
    set (u := default 0 (OMap.get n inDegree) - 1).
    set (i1 := OMap.set n u inDegree).
    assert (forall d, d <> n -> OMap.get d i1 = OMap.get d inDegree) as Hother.
    { intros d Hd. unfold i1. rewrite OMapFacts.get_set_ne; [done | congruence]. }
    assert (filter (fun d => default 0 (OMap.get d i1) = 1) ns
            = filter (fun d => default 0 (OMap.get d inDegree) = 1) ns) as Hf.
    { apply filter_ext_in. intros d Hd.
      rewrite Hother; [done |]. intros ->. done. }
    assert (forall qu,
      (relaxNeighbors ns (i1, qu)).2
      = qu ++ filter (fun d => default 0 (OMap.get d inDegree) = 1) ns
      /\ forall d,
           default 0 (OMap.get d (relaxNeighbors ns (i1, qu)).1)
           = default 0 (OMap.get d inDegree)
             - (if decide (d ∈ n :: ns) then 1 else 0)) as Hrest.
    { intros qu. destruct (IH i1 qu Hnd) as [Hq Hi]. rewrite Hq, Hf.
      split; [done |]. intros d. rewrite Hi.
      destruct (decide (d = n)) as [->|Hd].
      - unfold i1. rewrite OMapFacts.get_set_eq. simpl.
        rewrite decide_False by done. rewrite decide_True by left.
        unfold u. lia.
      - rewrite Hother by done.
        destruct (decide (d ∈ ns)) as [Hin|Hin].
        + rewrite decide_True by (by right). done.
        + rewrite decide_False; [done |].
          rewrite not_elem_of_cons. done. }
    unfold relaxNeighbors. simpl. fold u. fold i1.
    rewrite filter_cons.
    destruct (decide (default 0 (OMap.get n inDegree) = 1)) as [H1|H1].
    + rewrite bool_decide_eq_true_2 by (unfold u; lia).
      destruct (Hrest (queue ++ [n])) as [Hq Hi]. unfold relaxNeighbors in Hq, Hi.
      rewrite Hq. split; [by rewrite <- app_assoc | exact Hi].
    + rewrite bool_decide_eq_false_2 by (unfold u; lia).
      destruct (Hrest queue) as [Hq Hi]. unfold relaxNeighbors in Hq, Hi.
      rewrite Hq. split; [done | exact Hi].
Qed.

(** *** Counting *)

Lemma filter_snoc_length (L l : list string) (c : string) :
  NoDup L -> c ∉ l ->
  length (filter (fun p => p ∈ l ++ [c]) L)
  = (length (filter (fun p => p ∈ l) L) + (if decide (c ∈ L) then 1 else 0))%nat.
Proof.
  intros HL Hc. induction L as [|x L IH].
  - destruct (decide (c ∈ [])) as [Hin|]; [by apply elem_of_nil in Hin | done].
  - apply NoDup_cons in HL as [Hx HL]. specialize (IH HL).
    rewrite !filter_cons.
    destruct (decide (x = c)) as [->|Hxc].
    + rewrite decide_True by (apply elem_of_app; right; left).
      rewrite decide_False by done. rewrite decide_True by left.
      rewrite decide_False in IH by done. simpl. lia.
    + destruct (decide (x ∈ l)) as [Hxl|Hxl].
      * rewrite decide_True by (apply elem_of_app; by left).
        simpl. rewrite IH.
        destruct (decide (c ∈ L)) as [HcL|HcL].
        -- rewrite decide_True by (by right). lia.
        -- rewrite decide_False; [lia |]. rewrite not_elem_of_cons. split; [congruence | done].
      * rewrite decide_False.
        2: { rewrite elem_of_app, list_elem_of_singleton. tauto. }
        rewrite IH.
        destruct (decide (c ∈ L)) as [HcL|HcL].
        -- rewrite decide_True by (by right). lia.
        -- rewrite decide_False; [lia |]. rewrite not_elem_of_cons. split; [congruence | done].
Qed.

Lemma filter_length_Forall (P : string -> Prop) `{!forall x, Decision (P x)}
    (L : list string) :
  length (filter P L) = length L -> Forall P L.
Proof.
  induction L as [|x L IH]; [constructor |].
  rewrite filter_cons. destruct (decide (P x)) as [HP|HP]; simpl.
  - intros [= Hlen]. constructor; [done | by apply IH].
  - pose proof (length_filter P L). lia.
Qed.

Lemma Forall_filter_length (P : string -> Prop) `{!forall x, Decision (P x)}
    (L : list string) :
  Forall P L -> length (filter P L) = length L.
Proof.
  induction 1 as [|x L HP HL IH]; [done |].
  rewrite filter_cons, decide_True by done. simpl. by rewrite IH.
Qed.

Lemma remove_dups_length (l : list string) :
  (length (remove_dups l) <= length l)%nat.
Proof.
  induction l as [|x l IH]; simpl; [done |].
  destruct (decide_rel _ x l); simpl; lia.
Qed.

Lemma remove_dups_length_NoDup (l : list string) :
  length (remove_dups l) = length l -> NoDup l.
Proof.
  induction l as [|x l IH]; simpl; [constructor |].
  pose proof (remove_dups_length l).
  destruct (decide_rel _ x l); simpl; [lia |].
  intros [= Hlen]. constructor; [done | by apply IH].
Qed.

Lemma remove_dups_NoDup_id (l : list string) :
  NoDup l -> remove_dups l = l.
Proof.
  induction 1 as [|x l Hx Hl IH]; simpl; [done |].
  destruct (decide_rel _ x l); [done | by rewrite IH].
Qed.

(** The counter of a digest is 0 exactly when its queued dependencies are
    listed once each and have all been taken from the queue. *)
Lemma counter_zero (L processed : list string) :
  Z.of_nat (length L)
  - Z.of_nat (length (filter (fun p => p ∈ processed) (remove_dups L))) = 0
  <-> NoDup L /\ forall p, p ∈ L -> p ∈ processed.
Proof.
  pose proof (remove_dups_length L) as Hle.
  pose proof (length_filter (fun p => p ∈ processed) (remove_dups L)) as Hle'.
  split.
  - intros Hz.
    assert (length (remove_dups L) = length L) as Hlen by lia.
    split; [by apply remove_dups_length_NoDup |].
    intros p Hp.
    assert (Forall (fun p => p ∈ processed) (remove_dups L)) as Hall.
    { apply (filter_length_Forall (fun p => p ∈ processed)). lia. }
    rewrite Forall_forall in Hall. apply Hall. by apply elem_of_remove_dups.
  - intros [Hnd Hall]. rewrite remove_dups_NoDup_id by done.
    rewrite (Forall_filter_length (fun p => p ∈ processed));
      [lia |]. by apply Forall_forall.
Qed.

(** *** The [while] loop *)

Lemma get_inDegreeOf (q l : list (string * AccumulationEntry)) (d : string) :
  OMap.get d (inDegreeOf q l)
  = (fun e => Z.of_nat (length (queuedDependencies q e))) <$> OMap.get d l.
Proof.
  unfold inDegreeOf. induction l as [|[k e] l IH]; simpl; [done |].
  destruct (decide (d = k)); [done | exact IH].
Qed.

Lemma queuedDependencies_nil (q : list (string * AccumulationEntry))
    (e : AccumulationEntry) :
  queuedDependencies q e = [] <-> noQueuedDependency q e.
Proof.
  unfold queuedDependencies, noQueuedDependency.
  induction (dependencies (queuedReport e)) as [|dep deps IH].
  - split; [constructor | done].
  - rewrite filter_cons, Forall_cons.
    destruct (decide (is_Some (OMap.get dep q))) as [Hd|Hd]; simpl.
    + split; [done | intros [Hn _]; done].
    + rewrite IH. tauto.
Qed.

Lemma elem_of_roots (q : list (string * AccumulationEntry)) (d : string) :
  NoDup (OMap.keys q) ->
  d ∈ roots q <-> exists e, OMap.get d q = Some e /\ noQueuedDependency q e.
Proof.
  intros Hnd. unfold roots. rewrite list_elem_of_fmap. split.
  - intros ([k e] & -> & Hin). apply list_elem_of_filter in Hin as [Hn Hin].
    exists e. split; [by apply OMap_elem_get | done].
  - intros (e & Hget & Hn). exists (d, e). split; [done |].
    apply list_elem_of_filter. split; [done |].
    by apply OMapKeys.get_Some_elem.
Qed.

Lemma NoDup_roots (q : list (string * AccumulationEntry)) :
  NoDup (OMap.keys q) -> NoDup (roots q).
Proof.
  intros Hnd. unfold roots. eapply sublist_NoDup; [exact Hnd |].
  unfold OMap.keys. apply fmap_sublist. apply sublist_filter.
Qed.

Lemma kahnInvariant_init (q : list (string * AccumulationEntry)) :
  NoDup (OMap.keys q) -> kahnInvariant q (inDegreeOf q q) (roots q) 0.
Proof.
  intros Hnd. unfold kahnInvariant.
  split; [by apply NoDup_roots |]. split; [lia |].
  split; [| split; [| split]].
  - intros d Hd. apply elem_of_roots in Hd as (e & -> & _); eauto.
  - intros d e Hget. rewrite get_inDegreeOf, Hget. simpl.
    assert (filter (fun p => p ∈ take 0 (roots q))
              (remove_dups (queuedDependencies q e)) = []) as ->.
    { induction (remove_dups (queuedDependencies q e)) as [|x L IH];
        [done |].
      rewrite filter_cons_False; [done |]. simpl. apply not_elem_of_nil. }
    simpl. lia.
  - intros d [e Hget]. rewrite get_inDegreeOf, Hget. simpl.
    rewrite elem_of_roots by done.
    split.
    + intros Hz. exists e. split; [done |]. apply queuedDependencies_nil.
      destruct (queuedDependencies q e); [done | simpl in Hz; lia].
    + intros (e' & He' & Hnil). assert (e' = e) as -> by congruence.
      apply queuedDependencies_nil in Hnil. by rewrite Hnil.
  - intros j d e p Hj Hget Hp.
    apply list_elem_of_lookup_2 in Hj.
    apply elem_of_roots in Hj as (e' & He' & Hn); [| done].
    assert (e' = e) as -> by congruence.
    apply queuedDependencies_nil in Hn. rewrite Hn in Hp.
    by apply elem_of_nil in Hp.
Qed.

Lemma kahnInvariant_step (q : list (string * AccumulationEntry))
    (inDegree : list (string * Z)) (queue : list string) (head : nat)
    (cur : string) :
  NoDup (OMap.keys q) ->
  kahnInvariant q inDegree queue head ->
  queue !! head = Some cur ->
  kahnInvariant q
    (relaxNeighbors (default [] (OMap.get cur (buildGraph q).1))
       (inDegree, queue)).1
    (relaxNeighbors (default [] (OMap.get cur (buildGraph q).1))
       (inDegree, queue)).2
    (S head).
Proof.
  intros Hnd (K1 & K2 & K3 & K4 & K5 & K6) Hcur.
  set (N := default [] (OMap.get cur (buildGraph q).1)).
  pose proof (neighbors_NoDup q cur) as HNnd. fold N in HNnd.
  assert (forall d, d ∈ N <-> exists e, OMap.get d q = Some e
                                   /\ cur ∈ queuedDependencies q e) as HN.
  { intros d. by apply neighbors_spec. }
  destruct (relaxNeighbors_char N inDegree queue HNnd) as [Hq Hi].
  set (pushed := filter (fun d => default 0 (OMap.get d inDegree) = 1) N) in Hq.
  rewrite Hq.
  pose proof (lookup_lt_Some _ _ _ Hcur) as Hlt.
  assert (take (S head) (queue ++ pushed) = take head queue ++ [cur]) as Htake.
  { rewrite take_app_le by lia. by apply take_S_r. }
  assert (cur ∉ take head queue) as Hfresh.
  { intros Hin. apply elem_of_take in Hin as (j & Hj & Hjlt).
    pose proof (NoDup_lookup _ _ _ _ K1 Hj Hcur). lia. }
  (* the counters *)
  assert (forall d e, OMap.get d q = Some e ->
    default 0 (OMap.get d (relaxNeighbors N (inDegree, queue)).1)
    = Z.of_nat (length (queuedDependencies q e))
      - Z.of_nat (length (filter (fun p => p ∈ take (S head) (queue ++ pushed))
                            (remove_dups (queuedDependencies q e))))) as K4'.
  { intros d e Hget. rewrite Hi, Htake.
    rewrite filter_snoc_length by (apply NoDup_remove_dups || done).
    rewrite (K4 d e Hget).
    destruct (decide (d ∈ N)) as [HdN|HdN];
      destruct (decide (cur ∈ remove_dups (queuedDependencies q e)))
        as [Hc|Hc]; try lia; exfalso.
    - apply Hc. apply elem_of_remove_dups.
      apply HN in HdN as (e' & He' & Hin). congruence.
    - apply HdN. apply HN. exists e. split; [done |].
      rewrite elem_of_remove_dups in Hc. exact Hc. }
  (* a queued digest is not a dependent of the current one *)
  assert (forall d, d ∈ queue -> d ∉ N) as Hqueue_N.
  { intros d Hd HdN. apply HN in HdN as (e & Hget & Hin).
    assert (default 0 (OMap.get d inDegree) = 0) as Hz by (apply K5; eauto).
    rewrite (K4 d e Hget) in Hz. apply counter_zero in Hz as [_ Hall].
    apply Hfresh. by apply Hall. }
  unfold kahnInvariant. split; [| split; [| split; [| split; [| split]]]].
  - apply NoDup_app. split; [done |]. split; [| by apply NoDup_filter].
    intros d Hd Hp. apply list_elem_of_filter in Hp as [H1 HdN].
    by apply (Hqueue_N d).
  - rewrite length_app. lia.
  - intros d Hd. apply elem_of_app in Hd as [Hd | Hd]; [by apply K3 |].
    apply list_elem_of_filter in Hd as [_ HdN].
    apply HN in HdN as (e & -> & _). eauto.
  - exact K4'.
  - intros d Hd. rewrite Hi, elem_of_app. unfold pushed.
    rewrite list_elem_of_filter. specialize (K5 d Hd).
    destruct (decide (d ∈ N)) as [HdN|HdN].
    + split.
      * intros Hz. right. split; [lia | done].
      * intros [Hin | [H1 _]]; [by destruct (Hqueue_N d Hin) | lia].
    + rewrite Z.sub_0_r. rewrite K5. tauto.
  - intros j d e p Hj Hget Hp.
    destruct (decide (j < length queue)%nat) as [Hjlt|Hjge].
    + rewrite lookup_app_l in Hj by done.
      destruct (K6 j d e p Hj Hget Hp) as (i & Hij & Hpi).
      exists i. split; [done |]. rewrite lookup_app_l by lia. done.
    + assert (d ∈ pushed) as Hd.
      { rewrite lookup_app_r in Hj by lia. by apply list_elem_of_lookup_2 in Hj. }
      assert (default 0 (OMap.get d (relaxNeighbors N (inDegree, queue)).1) = 0)
        as Hz.
      { rewrite Hi. apply list_elem_of_filter in Hd as [H1 HdN].
        rewrite decide_True by done. lia. }
      rewrite (K4' d e Hget) in Hz. apply counter_zero in Hz as [_ Hall].
      specialize (Hall p Hp). apply elem_of_take in Hall as (i & Hpi & Hilt).
      exists i. split; [lia | done].
Qed.

Lemma kahnLoop_invariant (q : list (string * AccumulationEntry)) (fuel : nat)
    (inDegree : list (string * Z)) (queue : list string) (head : nat)
    (order : list string) :
  NoDup (OMap.keys q) ->
  kahnInvariant q inDegree queue head ->
  kahnLoop fuel (buildGraph q).1 inDegree queue head (take head queue)
  = Some order ->
  exists inDegree', kahnInvariant q inDegree' order (length order).
Proof.
  intros Hnd. revert inDegree queue head.
  assert (forall inDegree queue head,
    kahnInvariant q inDegree queue head -> queue !! head = None ->
    exists inDegree',
      kahnInvariant q inDegree' (take head queue) (length (take head queue)))
    as Hdone.
  { intros inDegree queue head Hinv Hnone. exists inDegree.
    apply lookup_ge_None in Hnone.
    pose proof Hinv as (_ & K2 & _).
    rewrite take_ge by done. by replace (length queue) with head by lia. }
  induction fuel as [|fuel IH]; intros inDegree queue head Hinv; simpl;
    destruct (queue !! head) as [cur|] eqn:Hcur; try done.
  - intros [= <-]. by apply (Hdone inDegree).
  - pose proof (kahnInvariant_step q inDegree queue head cur Hnd Hinv Hcur)
      as Hstep.
    destruct (relaxNeighbors_char _ inDegree queue (neighbors_NoDup q cur))
      as [Hq _].
    destruct (relaxNeighbors _ _) as [inDegree' queue']. simpl in Hstep, Hq.
    intros Hloop. apply (IH inDegree' queue' (S head) Hstep).
    rewrite Hq. rewrite take_app_le by (apply lookup_lt_Some in Hcur; lia).
    rewrite (take_S_r _ _ _ Hcur). by rewrite <- Hq.
  - intros [= <-]. by apply (Hdone inDegree).
Qed.

(** The invariant holds of what [topologicalSort] returns. *)
Lemma topologicalSort_invariant (q : list (string * AccumulationEntry)) :
  NoDup (OMap.keys q) ->
  exists inDegree,
    kahnInvariant q inDegree (topologicalSort q) (length (topologicalSort q)).
Proof.
  intros Hnd. pose proof (topologicalSort_terminates q) as Hterm.
  unfold topologicalSort_opt in Hterm.
  pose proof (buildGraph_inDegree q Hnd) as Hdeg.
  destruct (buildGraph q) as [graph inDegree] eqn:Hb. simpl in Hdeg.
  subst inDegree. rewrite initialQueue_inDegreeOf in Hterm.
  fold (roots q) in Hterm.
  apply (kahnLoop_invariant q (kahnFuel (inDegreeOf q q) (roots q))
           (inDegreeOf q q) (roots q) 0%nat).
  - done.
  - by apply kahnInvariant_init.
  - rewrite Hb. simpl. exact Hterm.
Qed.

End KahnProperties.

(** X11. [topologicalSort] puts dependencies first: a sorted report stands
    behind each of its queued dependencies, which are therefore sorted
    too. *)
Theorem topologicalSort_dependencies_first
    (q : list (string * AccumulationEntry)) (d p : string)
    (e : AccumulationEntry) :
  NoDup (OMap.keys q) ->
  OMap.get d q = Some e ->
  p ∈ dependencies (queuedReport e) ->
  is_Some (OMap.get p q) ->
  d ∈ topologicalSort q ->
  before (topologicalSort q) p d.
Proof.
  intros Hnd Hget Hdep Hp Hd.
  destruct (topologicalSort_invariant q Hnd) as (i & _ & _ & _ & _ & _ & K6).
  apply list_elem_of_lookup_1 in Hd as [j Hj].
  destruct (K6 j d e p Hj Hget) as (k & Hkj & Hk).
  - unfold queuedDependencies. by apply list_elem_of_filter.
  - by exists k, j.
Qed.

(** X12. [topologicalSort] returns queued digests only, and none twice. *)
Theorem topologicalSort_sorts_once (q : list (string * AccumulationEntry)) :
  NoDup (OMap.keys q) ->
  NoDup (topologicalSort q)
  /\ (forall d, d ∈ topologicalSort q -> d ∈ OMap.keys q)
  /\ (length (topologicalSort q) <= OMap.size q)%nat.
Proof.
  intros Hnd.
  destruct (topologicalSort_invariant q Hnd) as (i & K1 & _ & K3 & _).
  assert (forall d, d ∈ topologicalSort q -> d ∈ OMap.keys q) as Hsub.
  { intros d Hd. apply OMapKeys.get_is_Some. by apply K3. }
  split; [done |]. split; [done |].
  unfold OMap.size. replace (length q) with (length (OMap.keys q))
    by (unfold OMap.keys; apply length_fmap).
  apply submseteq_length. apply NoDup_submseteq; done.
Qed.

(** X13. Which reports are sorted: a queued report is in the result of
    [topologicalSort] exactly when its queued dependencies are listed once
    each and are all in the result.  A report that lists a queued dependency
    twice is never sorted: its counter is raised twice and lowered once. *)
Theorem topologicalSort_membership (q : list (string * AccumulationEntry))
    (d : string) (e : AccumulationEntry) :
  NoDup (OMap.keys q) ->
  OMap.get d q = Some e ->
  d ∈ topologicalSort q
  <-> NoDup (queuedDependencies q e)
      /\ forall p, p ∈ queuedDependencies q e -> p ∈ topologicalSort q.
Proof.
  intros Hnd Hget.
  destruct (topologicalSort_invariant q Hnd) as (i & _ & _ & _ & K4 & K5 & _).
  rewrite <- (K5 d) by eauto. rewrite (K4 d e Hget).
  rewrite firstn_all. apply counter_zero.
Qed.

Lemma topologicalSort_all (q : list (string * AccumulationEntry))
    (rank : string -> nat) :
  NoDup (OMap.keys q) ->
  acyclicQueue q rank ->
  forall d, is_Some (OMap.get d q) -> d ∈ topologicalSort q.
Proof.
  intros Hnd Hacyclic.
  assert (forall d e, OMap.get d q = Some e ->
            NoDup (queuedDependencies q e)
            /\ forall p, p ∈ queuedDependencies q e -> (rank p < rank d)%nat)
    as Hrank.
  { intros d e Hget. apply OMapKeys.get_Some_elem in Hget.
    unfold acyclicQueue in Hacyclic. rewrite Forall_forall in Hacyclic.
    destruct (Hacyclic (d, e) Hget) as [Honce Hlt]. split; [done |].
    by apply Forall_forall. }
  destruct (topologicalSort_invariant q Hnd) as (i & _ & _ & _ & K4 & K5 & _).
  assert (forall n d, (rank d < n)%nat -> is_Some (OMap.get d q) ->
                      d ∈ topologicalSort q) as Hind.
  { induction n as [|n IH]; intros d Hlt [e Hget]; [lia |].
    destruct (Hrank d e Hget) as [Honce Hdeps].
    apply (K5 d); [eauto |]. rewrite (K4 d e Hget), firstn_all.
    apply counter_zero. split; [done |].
    intros p Hp. apply IH.
    - specialize (Hdeps p Hp). lia.
    - unfold queuedDependencies in Hp.
      by apply list_elem_of_filter in Hp as [Hq _]. }
  intros d Hd. by apply (Hind (S (rank d))); [lia |].
Qed.

(** X14. [topologicalSort] sorts every report of an acyclic queue: when no
    report lists a queued dependency twice and the queued dependencies go
    down some rank, the result is a permutation of the keys of the queue. *)
Theorem topologicalSort_complete (q : list (string * AccumulationEntry))
    (rank : string -> nat) :
  NoDup (OMap.keys q) ->
  acyclicQueue q rank ->
  topologicalSort q ≡ₚ OMap.keys q.
Proof.
  intros Hnd Hacyclic.
  destruct (topologicalSort_invariant q Hnd) as (i & K1 & _ & K3 & _).
  apply NoDup_Permutation; [done | done |].
  intros d. split.
  - intros Hd. apply OMapKeys.get_is_Some. by apply K3.
  - intros Hd. apply (topologicalSort_all q rank); try done.
    by apply OMapKeys.get_is_Some.
Qed.

(** X15. Reports without queued dependencies are sorted in insertion order:
    when no queued report depends on a queued report, [topologicalSort]
    returns the keys of the queue as they stand. *)
Theorem independent_reports_keep_insertion_order
    (q : list (string * AccumulationEntry)) :
  NoDup (OMap.keys q) ->
  Forall (fun kv => noQueuedDependency q kv.2) q ->
  topologicalSort q = OMap.keys q.
Proof.
  intros Hnd Hall.
  assert (roots q = OMap.keys q) as Hroots.
  { unfold roots, OMap.keys. f_equal.
    assert (forall l : list (string * AccumulationEntry),
              Forall (fun kv => noQueuedDependency q kv.2) l ->
              filter (fun kv => noQueuedDependency q kv.2) l = l) as Hfilter.
    { induction 1 as [|kv l Hkv Hl IH]; [done |].
      rewrite filter_cons_True by done. by rewrite IH. }
    by apply Hfilter. }
  destruct (topologicalSort_invariant q Hnd) as (i & K1 & _ & K3 & _).
  pose proof (topologicalSort_terminates q) as Hterm.
  unfold topologicalSort_opt in Hterm.
  pose proof (buildGraph_inDegree q Hnd) as Hdeg.
  destruct (buildGraph q) as [graph inDegree]. simpl in Hdeg. subst inDegree.
  apply kahnLoop_extends in Hterm as [later Hl]; [| done].
  rewrite initialQueue_inDegreeOf in Hl. fold (roots q) in Hl.
  rewrite Hroots in Hl. rewrite Hl in K1, K3. rewrite Hl.
  destruct later as [|x later]; [by rewrite app_nil_r |].
  exfalso. apply NoDup_app in K1 as (_ & Hdisj & _).
  apply (Hdisj x); [| left].
  apply OMapKeys.get_is_Some. apply K3. apply elem_of_app. right. left.
Qed.

Section SweepProperties.
Context `{Externals}.

Lemma topologicalSort_no_roots (q : list (string * AccumulationEntry)) :
  NoDup (OMap.keys q) -> roots q = [] -> topologicalSort q = [].
Proof.
  intros Hnd Hroots. unfold topologicalSort, topologicalSort_opt.
  pose proof (buildGraph_inDegree q Hnd) as Hdeg.
  destruct (buildGraph q) as [graph inDegree]. simpl in Hdeg. subst inDegree.
  rewrite initialQueue_inDegreeOf. fold (roots q). rewrite Hroots.
  by destruct (kahnFuel _ _).
Qed.

(** X16. A queue in which every report waits for a queued report is left as
    it is: [topologicalSort] returns the empty order, and the sweep changes
    nothing in the state. *)
Theorem blocked_queue_is_left_alone (impl : Impl) (S : OnchainState) (s : Z) :
  NoDup (OMap.keys (omega S)) ->
  Forall (fun kv => ~ noQueuedDependency (omega S) kv.2) (omega S) ->
  topologicalSort (omega S) = []
  /\ processAccumulationQueue impl S s = S.
Proof.
  intros Hnd Hall.
  assert (topologicalSort (omega S) = []) as Hsort.
  { apply topologicalSort_no_roots; [done |]. unfold roots.
    assert (forall l : list (string * AccumulationEntry),
              Forall (fun kv => ~ noQueuedDependency (omega S) kv.2) l ->
              filter (fun kv => noQueuedDependency (omega S) kv.2) l = [])
      as Hfilter.
    { induction 1 as [|kv l Hkv Hl IH]; [done |].
      by rewrite filter_cons_False by done. }
    by rewrite Hfilter. }
  split; [done |]. unfold processAccumulationQueue. by rewrite Hsort.
Qed.

Lemma accumulateReport_omega_ne (impl : Impl) (s : Z) (S : OnchainState)
    (k d : string) :
  d <> k ->
  OMap.get d (omega (accumulateReport impl s S k)) = OMap.get d (omega S).
Proof.
  intros Hne. unfold accumulateReport.
  destruct (OMap.get k (omega S)) as [entry|] eqn:Hk; [| done].
  destruct (decide _); [| done].
  destruct (runWorkItems _ _ _) as [gs [message|]]; simpl;
    rewrite OMapFacts.delete_set_eq;
    rewrite OMapFacts.get_delete_ne by congruence; done.
Qed.

Lemma accumulateReport_settles (impl : Impl) (s : Z) (S : OnchainState)
    (k : string) (entry : AccumulationEntry) :
  OMap.get k (omega S) = Some entry -> status entry = ready ->
  OMap.get k (omega (accumulateReport impl s S k)) = None
  /\ settled (accumulateReport impl s S k) k.
Proof.
  intros Hk Hready. unfold accumulateReport, settled.
  rewrite Hk, decide_True by done.
  destruct (runWorkItems _ _ _) as [gs [message|]]; simpl;
    rewrite OMapFacts.delete_set_eq, OMapFacts.get_delete_eq;
    rewrite lookup_insert_eq; eauto.
Qed.

Lemma accumulateReport_settled_mono (impl : Impl) (s : Z) (S : OnchainState)
    (k d : string) :
  settled S d -> settled (accumulateReport impl s S k) d.
Proof.
  unfold accumulateReport, settled.
  destruct (OMap.get k (omega S)) as [entry|] eqn:Hk; [| done].
  destruct (decide _); [| done].
  destruct (runWorkItems _ _ _) as [gs [message|]]; simpl;
    (destruct (decide (k = d)) as [->|Hne];
     [ rewrite ?lookup_insert_eq; eauto
     | rewrite ?lookup_insert_ne by done; done ]).
Qed.

Lemma sweep_settled_mono (impl : Impl) (s : Z) (order : list string)
    (S : OnchainState) (d : string) :
  settled S d -> settled (fold_left (accumulateReport impl s) order S) d.
Proof.
  revert S. induction order as [|k order IH]; intros S Hd; [done |].
  simpl. apply IH. by apply accumulateReport_settled_mono.
Qed.

Lemma sweep_fold (impl : Impl) (s : Z) (order : list string)
    (S : OnchainState) :
  NoDup order ->
  (forall d, d ∈ order ->
     exists e, OMap.get d (omega S) = Some e /\ status e = ready) ->
  let S' := fold_left (accumulateReport impl s) order S in
  (forall d, d ∈ order -> OMap.get d (omega S') = None /\ settled S' d)
  /\ (forall d, d ∉ order -> OMap.get d (omega S') = OMap.get d (omega S)).
Proof.
  revert S. induction order as [|k order IH]; intros S Hnd Hready.
  - simpl. split; [| done]. intros d Hd. by apply elem_of_nil in Hd.
  - apply NoDup_cons in Hnd as [Hk Hnd]. simpl.
    destruct (IH (accumulateReport impl s S k) Hnd) as [Hin Hout].
    { intros d Hd. rewrite accumulateReport_omega_ne by (intros ->; done).
      apply Hready. by right. }
    destruct (Hready k) as (e & Hget & He); [left |].
    destruct (accumulateReport_settles impl s S k e Hget He) as [Hnone Hset].
    split.
    + intros d Hd. apply elem_of_cons in Hd as [-> | Hd]; [| by apply Hin].
      split; [by rewrite Hout | by apply sweep_settled_mono].
    + intros d Hd. apply not_elem_of_cons in Hd as [Hne Hd].
      rewrite Hout by done. by apply accumulateReport_omega_ne.
Qed.

(** X17. What a sweep does to the queue: every sorted report leaves omega and
    is finalized or recorded as bad, and every other entry stays in omega as
    it is ("we'll return what we could sort"). *)
Theorem sweep_settles_sorted_reports (impl : Impl) (S : OnchainState) (s : Z) :
  NoDup (OMap.keys (omega S)) ->
  Forall (fun kv => status kv.2 = ready) (omega S) ->
  let S' := processAccumulationQueue impl S s in
  (forall d, d ∈ topologicalSort (omega S) ->
     OMap.get d (omega S') = None
     /\ (is_Some (xi S' !! d) \/ is_Some (psi_B S' !! d)))
  /\ (forall d, d ∉ topologicalSort (omega S) ->
        OMap.get d (omega S') = OMap.get d (omega S)).
Proof.
  intros Hnd Hready.
  destruct (topologicalSort_invariant (omega S) Hnd)
    as (i & K1 & _ & K3 & _).
  apply sweep_fold; [done |].
  intros d Hd. destruct (K3 d Hd) as [e Hget]. exists e. split; [done |].
  apply OMapKeys.get_Some_elem in Hget.
  rewrite Forall_forall in Hready. by apply (Hready (d, e)).
Qed.

(** X18. A sweep empties an acyclic queue: when every entry is ready, no
    report lists a queued dependency twice and the queued dependencies go
    down some rank, omega is empty after [processAccumulationQueue] and
    every digest that was queued is finalized or recorded as bad. *)
Theorem sweep_empties_acyclic_queue (impl : Impl) (S : OnchainState) (s : Z)
    (rank : string -> nat) :
  NoDup (OMap.keys (omega S)) ->
  Forall (fun kv => status kv.2 = ready) (omega S) ->
  acyclicQueue (omega S) rank ->
  let S' := processAccumulationQueue impl S s in
  omega S' = []
  /\ forall d, is_Some (OMap.get d (omega S)) ->
       is_Some (xi S' !! d) \/ is_Some (psi_B S' !! d).
Proof.
  intros Hnd Hready Hacyclic S'.
  destruct (topologicalSort_invariant (omega S) Hnd)
    as (i & K1 & _ & K3 & _).
  destruct (sweep_fold impl s (topologicalSort (omega S)) S K1) as [Hin Hout].
  { intros d Hd. destruct (K3 d Hd) as [e Hget]. exists e. split; [done |].
    apply OMapKeys.get_Some_elem in Hget.
    rewrite Forall_forall in Hready. by apply (Hready (d, e)). }
  fold (processAccumulationQueue impl S s) in Hin, Hout. fold S' in Hin, Hout.
  pose proof (topologicalSort_all (omega S) rank Hnd Hacyclic) as Hall.
  split.
  - destruct (omega S') as [|[k e] l] eqn:Hom; [done |]. exfalso.
    destruct (decide (k ∈ topologicalSort (omega S))) as [Hk|Hk].
    + destruct (Hin k Hk) as [Hnone _]. simpl in Hnone.
      by rewrite decide_True in Hnone.
    + specialize (Hout k Hk). simpl in Hout.
      rewrite decide_True in Hout by done.
      apply Hk. apply Hall. rewrite <- Hout. eauto.
  - intros d Hd. by apply Hin, Hall.
Qed.

End SweepProperties.

(** X25. The availability encoding succeeds exactly with at least one data
    fragment and no negative number of parity fragments; it then holds one
    hash per fragment, the hash of the ten characters of the signable text at
    that position with the suffix [_fragment_i].  Otherwise it throws one of
    the first two errors of the constructor of [AvailabilitySpec]: the check
    of the number of hashes never fails. *)
Theorem encodeForAvailability_result (sha256 : string -> string)
    (signableJSON : WorkReport -> string) (R : WorkReport) (d p : Z) :
  match encodeForAvailability sha256 signableJSON R d p with
  | Ok spec =>
      1 <= d /\ 0 <= p
      /\ totalFragments spec = d + p /\ dataFragments spec = d
      /\ Z.of_nat (length (fragmentHashes spec)) = d + p
      /\ forall i, Z.of_nat i < d + p ->
           fragmentHashes spec !! i
           = Some (fragmentHash sha256 (signableJSON R) i)
  | Throw message =>
      (d + p <= 0 /\ message = "Total fragments must be positive."%string)
      \/ (0 < d + p /\ (d <= 0 \/ p < 0)
          /\ message = "Data fragments must be positive and less than or equal to total fragments."%string)
  end.
Proof.
  unfold encodeForAvailability, newAvailabilitySpec.
  destruct (bool_decide (d + p <= 0)) eqn:Htotal; simpl.
  { apply bool_decide_eq_true in Htotal. by left. }
  apply bool_decide_eq_false in Htotal.
  destruct (bool_decide (d <= 0)) eqn:Hd; simpl.
  { apply bool_decide_eq_true in Hd. right. split; [lia |]. split; [by left | done]. }
  apply bool_decide_eq_false in Hd.
  destruct (bool_decide (d > d + p)) eqn:Hp; simpl.
  { apply bool_decide_eq_true in Hp. right. split; [lia |]. split; [right; lia | done]. }
  apply bool_decide_eq_false in Hp.
  rewrite length_fmap, length_seq.
  rewrite bool_decide_eq_true_2 by lia. simpl.
  repeat (split; [lia || done |]).
  split; [rewrite length_fmap, length_seq; lia |].
  intros i Hi. rewrite list_lookup_fmap.
  rewrite lookup_seq_lt by lia. done.
Qed.

Section MoreProcessorProperties.
Context `{Externals}.

(** X8. What a dispute does, in one equation: [processDisputeExtrinsic] never
    throws.  A dispute against a digest that is in none of rho, omega and xi
    changes nothing.  Otherwise the digest leaves rho and omega while xi is
    kept as it is, so that a disputed finalized report stays finalized; the
    disputer joins [disputedBy] of psi_B[d], where a new record takes the
    reason of the dispute and an existing one keeps its own; and the
    guarantor of the disputed report (the queued one, else the pending one,
    else the finalized one) is charged. *)
Theorem dispute_effect (dispute : DisputeExtrinsic) (S : OnchainState) (s : Z) :
  let d := disputedDigestHash dispute in
  processDisputeExtrinsic dispute S s =
    match disputedReportOf S d with
    | None => Ok S
    | Some r =>
        Ok {| rho := delete d (rho S);
              omega := OMap.delete d (omega S);
              xi := xi S;
              psi_B :=
                <[d := match psi_B S !! d with
                       | Some b =>
                           {| reason := reason b;
                              disputedBy := disputedBy b
                                            ∪ {[disputerPublicKey dispute]} |}
                       | None =>
                           {| reason := disputeReason dispute;
                              disputedBy := {[disputerPublicKey dispute]} |}
                       end]> (psi_B S);
              psi_O := chargeOffender (psi_O S) (guarantorPublicKey r) s;
              globalState := globalState S |}
    end.
Proof. apply processDispute_eq. Qed.

(** *** Reports are stored under their digests *)

Lemma keysAreDigests_guarantee (impl : Impl) (R : WorkReport)
    (S : OnchainState) (s : Z) (cbd : list WorkDigest) :
  keysAreDigests S ->
  keysAreDigests (processGuaranteeExtrinsic impl R S s cbd).2.
Proof.
  intros (Hrho & Hom & Hxi).
  destruct (validateWorkReport impl R S s cbd) as [[]|message] eqn:Hv.
  2: { rewrite (processGuarantee_rejected impl R S s cbd message Hv). done. }
  set (d := hash (generateWorkDigest R)).
  assert (forall d' e, delete d (rho S) !! d' = Some e ->
            hash (generateWorkDigest (report e)) = d'
            /\ guarantorPublicKey (report e) ∈ receivedSignatures e) as Hdel.
  { intros d' e Hd'. apply lookup_delete_Some in Hd' as [_ Hd']. by apply Hrho. }
  destruct (decide (addsNewSignature R S d)) as [Hnew|Hold].
  - rewrite (processGuarantee_new_signature impl R S s cbd Hv Hnew). fold d.
    destruct (bool_decide (_ >= _)); [| destruct (bool_decide (_ > _))]; simpl.
    + split; [done |]. split; [| done]. simpl. intros d' e.
      destruct (decide (d = d')) as [<-|Hne].
      * rewrite OMapFacts.get_set_eq. by intros [= <-].
      * rewrite OMapFacts.get_set_ne by done. apply Hom.
    + done.
    + split; [| done]. simpl. intros d' e.
      destruct (decide (d = d')) as [<-|Hne].
      * rewrite lookup_insert_eq. intros [= <-]. unfold mergedEntry.
        destruct (rho S !! d) as [e0|] eqn:He0; simpl.
        -- destruct (Hrho d e0 He0) as [Hd Hin]. split; [done |].
           apply elem_of_union. by left.
        -- split; [done |]. by apply elem_of_singleton.
      * rewrite lookup_insert_ne by done. apply Hrho.
  - unfold addsNewSignature in Hold. unfold processGuaranteeExtrinsic.
    rewrite Hv. fold d. destruct (rho S !! d) as [e|]; [| done].
    apply dec_stable in Hold. by rewrite bool_decide_eq_true_2 by done.
Qed.

Lemma keysAreDigests_dispute (dispute : DisputeExtrinsic) (S S' : OnchainState)
    (s : Z) :
  keysAreDigests S ->
  processDisputeExtrinsic dispute S s = Ok S' ->
  keysAreDigests S'.
Proof.
  intros (Hrho & Hom & Hxi). rewrite processDispute_eq.
  destruct (disputedReportOf S _); intros [= <-]; [| done].
  split; [| split]; simpl.
  - intros d e Hd. apply lookup_delete_Some in Hd as [_ Hd]. by apply Hrho.
  - intros d e Hd.
    destruct (decide (disputedDigestHash dispute = d)) as [<-|Hne].
    + by rewrite OMapFacts.get_delete_eq in Hd.
    + rewrite OMapFacts.get_delete_ne in Hd by done. by apply Hom.
  - done.
Qed.

Lemma keysAreDigests_accumulateReport (impl : Impl) (s : Z)
    (S : OnchainState) (k : string) :
  keysAreDigests S -> keysAreDigests (accumulateReport impl s S k).
Proof.
  intros (Hrho & Hom & Hxi). unfold accumulateReport.
  destruct (OMap.get k (omega S)) as [entry|] eqn:Hk; [| done].
  destruct (decide _); [| done].
  assert (forall d e, OMap.get d (OMap.delete k (omega S)) = Some e ->
            hash (generateWorkDigest (queuedReport e)) = d) as Hdel.
  { intros d e0 Hd. destruct (decide (k = d)) as [<-|Hne].
    - by rewrite OMapFacts.get_delete_eq in Hd.
    - rewrite OMapFacts.get_delete_ne in Hd by done. by apply Hom. }
  destruct (runWorkItems _ _ _) as [gs [message|]]; simpl;
    rewrite OMapFacts.delete_set_eq; (split; [done |]); (split; [done |]);
    simpl; [done |].
  intros d r. destruct (decide (k = d)) as [<-|Hne].
  - rewrite lookup_insert_eq. intros [= <-]. by apply Hom.
  - rewrite lookup_insert_ne by done. apply Hxi.
Qed.

Lemma reachable_keysAreDigests (impl : Impl) (S : OnchainState) :
  reachable impl S -> keysAreDigests S.
Proof.
  induction 1 as [S (Hrho & Hom & Hxi) | | | | S s HS IH].
  - unfold keysAreDigests. rewrite Hrho, Hom, Hxi.
    split; [| split]; intros d e Hd; done.
  - by apply keysAreDigests_guarantee.
  - by eapply keysAreDigests_dispute.
  - done.
  - unfold processAccumulationQueue.
    generalize (topologicalSort (omega S)) as order. intros order.
    revert S HS IH. induction order as [|k order IHo]; intros S HS IH; [done |].
    simpl.
    assert (forall S0, keysAreDigests S0 ->
              keysAreDigests (fold_left (accumulateReport impl s) order S0))
      as Hfold.
    { clear. induction order as [|k' order IHo]; intros S0 HS0; [done |].
      simpl. apply IHo. by apply keysAreDigests_accumulateReport. }
    apply Hfold. by apply keysAreDigests_accumulateReport.
Qed.

(** X6. In every state that the processors reach from a state without
    reports, [getReportByDigest] returns a report of the digest it is asked
    for: rho, omega and xi hold every report under its own digest. *)
Theorem reachable_lookup_by_digest (impl : Impl) (S : OnchainState)
    (d : string) (r : WorkReport) :
  reachable impl S ->
  getReportByDigest S d = Some r ->
  hash (generateWorkDigest r) = d.
Proof.
  intros HS. destruct (reachable_keysAreDigests impl S HS) as (Hrho & Hom & Hxi).
  unfold getReportByDigest.
  destruct (xi S !! d) as [r'|] eqn:Hd; [intros [= <-]; by apply Hxi |].
  destruct (rho S !! d) as [e|] eqn:He;
    [intros [= <-]; by apply (Hrho d e) |].
  destruct (OMap.get d (omega S)) as [e|] eqn:Hq; [| done].
  simpl. intros [= <-]. by apply Hom.
Qed.

(** X7. In every state that the processors reach from a state without
    reports, a pending entry holds at least one signature: that of the
    guarantor whose report opened the entry. *)
Theorem reachable_pending_signed (impl : Impl) (S : OnchainState)
    (d : string) (e : PendingReportEntry) :
  reachable impl S ->
  rho S !! d = Some e ->
  guarantorPublicKey (report e) ∈ receivedSignatures e
  /\ (1 <= size (receivedSignatures e))%nat.
Proof.
  intros HS He. destruct (reachable_keysAreDigests impl S HS) as (Hrho & _).
  destruct (Hrho d e He) as [_ Hin]. split; [done |].
  destruct (decide (size (receivedSignatures e) = 0%nat)) as [Hz|Hz]; [| lia].
  apply size_empty_inv in Hz. apply leibniz_equiv in Hz.
  rewrite Hz in Hin. by apply not_elem_of_empty in Hin.
Qed.

(** *** The TypeScript queue handler drops data and log *)

Lemma runWorkItems_TS_clean (items : list WorkItem) (gs : GlobalState) :
  data gs = None -> log gs = None ->
  data (runWorkItems TS items gs).1 = None
  /\ log (runWorkItems TS items gs).1 = None.
Proof.
  revert gs. induction items as [|w items IH]; intros gs Hdata Hlog; [done |].
  simpl. destruct (simulatePsiAPVM w gs) as [delta|message]; [| done].
  by apply IH.
Qed.

(** X24. The TypeScript queue handler keeps [accounts], [coreStatus] and
    [serviceRegistry] of the updated global state only: once a work item of
    a report has executed, the global state has neither [data] nor [log],
    whatever the deltas were. *)
Theorem ts_accumulation_drops_data_and_log (w : WorkItem)
    (rest : list WorkItem) (gs : GlobalState) (delta : StateDelta) :
  simulatePsiAPVM w gs = Ok delta ->
  data (runWorkItems TS (w :: rest) gs).1 = None
  /\ log (runWorkItems TS (w :: rest) gs).1 = None.
Proof.
  intros Hw. simpl. rewrite Hw. by apply runWorkItems_TS_clean.
Qed.

End MoreProcessorProperties.

(** ** Concrete runs *)

Lemma afterThreeGuarantees_reachable (impl : Impl) :
  reachable (H := demoExternals) impl (afterThreeGuarantees impl).
Proof.
  unfold afterThreeGuarantees. do 3 apply reachable_guarantee.
  apply reachable_start. done.
Qed.

Lemma reachable_queue_history_disjoint_witness :
  xi (afterThreeGuarantees JS) !! "PVM_OUTPUT_1"%string = None.
Proof.
  apply (reachable_queue_history_disjoint (H := demoExternals) JS
           (afterThreeGuarantees JS) (afterThreeGuarantees_reachable JS)
           "PVM_OUTPUT_1").
  eexists. vm_compute. reflexivity.
Defined.

Lemma reachable_queue_ready_witness :
  NoDup (OMap.keys (omega (afterThreeGuarantees JS)))
  /\ forall d e, OMap.get d (omega (afterThreeGuarantees JS)) = Some e ->
                 status e = ready.
Proof.
  apply (reachable_queue_ready (H := demoExternals) JS
           (afterThreeGuarantees JS) (afterThreeGuarantees_reachable JS)).
Defined.


Lemma simulatePsiAPVM_low_gas_witness :
  exists message,
    simulatePsiAPVM (H := demoExternals) cheapItem emptyGlobalState
    = Throw message.
Proof.
  apply (simulatePsiAPVM_low_gas (H := demoExternals) cheapItem
           emptyGlobalState).
  simpl. lia.
Defined.


Lemma simulatePsiAPVM_transfer_witness :
  exists table,
    simulatePsiAPVM (H := demoExternals)
      (demoItem "wi-1" (transferJSON "0xAlice" "0xBob" 100) "0xtransfer")
      (globalState bankState)
    = Ok {| delta_accounts := Some table; delta_data := None;
            delta_log := None |}
    /\ (balance <$> table !! "0xBob"%string) = Some 600
    /\ (balance <$> table !! "0xAlice"%string) = Some 900.
Proof.
  destruct (simulatePsiAPVM_transfer (H := demoExternals)
              (demoItem "wi-1" (transferJSON "0xAlice" "0xBob" 100) "0xtransfer")
              (globalState bankState) "0xAlice" "0xBob" 100
              {| balance := 1000; otherFields := [] |})
    as (table & Hrun & _ & Hto & Hfrom).
  - reflexivity.
  - vm_compute. reflexivity.
  - vm_compute. reflexivity.
  - simpl. lia.
  - simpl. lia.
  - exists table. split; [exact Hrun |]. split.
    + rewrite Hto. vm_compute. reflexivity.
    + rewrite Hfrom; [reflexivity |]. vm_compute. discriminate.
Defined.

Lemma simulatePsiAPVM_transfer_refused_witness :
  simulatePsiAPVM (H := demoExternals)
    (demoItem "wi-2" (transferJSON "0xAlice" "0xBob" 5000) "0xtransfer")
    (globalState bankState)
  = Throw ("Ψ_A PVM execution failed for Work-Item wi-2: "
           +:+ "Insufficient balance or invalid accounts for transfer.").
Proof.
  apply (simulatePsiAPVM_transfer_refused (H := demoExternals)
           (demoItem "wi-2" (transferJSON "0xAlice" "0xBob" 5000) "0xtransfer")
           (globalState bankState) "0xAlice" "0xBob" 5000).
  - reflexivity.
  - vm_compute. reflexivity.
  - intros sender Hsender. vm_compute in Hsender.
    injection Hsender as <-. simpl. lia.
Defined.


Lemma chainQueue_NoDup : NoDup (OMap.keys chainQueue).
Proof. apply (bool_decide_unpack _). vm_compute. exact I. Qed.

Lemma repeatQueue_NoDup : NoDup (OMap.keys repeatQueue).
Proof. apply (bool_decide_unpack _). vm_compute. exact I. Qed.

Lemma cycleQueue_NoDup : NoDup (OMap.keys cycleQueue).
Proof. apply (bool_decide_unpack _). vm_compute. exact I. Qed.

Lemma topologicalSort_dependencies_first_witness :
  topologicalSort chainQueue = ["A"; "B"]%string
  /\ before (topologicalSort chainQueue) "A" "B".
Proof.
  split; [vm_compute; reflexivity |].
  apply (topologicalSort_dependencies_first chainQueue "B" "A"
           (queuedEntry "B" ["A"%string]).2 chainQueue_NoDup).
  - vm_compute. reflexivity.
  - left.
  - eexists. vm_compute. reflexivity.
  - apply (bool_decide_unpack _). vm_compute. exact I.
Defined.

Lemma topologicalSort_sorts_once_witness :
  NoDup (topologicalSort cycleQueue)
  /\ (forall d, d ∈ topologicalSort cycleQueue -> d ∈ OMap.keys cycleQueue)
  /\ (length (topologicalSort cycleQueue) <= OMap.size cycleQueue)%nat.
Proof.
  apply (topologicalSort_sorts_once cycleQueue cycleQueue_NoDup).
Defined.

Lemma topologicalSort_membership_witness :
  topologicalSort repeatQueue = ["A"%string]
  /\ "B"%string ∉ topologicalSort repeatQueue.
Proof.
  split; [vm_compute; reflexivity |].
  intros HB.
  destruct (topologicalSort_membership repeatQueue "B"
              (queuedEntry "B" ["A"; "A"]%string).2 repeatQueue_NoDup)
    as [Hsorted _]; [vm_compute; reflexivity |].
  destruct (Hsorted HB) as [Honce _].
  assert (queuedDependencies repeatQueue (queuedEntry "B" ["A"; "A"]%string).2
          = ["A"; "A"]%string) as Hdeps by (vm_compute; reflexivity).
  rewrite Hdeps in Honce. apply NoDup_cons in Honce as [Hin _].
  apply Hin. left.
Defined.

Lemma topologicalSort_complete_witness :
  topologicalSort chainQueue ≡ₚ ["B"; "A"]%string.
Proof.
  apply (topologicalSort_complete chainQueue chainRank chainQueue_NoDup).
  apply (bool_decide_unpack _). vm_compute. exact I.
Defined.

Lemma independent_reports_keep_insertion_order_witness :
  topologicalSort (omegaAfter JS "bb" "aa")
  = OMap.keys (omegaAfter JS "bb" "aa")
  /\ OMap.keys (omegaAfter JS "bb" "aa") = ["bb"; "aa"]%string.
Proof.
  split; [| vm_compute; reflexivity].
  apply (independent_reports_keep_insertion_order (omegaAfter JS "bb" "aa")).
  - apply (bool_decide_unpack _). vm_compute. exact I.
  - apply (bool_decide_unpack _). vm_compute. exact I.
Defined.

Lemma blocked_queue_is_left_alone_witness :
  topologicalSort (omega (queueState cycleQueue)) = []
  /\ processAccumulationQueue (H := demoExternals) JS (queueState cycleQueue) 101
     = queueState cycleQueue.
Proof.
  apply (blocked_queue_is_left_alone (H := demoExternals) JS
           (queueState cycleQueue) 101 cycleQueue_NoDup).
  apply (bool_decide_unpack _). vm_compute. exact I.
Defined.

Lemma sweep_settles_sorted_reports_witness :
  let S' := processAccumulationQueue (H := demoExternals) JS
              (queueState repeatQueue) 101 in
  (forall d, d ∈ topologicalSort repeatQueue ->
     OMap.get d (omega S') = None
     /\ (is_Some (xi S' !! d) \/ is_Some (psi_B S' !! d)))
  /\ (forall d, d ∉ topologicalSort repeatQueue ->
        OMap.get d (omega S') = OMap.get d repeatQueue).
Proof.
  apply (sweep_settles_sorted_reports (H := demoExternals) JS
           (queueState repeatQueue) 101 repeatQueue_NoDup).
  apply (bool_decide_unpack _). vm_compute. exact I.
Defined.

Lemma sweep_empties_acyclic_queue_witness :
  let S' := processAccumulationQueue (H := demoExternals) JS
              (queueState chainQueue) 101 in
  omega S' = []
  /\ forall d, is_Some (OMap.get d chainQueue) ->
       is_Some (xi S' !! d) \/ is_Some (psi_B S' !! d).
Proof.
  apply (sweep_empties_acyclic_queue (H := demoExternals) JS
           (queueState chainQueue) 101 chainRank chainQueue_NoDup).
  - apply (bool_decide_unpack _). vm_compute. exact I.
  - apply (bool_decide_unpack _). vm_compute. exact I.
Defined.

Lemma reachable_lookup_by_digest_witness :
  getReportByDigest (afterThreeGuarantees JS) "PVM_OUTPUT_1"
  = Some (demoReport "g3")
  /\ hash (generateWorkDigest (Externals := demoExternals) (demoReport "g3"))
     = "PVM_OUTPUT_1"%string.
Proof.
  assert (getReportByDigest (afterThreeGuarantees JS) "PVM_OUTPUT_1"
          = Some (demoReport "g3")) as Hget by (vm_compute; reflexivity).
  split; [exact Hget |].
  apply (reachable_lookup_by_digest (H := demoExternals) JS
           (afterThreeGuarantees JS) "PVM_OUTPUT_1" (demoReport "g3")
           (afterThreeGuarantees_reachable JS) Hget).
Defined.

Lemma reachable_pending_signed_witness :
  let e := {| report := demoReport "g3";
              receivedSignatures := {["g3"%string]};
              submissionSlot := 100 |} in
  rho (afterThreeGuarantees JS) !! "PVM_OUTPUT_1"%string = Some e
  /\ guarantorPublicKey (report e) ∈ receivedSignatures e
  /\ (1 <= size (receivedSignatures e))%nat.
Proof.
  intros e.
  assert (rho (afterThreeGuarantees JS) !! "PVM_OUTPUT_1"%string = Some e)
    as He by (vm_compute; reflexivity).
  split; [exact He |].
  apply (reachable_pending_signed (H := demoExternals) JS
           (afterThreeGuarantees JS) "PVM_OUTPUT_1" e
           (afterThreeGuarantees_reachable JS) He).
Defined.

Lemma ts_accumulation_drops_data_and_log_witness :
  let gs := (runWorkItems (H := demoExternals) TS plainItems
               emptyGlobalState).1 in
  data gs = None /\ log gs = None.
Proof.
  apply (ts_accumulation_drops_data_and_log (H := demoExternals)
           (demoItem "wi-001" "{}" "0xprogramhash123") [] emptyGlobalState
           {| delta_accounts := None; delta_data := None;
              delta_log :=
                Some "Executed 0xprogramhash123 with input {}."%string |}).
  vm_compute. reflexivity.
Defined.
